(** * agent-memory: the Confidence, Decay, Recall and Corroboration core

    A shallow embedding of the TypeScript sources
      - [store.ts]       (class [MemoryStore], the SQLite storage layer),
      - [recall.ts]      (class [RecallEngine]),
      - [corroborate.ts] (class [CorroborationEngine]),
      - [types.ts]       (the data model and the two constant tables),
    followed by the properties of the specification settled against it.

    Modelling conventions.
      - A JavaScript [number] that carries a score is a real number ([R]);
        [Math.exp], [Math.sqrt], [Math.min], [Math.max] are [exp], [sqrt],
        [Rmin], [Rmax].  Epoch-millisecond timestamps and SQL limits are
        integers ([Z]); occurrence counters are natural numbers.
      - A string is a [string] of 8-bit characters; [toLowerCase] folds the
        ASCII letters.
      - The SQLite database is an explicit value of type [Db] with one list of
        rows per table, in insertion order; every method of the store takes
        the database and returns the new one.
      - [Date.now()] and [uuid()] are read from the environment: the
        operations take the reading [now] and the fresh identifier as
        arguments (one reading of the clock per call of an operation). *)

From Stdlib Require Import Reals Lra Lia ZArith List String Ascii Bool Arith.
From Stdlib Require Import DecimalString Permutation Sorted.
Import ListNotations.

Set Implicit Arguments.

Local Open Scope string_scope.
Local Open Scope list_scope.
Local Open Scope R_scope.

(* ================================================================== *)
(** * Part I. The embedding                                            *)
(* ================================================================== *)

(** ** JavaScript primitives *)

(** [c.toLowerCase()] on one character. *)
Definition lower_ascii (c : ascii) : ascii :=
  let n := nat_of_ascii c in
  if (65 <=? n)%nat && (n <=? 90)%nat then ascii_of_nat (n + 32) else c.

(** [s.toLowerCase()]. *)
Fixpoint toLowerCase (s : string) : string :=
  match s with
  | EmptyString => EmptyString
  | String c s' => String (lower_ascii c) (toLowerCase s')
  end.

(** [s.includes(t)]. *)
Fixpoint includes (s t : string) : bool :=
  if prefix t s then true
  else match s with
       | EmptyString => false
       | String _ s' => includes s' t
       end.

(** The characters matched by the regular expression class [\s]. *)
Definition is_space (c : ascii) : bool :=
  let n := nat_of_ascii c in
  (n =? 32)%nat || ((9 <=? n)%nat && (n <=? 13)%nat).

(** [s.split(/\s+/)]: the pieces between maximal runs of white space; a
    leading or trailing run yields an empty first or last piece, and the
    empty string yields one empty piece. *)
Fixpoint split_go (in_ws : bool) (cur : string) (s : string) : list string :=
  match s with
  | EmptyString => [cur]
  | String c s' =>
      if is_space c then
        if in_ws then split_go true cur s'
        else cur :: split_go true EmptyString s'
      else split_go false (String.append cur (String c EmptyString)) s'
  end.

Definition split_ws (s : string) : list string := split_go false EmptyString s.

(** [xs.join(' ')]. *)
Definition join_space (xs : list string) : string := String.concat " " xs.

(** [s.slice(0, n)] for a non-negative [n]. *)
Definition str_slice0 (n : nat) (s : string) : string := substring 0 n s.

(** [xs.slice(0, n)]: a negative [n] counts from the end of the array. *)
Definition slice0 {A : Type} (n : Z) (xs : list A) : list A :=
  if (0 <=? n)%Z then firstn (Z.to_nat n) xs
  else firstn (List.length xs - Z.to_nat (- n)) xs.

(** The SQL clause [LIMIT n]: SQLite reads a negative [n] as no limit. *)
Definition sql_limit {A : Type} (n : Z) (xs : list A) : list A :=
  if (n <? 0)%Z then xs else firstn (Z.to_nat n) xs.

(** [new Set(xs)], in insertion order. *)
Definition mkSet (xs : list string) : list string :=
  rev (nodup string_dec (rev xs)).

(** Comparisons of numbers as booleans. *)
Definition Rltb (x y : R) : bool := if Rlt_dec x y then true else false.
Definition Rleb (x y : R) : bool := if Rle_dec x y then true else false.
Definition Reqb (x y : R) : bool := if Req_dec_T x y then true else false.

(** [Math.round(x)]: the nearest integer, halves upwards. *)
Definition Math_round_Z (x : R) : Z := Zfloor (x + / 2).
Definition Math_round (x : R) : R := IZR (Math_round_Z x).

(** [`${n}`] for an integer-valued number. *)
Definition string_of_Z (z : Z) : string := NilZero.string_of_int (Z.to_int z).

(** Truthiness of an optional string: [undefined] and [''] are falsy. *)
Definition truthy (o : option string) : bool :=
  match o with
  | Some (String _ _) => true
  | _ => false
  end.

(** [xs?.length] as a condition. *)
Definition nonempty {A : Type} (o : option (list A)) : bool :=
  match o with
  | Some (_ :: _) => true
  | _ => false
  end.

(** [o ?? d]. *)
Definition orElse {A : Type} (o : option A) (d : A) : A :=
  match o with Some a => a | None => d end.

(** A stable sort, as [Array.prototype.sort] is: [before x y] says that the
    comparator does not put [y] ahead of [x]. *)
Fixpoint insert_sorted {A : Type} (before : A -> A -> bool) (x : A) (l : list A) : list A :=
  match l with
  | [] => [x]
  | y :: l' => if before x y then x :: y :: l' else y :: insert_sorted before x l'
  end.

Definition stable_sort {A : Type} (before : A -> A -> bool) (l : list A) : list A :=
  fold_right (insert_sorted before) [] l.

(** ** types.ts: the data model *)

Inductive SourceType : Type :=
  | experienced | told | read | inferred | observed.

Inductive MemoryCategory : Type :=
  | fact | event | opinion | preference | procedure | relationship | observation.

Inductive EntityType : Type :=
  | person | project | place | concept | organization | agent.

Record Attribution : Type := mkAttribution {
  attr_type : SourceType;
  actor : option string;
  context : option string;
  timestamp : Z;
  sessionId : option string
}.

Record Confidence : Type := mkConfidence {
  score : R;
  basis : list string;
  lastVerified : option Z;
  corroborations : nat;
  contradictions : nat
}.

(** One row of the table [memories]. *)
Record Row : Type := mkRow {
  id : string;
  content : string;
  summary : option string;
  attribution : Attribution;
  confidence : Confidence;
  category : MemoryCategory;
  tags : list string;
  created : Z;
  updated : Z;
  last_accessed : Z;
  access_count : nat;
  decay_rate : R;
  relevance_score : R;
  pinned : bool;
  embedding : option (list R)
}.

(** The [Memory] object: the columns of its row ([lastAccessed] is
    [last_accessed], [accessCount] is [access_count], [decayRate] is
    [decay_rate], [relevanceScore] is [relevance_score]) and the linked
    entity identifiers. *)
Record Memory : Type := mkMemory {
  row :> Row;
  entities : list string
}.

(** One row of the table [entities]. *)
Record Entity : Type := mkEntity {
  e_id : string;
  name : string;
  e_type : EntityType;
  description : option string;
  aliases : list string;
  metadata : list (string * string);
  e_created : Z;
  e_updated : Z;
  memory_count : nat
}.

Record RecallQuery : Type := mkRecallQuery {
  q_text : string;
  q_context : option string;
  q_entities : option (list string);
  q_categories : option (list MemoryCategory);
  q_tags : option (list string);
  minConfidence : option R;
  minRelevance : option R;
  q_limit : option Z;
  includeDecayed : option bool
}.

Record RecallResult : Type := mkRecallResult {
  memory : Memory;
  matchScore : R;
  finalScore : R
}.

Record CreateMemoryInput : Type := mkCreateMemoryInput {
  in_content : string;
  in_summary : option string;
  in_type : SourceType;
  in_actor : option string;
  in_context : option string;
  in_entities : option (list string);
  in_tags : option (list string);
  in_category : MemoryCategory;
  in_decayRate : option R;
  in_pinned : option bool
}.

Definition SourceType_eqb (a b : SourceType) : bool :=
  match a, b with
  | experienced, experienced | told, told | read, read
  | inferred, inferred | observed, observed => true
  | _, _ => false
  end.

Definition MemoryCategory_eqb (a b : MemoryCategory) : bool :=
  match a, b with
  | fact, fact | event, event | opinion, opinion | preference, preference
  | procedure, procedure | relationship, relationship
  | observation, observation => true
  | _, _ => false
  end.

(** The name of a source type, as the template strings print it. *)
Definition SourceType_name (t : SourceType) : string :=
  match t with
  | experienced => "experienced"
  | told => "told"
  | read => "read"
  | inferred => "inferred"
  | observed => "observed"
  end.

(** [SOURCE_BASE_CONFIDENCE], in tenths: 0.9, 0.8, 0.6, 0.5, 0.4. *)
Definition SOURCE_BASE_CONFIDENCE_tenths (t : SourceType) : Z :=
  match t with
  | experienced => 9
  | observed => 8
  | told => 6
  | read => 5
  | inferred => 4
  end.

Definition SOURCE_BASE_CONFIDENCE (t : SourceType) : R :=
  IZR (SOURCE_BASE_CONFIDENCE_tenths t) / 10.

(** [`${baseScore}`] for an entry of the table: "0.9", ..., "0.4". *)
Definition SOURCE_BASE_CONFIDENCE_string (t : SourceType) : string :=
  String.append "0." (string_of_Z (SOURCE_BASE_CONFIDENCE_tenths t)).

Definition CATEGORY_DEFAULT_DECAY (c : MemoryCategory) : R :=
  match c with
  | fact => 0.1
  | procedure => 0.15
  | relationship => 0.2
  | preference => 0.25
  | event => 0.3
  | opinion => 0.35
  | observation => 0.4
  end.

(** ** store.ts: the SQLite storage layer *)

(** The three tables of [initSchema], rows in insertion order.  A row of
    [memory_entities] is the pair (memory_id, entity_id). *)
Record Db : Type := mkDb {
  tbl_memories : list Row;
  tbl_entities : list Entity;
  tbl_memory_entities : list (string * string)
}.

Definition empty_db : Db := mkDb [] [] [].

(** The SQL operator [s LIKE p] without an escape character: [%] stands for
    any run of characters, [_] for one character, and letters compare
    without case. *)
Fixpoint like_match (p s : string) : bool :=
  match p with
  | EmptyString => match s with EmptyString => true | _ => false end
  | String c p' =>
      if Ascii.eqb c "%" then
        (fix star (s : string) : bool :=
           like_match p' s ||
           match s with
           | EmptyString => false
           | String _ s' => star s'
           end) s
      else if Ascii.eqb c "_" then
        match s with
        | EmptyString => false
        | String _ s' => like_match p' s'
        end
      else
        match s with
        | EmptyString => false
        | String d s' => Ascii.eqb (lower_ascii c) (lower_ascii d) && like_match p' s'
        end
  end.

(** [col LIKE '%text%'] on a nullable column. *)
Definition like_contains (text : string) (col : option string) : bool :=
  match col with
  | Some s => like_match (String.append "%" (String.append text "%")) s
  | None => false
  end.

(** [ORDER BY relevance_score DESC, created DESC]; rows that tie keep the
    order of the table (SQL leaves their order open). *)
Definition by_relevance_created (x y : Row) : bool :=
  Rltb (relevance_score y) (relevance_score x) ||
  (Reqb (relevance_score x) (relevance_score y) && (created y <=? created x)%Z).

(** [ORDER BY created DESC]. *)
Definition by_created (x y : Row) : bool := (created y <=? created x)%Z.

(** [SELECT entity_id FROM memory_entities WHERE memory_id = ?]: the
    statement has no [ORDER BY] and is answered from the index of the primary
    key [(memory_id, entity_id)], so that the identifiers come in the order
    of that index, ascending by their bytes, whatever the order in which the
    links were stored. *)
Definition linked_entities (db : Db) (memoryId : string) : list string :=
  stable_sort String.leb
    (map snd (filter (fun l => String.eqb (fst l) memoryId) (tbl_memory_entities db))).

Definition rowToMemory (db : Db) (r : Row) : Memory :=
  mkMemory r (linked_entities db (id r)).

(** [SELECT * FROM memories WHERE id = ?], first row. *)
Definition getRow (db : Db) (ident : string) : option Row :=
  find (fun r => String.eqb (id r) ident) (tbl_memories db).

(** [UPDATE memories SET ... WHERE id = ?]. *)
Definition update_rows (ident : string) (f : Row -> Row) (rows : list Row) : list Row :=
  map (fun r => if String.eqb (id r) ident then f r else r) rows.

Definition with_memories (db : Db) (rows : list Row) : Db :=
  mkDb rows (tbl_entities db) (tbl_memory_entities db).

(** [SET last_accessed = ?, access_count = access_count + 1]. *)
Definition set_access (now : Z) (r : Row) : Row :=
  mkRow (id r) (content r) (summary r) (attribution r) (confidence r)
        (category r) (tags r) (created r) (updated r)
        now (S (access_count r))
        (decay_rate r) (relevance_score r) (pinned r) (embedding r).

(** [SET relevance_score = ?]. *)
Definition set_relevance (v : R) (r : Row) : Row :=
  mkRow (id r) (content r) (summary r) (attribution r) (confidence r)
        (category r) (tags r) (created r) (updated r)
        (last_accessed r) (access_count r)
        (decay_rate r) v (pinned r) (embedding r).

(** [SET confidence = ?, updated = ?]. *)
Definition set_confidence (c : Confidence) (now : Z) (r : Row) : Row :=
  mkRow (id r) (content r) (summary r) (attribution r) c
        (category r) (tags r) (created r) now
        (last_accessed r) (access_count r)
        (decay_rate r) (relevance_score r) (pinned r) (embedding r).

Definition computeInitialConfidence (input : CreateMemoryInput) : Confidence :=
  let baseScore := SOURCE_BASE_CONFIDENCE (in_type input) in
  let basis0 :=
    [String.append (SourceType_name (in_type input))
       (String.append " source (base: "
          (String.append (SOURCE_BASE_CONFIDENCE_string (in_type input)) ")"))] in
  let basis1 :=
    if truthy (in_actor input)
    then basis0 ++ [String.append "from: " (orElse (in_actor input) "")]
    else basis0 in
  let score1 := if truthy (in_context input) then baseScore + 0.05 else baseScore in
  let basis2 :=
    if truthy (in_context input) then basis1 ++ ["has source context"] else basis1 in
  mkConfidence (Rmin 1 (Math_round (score1 * 100) / 100)) basis2 None 0 0.

(** [INSERT OR IGNORE INTO entities ...]: ignored when the key is taken. *)
Definition insert_entity_or_ignore (e : Entity) (ents : list Entity) : list Entity :=
  if existsb (fun x => String.eqb (e_id x) (e_id e)) ents then ents else ents ++ [e].

(** [INSERT OR IGNORE INTO memory_entities ...]. *)
Definition insert_link_or_ignore (l : string * string) (ls : list (string * string))
  : list (string * string) :=
  if existsb (fun x => String.eqb (fst x) (fst l) && String.eqb (snd x) (snd l)) ls
  then ls else ls ++ [l].

(** [UPDATE entities SET memory_count = memory_count + 1 WHERE id = ?]. *)
Definition bump_memory_count (entityId : string) (ents : list Entity) : list Entity :=
  map (fun e =>
         if String.eqb (e_id e) entityId
         then mkEntity (e_id e) (name e) (e_type e) (description e) (aliases e)
                       (metadata e) (e_created e) (e_updated e) (S (memory_count e))
         else e) ents.

(** The entity that [linkEntities] creates for an unknown identifier. *)
Definition auto_entity (now : Z) (entityId : string) : Entity :=
  mkEntity entityId entityId concept None [] [] now now 0.

(** What one turn of the loop of [linkEntities] writes: the entity if it
    is unknown, the link if it is new, and the count. *)
Definition linked (now : Z) (memoryId : string) (db : Db) (entityId : string) : Db :=
  let ents := insert_entity_or_ignore (auto_entity now entityId) (tbl_entities db) in
  let links := insert_link_or_ignore (memoryId, entityId) (tbl_memory_entities db) in
  mkDb (tbl_memories db) (bump_memory_count entityId ents) links.

(** The foreign keys of [memory_entities] ([PRAGMA foreign_keys = ON]) at
    the second statement of the turn: a new link needs its memory, and its
    entity among the entities after the first statement. *)
Definition fk_ok (now : Z) (memoryId : string) (db : Db) (entityId : string) : bool :=
  existsb (fun x => String.eqb (fst x) memoryId && String.eqb (snd x) entityId)
          (tbl_memory_entities db) ||
  (existsb (fun r => String.eqb (id r) memoryId) (tbl_memories db) &&
   existsb (fun e => String.eqb (e_id e) entityId)
           (insert_entity_or_ignore (auto_entity now entityId) (tbl_entities db))).

(** One turn of the loop of [linkEntities]; [None] stands for the exception
    of a violated foreign key. *)
Definition linkEntity (now : Z) (memoryId : string) (db : Db) (entityId : string)
  : option Db :=
  if fk_ok now memoryId db entityId then Some (linked now memoryId db entityId) else None.

Definition linkEntities (now : Z) (memoryId : string) (entityIds : list string) (db : Db)
  : option Db :=
  fold_left
    (fun acc entityId =>
       match acc with
       | Some d => linkEntity now memoryId d entityId
       | None => None
       end)
    entityIds (Some db).

(** [createMemory]: [None] stands for an exception, of the [INSERT] when the
    primary key [ident] is already in the table, or of [linkEntities]. *)
Definition createMemory (db : Db) (now : Z) (ident : string) (input : CreateMemoryInput)
  : option (Memory * Db) :=
  let attribution :=
    mkAttribution (in_type input) (in_actor input) (in_context input) now None in
  let confidence := computeInitialConfidence input in
  let decayRate := orElse (in_decayRate input) (CATEGORY_DEFAULT_DECAY (in_category input)) in
  let r :=
    mkRow ident (in_content input) (in_summary input) attribution confidence
          (in_category input) (orElse (in_tags input) [])
          now now now 0%nat decayRate 1 (orElse (in_pinned input) false) None in
  let memory := mkMemory r (orElse (in_entities input) []) in
  match getRow db ident with
  | Some _ => None
  | None =>
      let db1 := with_memories db (tbl_memories db ++ [r]) in
      if nonempty (in_entities input)
      then match linkEntities now ident (orElse (in_entities input) []) db1 with
           | Some db2 => Some (memory, db2)
           | None => None
           end
      else Some (memory, db1)
  end.

Definition getMemory (db : Db) (now : Z) (ident : string) : option Memory * Db :=
  match getRow db ident with
  | None => (None, db)
  | Some r =>
      let db' := with_memories db (update_rows ident (set_access now) (tbl_memories db)) in
      (Some (rowToMemory db' r), db')
  end.

(** The argument of [updateMemory]: every field is optional. *)
Record MemoryUpdates : Type := mkMemoryUpdates {
  u_content : option string;
  u_summary : option string;
  u_tags : option (list string);
  u_category : option MemoryCategory;
  u_pinned : option bool;
  u_decayRate : option R
}.

(** The [UPDATE] statement that [updateMemory] assembles. *)
Definition apply_updates (now : Z) (u : MemoryUpdates) (r : Row) : Row :=
  mkRow (id r)
        (orElse (u_content u) (content r))
        (match u_summary u with Some s => Some s | None => summary r end)
        (attribution r) (confidence r)
        (orElse (u_category u) (category r))
        (orElse (u_tags u) (tags r))
        (created r) now
        (last_accessed r) (access_count r)
        (orElse (u_decayRate u) (decay_rate r))
        (relevance_score r)
        (orElse (u_pinned u) (pinned r))
        (embedding r).

Definition updateMemory (db : Db) (now : Z) (ident : string) (u : MemoryUpdates)
  : option Memory * Db :=
  match getMemory db now ident with
  | (None, db1) => (None, db1)
  | (Some _, db1) =>
      let db2 := with_memories db1 (update_rows ident (apply_updates now u) (tbl_memories db1)) in
      getMemory db2 now ident
  end.

(** [DELETE FROM memories WHERE id = ?]; the foreign key of
    [memory_entities] deletes the links of the row with it. *)
Definition deleteMemory (db : Db) (ident : string) : bool * Db :=
  let kept := filter (fun r => negb (String.eqb (id r) ident)) (tbl_memories db) in
  let links := filter (fun l => negb (String.eqb (fst l) ident)) (tbl_memory_entities db) in
  (negb (Nat.eqb (List.length kept) (List.length (tbl_memories db))),
   mkDb kept (tbl_entities db) links).

Definition createEntity (db : Db) (now : Z) (ident nm : string) (ty : EntityType)
  (descr : option string) (als : option (list string)) : Entity * Db :=
  let entity := mkEntity ident nm ty descr (orElse als []) [] now now 0 in
  (entity, mkDb (tbl_memories db) (insert_entity_or_ignore entity (tbl_entities db))
                (tbl_memory_entities db)).

Definition getEntity (db : Db) (ident : string) : option Entity :=
  find (fun e => String.eqb (e_id e) ident) (tbl_entities db).

Definition is_linked (db : Db) (entityId : string) (r : Row) : bool :=
  existsb (fun l => String.eqb (fst l) (id r) && String.eqb (snd l) entityId)
          (tbl_memory_entities db).

(** The rows are found in the order in which they were stored and then
    sorted, so that rows that agree on both keys keep that order. *)
Definition getEntityMemories (db : Db) (entityId : string) (limit : Z) : list Memory :=
  map (rowToMemory db)
      (sql_limit limit
         (stable_sort by_relevance_created
            (filter (is_linked db entityId) (tbl_memories db)))).

(** The rows are read through the index on [relevance_score] from its end
    and sorted on [created] within one relevance, so that rows that agree on
    both keys come with the one stored last first. *)
Definition searchByText (db : Db) (text : string) (limit : Z) : list Memory :=
  map (rowToMemory db)
      (sql_limit limit
         (stable_sort by_relevance_created
            (rev (filter (fun r => like_contains text (Some (content r)) ||
                                   like_contains text (summary r))
                         (tbl_memories db))))).

(** As in [getEntityMemories], ties keep the order of storing. *)
Definition searchByCategory (db : Db) (cat : MemoryCategory) (limit : Z) : list Memory :=
  map (rowToMemory db)
      (sql_limit limit
         (stable_sort by_relevance_created
            (filter (fun r => MemoryCategory_eqb (category r) cat) (tbl_memories db)))).

(** The rows are read through the index on [created] from its end, so
    that rows of one time of creation come with the one stored last first. *)
Definition getAllMemories (db : Db) (limit : Z) : list Memory :=
  map (rowToMemory db) (sql_limit limit (stable_sort by_created (rev (tbl_memories db)))).

(** Modelled from the spec: the store method [getAllEmbeddings] that
    [RecallEngine.recall] calls is not part of the storage layer at hand; the
    specification lists it as [allEmbeddings()], the stored embedding of
    every fact that has one, and the schema keeps it in the nullable column
    [embedding]. *)
Definition getAllEmbeddings (db : Db) : list (string * list R) :=
  flat_map (fun r => match embedding r with
                     | Some v => [(id r, v)]
                     | None => []
                     end) (tbl_memories db).

(** *** Decay *)

Definition ONE_DAY : R := 86400000.

(** The body of the loop of [applyDecay] up to the clamp. *)
Definition clamped (now : Z) (mem : Row) : R :=
  let daysSinceAccess := IZR (now - last_accessed mem) / ONE_DAY in
  let newRelevance := exp (- decay_rate mem * daysSinceAccess * 0.01) in
  Rmax 0 (Rmin 1 newRelevance).

Record DecayState : Type := mkDecayState {
  d_updated : nat;
  d_archived : nat;
  d_db : Db
}.

(** One turn of the loop: [mem] is a row of the initial [SELECT]. *)
Definition decay_step (now : Z) (st : DecayState) (mem : Row) : DecayState :=
  let c := clamped now mem in
  if Reqb c (relevance_score mem) then st
  else
    mkDecayState (S (d_updated st))
                 (if Rltb c 0.05 then S (d_archived st) else d_archived st)
                 (with_memories (d_db st)
                    (update_rows (id mem) (set_relevance c) (tbl_memories (d_db st)))).

Definition applyDecay (db : Db) (now : Z) : DecayState :=
  let memories := filter (fun r => negb (pinned r)) (tbl_memories db) in
  fold_left (decay_step now) memories (mkDecayState 0 0 db).

(** ** recall.ts: the recall engine *)

(** The optional [EmbeddingProvider]: the awaited result of [embed], as a
    function of the text. *)
Definition EmbeddingProvider : Type := string -> list R.

Record Scores : Type := mkScores {
  s_text : R;
  s_semantic : R;
  s_entity : R
}.

(** [candidateMap]: a [Map] from identifiers to candidates, iterated in
    insertion order. *)
Definition CandidateMap : Type := list (string * (Memory * Scores)).

Definition map_has (k : string) (m : CandidateMap) : bool :=
  existsb (fun e => String.eqb (fst e) k) m.

Definition map_get (k : string) (m : CandidateMap) : option (Memory * Scores) :=
  option_map snd (find (fun e => String.eqb (fst e) k) m).

(** [m.set(k, v)]: a present key keeps its place. *)
Definition map_set (k : string) (v : Memory * Scores) (m : CandidateMap) : CandidateMap :=
  if map_has k m
  then map (fun e => if String.eqb (fst e) k then (k, v) else e) m
  else m ++ [(k, v)].

(** [m.get(k)!.scores.entity = 1.0] and [m.get(k)!.scores.semantic = sim]. *)
Definition map_update_scores (k : string) (f : Scores -> Scores) (m : CandidateMap)
  : CandidateMap :=
  map (fun e => if String.eqb (fst e) k then (fst e, (fst (snd e), f (snd (snd e)))) else e) m.

Definition set_entity_score (v : R) (s : Scores) : Scores :=
  mkScores (s_text s) (s_semantic s) v.

Definition set_semantic_score (v : R) (s : Scores) : Scores :=
  mkScores (s_text s) v (s_entity s).

Definition textMatchScore (query : string) (memory : Memory) : R :=
  let queryLower := toLowerCase query in
  let contentLower := toLowerCase (content memory) in
  let summaryLower := toLowerCase (orElse (summary memory) "") in
  let queryTerms := filter (fun t => (2 <? String.length t)%nat) (split_ws queryLower) in
  if Nat.eqb (List.length queryTerms) 0 then 0
  else
    let matches :=
      fold_left
        (fun matches term =>
           let m1 := if includes contentLower term then matches + 1 else matches in
           if includes summaryLower term then m1 + 0.5 else m1)
        queryTerms 0 in
    let matches' :=
      if includes contentLower queryLower
      then matches + INR (List.length queryTerms) else matches in
    Rmin 1 (matches' / (INR (List.length queryTerms) * 2)).

Definition computeMatchScore (scores : Scores) : R :=
  if Rltb 0 (s_semantic scores)
  then s_semantic scores * 0.5 + s_text scores * 0.3 + s_entity scores * 0.2
  else s_text scores * 0.7 + s_entity scores * 0.3.

Definition contextBoost (ctx : string) (memory : Memory) : R :=
  let contextLower := toLowerCase ctx in
  let memContext := toLowerCase (orElse (context (attribution memory)) "") in
  if truthy (Some memContext) then
    let contextTerms := filter (fun t => (3 <? String.length t)%nat) (split_ws contextLower) in
    let overlap :=
      List.length (filter (fun term => includes memContext term) contextTerms) in
    1 + (INR overlap / INR (Nat.max (List.length contextTerms) 1)) * 0.3
  else 1.

Definition cosineSimilarity (a b : list R) : R :=
  if negb (Nat.eqb (List.length a) (List.length b)) then 0
  else
    let dot := fold_left (fun acc p => acc + fst p * snd p) (combine a b) 0 in
    let normA := fold_left (fun acc p => acc + fst p * fst p) (combine a b) 0 in
    let normB := fold_left (fun acc p => acc + snd p * snd p) (combine a b) 0 in
    let denom := sqrt normA * sqrt normB in
    if Reqb denom 0 then 0 else dot / denom.

(** [(a, b) => b.finalScore - a.finalScore] as the order of a stable sort. *)
Definition by_finalScore (a b : RecallResult) : bool :=
  Rleb (finalScore b) (finalScore a).

Definition no_scores : Scores := mkScores 0 0 0.

(** Step 1 of [recall], the text search. *)
Definition gather_text (db : Db) (text : string) (limit : Z) : CandidateMap :=
  fold_left
    (fun m (mem : Memory) => map_set (id mem) (mem, mkScores (textMatchScore text mem) 0 0) m)
    (searchByText db text (limit * 3)) [].

(** Step 1, the entity filter. *)
Definition gather_entities (db : Db) (ents : option (list string)) (limit : Z)
  (m0 : CandidateMap) : CandidateMap :=
  if nonempty ents then
    fold_left
      (fun m entityId =>
         fold_left
           (fun m (mem : Memory) =>
              let m1 := if map_has (id mem) m then m
                        else map_set (id mem) (mem, no_scores) m in
              map_update_scores (id mem) (set_entity_score 1) m1)
           (getEntityMemories db entityId (limit * 2)) m)
      (orElse ents []) m0
  else m0.

(** Step 1, the category filter. *)
Definition gather_categories (db : Db) (cats : option (list MemoryCategory)) (limit : Z)
  (m0 : CandidateMap) : CandidateMap :=
  if nonempty cats then
    fold_left
      (fun m cat =>
         fold_left
           (fun m (mem : Memory) =>
              if map_has (id mem) m then m
              else map_set (id mem) (mem, no_scores) m)
           (searchByCategory db cat (limit * 2)) m)
      (orElse cats []) m0
  else m0.

(** Step 1, one turn of the loop of the semantic search. *)
Definition semantic_step (now : Z) (queryEmbedding : list R)
  (st : CandidateMap * Db) (e : string * list R) : CandidateMap * Db :=
  let (m, db) := st in
  let sim := cosineSimilarity queryEmbedding (snd e) in
  if Rltb 0.5 sim then
    if map_has (fst e) m then (map_update_scores (fst e) (set_semantic_score sim) m, db)
    else
      match getMemory db now (fst e) with
      | (Some mem, db') => (map_set (fst e) (mem, mkScores 0 sim 0) m, db')
      | (None, db') => (m, db')
      end
  else (m, db).

Definition gather_semantic (db : Db) (embedder : option EmbeddingProvider) (now : Z)
  (text : string) (m0 : CandidateMap) : CandidateMap * Db :=
  match embedder with
  | Some embed =>
      fold_left (semantic_step now (embed text)) (getAllEmbeddings db) (m0, db)
  | None => (m0, db)
  end.

(** Step 2 of [recall] on one candidate: filter and score. *)
Definition score_candidate (query : RecallQuery) (minConf minRel : R)
  (c : string * (Memory * Scores)) : list RecallResult :=
  let memory := fst (snd c) in
  let scores := snd (snd c) in
  if Rltb (score (confidence memory)) minConf then []
  else if Rltb (relevance_score memory) minRel && negb (orElse (includeDecayed query) false)
  then []
  else
    let matchScore := computeMatchScore scores in
    let finalScore := matchScore * score (confidence memory) * relevance_score memory in
    let boost :=
      if truthy (q_context query)
      then contextBoost (orElse (q_context query) "") memory else 1 in
    [mkRecallResult memory matchScore (finalScore * boost)].

Definition minFinalScore : R := 0.15.

Definition recall (db : Db) (embedder : option EmbeddingProvider) (now : Z)
  (query : RecallQuery) : list RecallResult * Db :=
  let limit := orElse (q_limit query) 10%Z in
  let minConf := orElse (minConfidence query) 0.3 in
  let minRel := orElse (minRelevance query) 0.1 in
  let m1 := gather_text db (q_text query) limit in
  let m2 := gather_entities db (q_entities query) limit m1 in
  let m3 := gather_categories db (q_categories query) limit m2 in
  let (candidateMap, db') := gather_semantic db embedder now (q_text query) m3 in
  let results := flat_map (score_candidate query minConf minRel) candidateMap in
  let filtered := filter (fun r => Rleb minFinalScore (finalScore r)) results in
  (slice0 limit (stable_sort by_finalScore filtered), db').

Definition quickRecall (db : Db) (text : string) (limit : Z) : list RecallResult :=
  let memories := searchByText db text (limit * 3) in
  let results :=
    map (fun memory =>
           let matchScore := textMatchScore text memory in
           mkRecallResult memory matchScore
             (matchScore * score (confidence memory) * relevance_score memory))
        memories in
  slice0 limit (stable_sort by_finalScore results).

Definition entityRecall (db : Db) (entityId : string) (limit : Z) : list RecallResult :=
  stable_sort by_finalScore
    (map (fun memory =>
            mkRecallResult memory 1
              (score (confidence memory) * relevance_score memory))
         (getEntityMemories db entityId limit)).

(** ** corroborate.ts: the corroboration engine *)

Record CorroborationResult : Type := mkCorroborationResult {
  memoryId : string;
  oldConfidence : R;
  cr_newConfidence : R;
  cr_reason : string
}.

Record MemoryBrief : Type := mkMemoryBrief {
  b_id : string;
  b_summary : string;
  b_confidence : R
}.

Record ContradictionResult : Type := mkContradictionResult {
  memoryA : MemoryBrief;
  memoryB : MemoryBrief;
  similarity : R;
  reason : string
}.

Record VerifyResult : Type := mkVerifyResult {
  verified : bool;
  evidence : list string;
  newConfidence : R
}.

(** String concatenation of a template string. *)
Definition cat (xs : list string) : string := String.concat "" xs.

(** The double-quote character of the reason strings. *)
Definition dquote : string := String (ascii_of_nat 34) EmptyString.

Definition contentSimilarity (a b : string) : R :=
  let wordsA :=
    mkSet (filter (fun w => (3 <? String.length w)%nat) (split_ws (toLowerCase a))) in
  let wordsB :=
    mkSet (filter (fun w => (3 <? String.length w)%nat) (split_ws (toLowerCase b))) in
  let intersection :=
    List.length (filter (fun w => existsb (String.eqb w) wordsB) wordsA) in
  let union := (List.length wordsA + List.length wordsB - intersection)%nat in
  if Nat.eqb union 0 then 0 else INR intersection / INR union.

Definition updateConfidence (db : Db) (now : Z) (ident : string) (c : Confidence) : Db :=
  with_memories db (update_rows ident (set_confidence c now) (tbl_memories db)).

(** [if (!candidates.find(c => c.id === m.id)) candidates.push(m)]. *)
Definition push_new (candidates : list Memory) (m : Memory) : list Memory :=
  if existsb (fun c : Memory => String.eqb (id c) (id m)) candidates
  then candidates else candidates ++ [m].

Definition findRelated (db : Db) (memory : Memory) : list Memory :=
  let byEntity :=
    fold_left
      (fun candidates entityId =>
         fold_left push_new (getEntityMemories db entityId 20) candidates)
      (entities memory) [] in
  let keywords :=
    join_space
      (firstn 3 (filter (fun w => (4 <? String.length w)%nat) (split_ws (content memory)))) in
  if truthy (Some keywords)
  then fold_left push_new (searchByText db keywords 10) byEntity
  else byEntity.

Definition isIndependentSource (a b : Memory) : bool :=
  if negb (SourceType_eqb (attr_type (attribution a)) (attr_type (attribution b))) then true
  else if truthy (actor (attribution a)) && truthy (actor (attribution b)) &&
          negb (String.eqb (orElse (actor (attribution a)) "")
                           (orElse (actor (attribution b)) ""))
  then true
  else if truthy (context (attribution a)) && truthy (context (attribution b)) &&
          negb (String.eqb (orElse (context (attribution a)) "")
                           (orElse (context (attribution b)) ""))
  then true
  else false.

Definition sourceWeights (t : SourceType) : R :=
  match t with
  | experienced => 1.5
  | observed => 1.2
  | told => 1.0
  | read => 0.8
  | inferred => 0.5
  end.

Definition calculateBoost (sim : R) (newMem existingMem : Memory) : R :=
  let boost0 := sim * 0.1 in
  let boost1 := boost0 * sourceWeights (attr_type (attribution newMem)) in
  let existing := corroborations (confidence existingMem) in
  let boost2 :=
    if (0 <? existing)%nat then boost1 * (1 / (1 + INR existing * 0.3)) else boost1 in
  Math_round (boost2 * 100) / 100.

Definition negationPairs : list (string * string) :=
  [ ("is", "isn't"); ("is", "is not");
    ("can", "can't"); ("can", "cannot");
    ("does", "doesn't"); ("does", "does not");
    ("should", "shouldn't"); ("should", "should not");
    ("works", "doesn't work"); ("working", "not working");
    ("true", "false"); ("yes", "no");
    ("enabled", "disabled") ].

(** The test of one pair of the table on the two lower-cased texts. *)
Definition opposes (aLower bLower : string) (p : string * string) : bool :=
  (includes aLower (fst p) && includes bLower (snd p)) ||
  (includes aLower (snd p) && includes bLower (fst p)).

(** The reason that [detectContradiction] returns for a pair of the table. *)
Definition negation_reason (p : string * string) : string :=
  cat ["Potential negation: "; dquote; fst p; dquote; " vs "; dquote; snd p; dquote;
       " in related memories"].

Definition detectContradiction (a b : Memory) : option string :=
  let aLower := toLowerCase (content a) in
  let bLower := toLowerCase (content b) in
  option_map negation_reason
    (find
       (fun p => opposes aLower bLower p && Rltb 0.3 (contentSimilarity aLower bLower))
       negationPairs).

(** One candidate of the loop of [checkCorroboration]. *)
Definition corroborate_step (now : Z) (newMemory : Memory)
  (st : list CorroborationResult * Db) (existing : Memory)
  : list CorroborationResult * Db :=
  let (results, db) := st in
  if String.eqb (id existing) (id newMemory) then st
  else if isIndependentSource newMemory existing then
    let sim := contentSimilarity (content newMemory) (content existing) in
    if Rltb 0.5 sim then
      let boost := calculateBoost sim newMemory existing in
      let oldScore := score (confidence existing) in
      let newScore := Rmin 1 (oldScore + boost) in
      let db' :=
        updateConfidence db now (id existing)
          (mkConfidence
             (Math_round (newScore * 100) / 100)
             (basis (confidence existing) ++
                [cat ["+"; string_of_Z (Math_round_Z (boost * 100));
                      "% corroborated by ";
                      SourceType_name (attr_type (attribution newMemory)); " source"]])
             (Some now)
             (corroborations (confidence existing) + 1)
             (contradictions (confidence existing))) in
      (results ++
         [mkCorroborationResult (id existing) oldScore newScore
            (cat ["Corroborated by new ";
                  SourceType_name (attr_type (attribution newMemory));
                  " memory (similarity: ";
                  string_of_Z (Math_round_Z (sim * 100)); "%)"])],
       db')
    else st
  else st.

Definition checkCorroboration (db : Db) (now : Z) (newMemory : Memory)
  : list CorroborationResult * Db :=
  fold_left (corroborate_step now newMemory) (findRelated db newMemory) ([], db).

Definition brief (m : Memory) : MemoryBrief :=
  mkMemoryBrief (id m) (orElse (summary m) (str_slice0 60 (content m)))
                (score (confidence m)).

(** The body of the inner loop of [findContradictions] for the pair (a, b). *)
Definition contradiction_step (now : Z) (a : Memory)
  (st : list ContradictionResult * Db) (b : Memory)
  : list ContradictionResult * Db :=
  let (found, db) := st in
  let sharedEntities :=
    filter (fun e => existsb (String.eqb e) (entities b)) (entities a) in
  if Nat.eqb (List.length sharedEntities) 0 then st
  else if negb (MemoryCategory_eqb (category a) (category b)) then st
  else
    match detectContradiction a b with
    | Some why =>
        let db1 :=
          updateConfidence db now (id a)
            (mkConfidence (score (confidence a))
               (basis (confidence a) ++
                  [String.append "⚠️ Potential contradiction with memory "
                     (str_slice0 8 (id b))])
               (lastVerified (confidence a))
               (corroborations (confidence a))
               (contradictions (confidence a) + 1)) in
        let db2 :=
          updateConfidence db1 now (id b)
            (mkConfidence (score (confidence b))
               (basis (confidence b) ++
                  [String.append "⚠️ Potential contradiction with memory "
                     (str_slice0 8 (id a))])
               (lastVerified (confidence b))
               (corroborations (confidence b))
               (contradictions (confidence b) + 1)) in
        (found ++
           [mkContradictionResult (brief a) (brief b)
              (contentSimilarity (content a) (content b)) why],
         db2)
    | None => st
    end.

(** The outer loop of [findContradictions]: [memories] is what is left of
    the array from index [i] on; the loop condition
    [contradictions.length < limit] is tested once per value of [i]. *)
Fixpoint contradictions_from (now : Z) (limit : Z) (memories : list Memory)
  (st : list ContradictionResult * Db) : list ContradictionResult * Db :=
  match memories with
  | [] => st
  | a :: rest =>
      if (Z.of_nat (List.length (fst st)) <? limit)%Z
      then contradictions_from now limit rest
             (fold_left (contradiction_step now a) rest st)
      else st
  end.

Definition findContradictions (db : Db) (now : Z) (limit : Z)
  : list ContradictionResult * Db :=
  contradictions_from now limit (getAllMemories db 200) ([], db).

(** The body of the loop of [verifyMemory] for one related memory. *)
Definition verify_step (ident : string) (memory : Memory)
  (st : nat * list string) (rel : Memory) : nat * list string :=
  let (count, ev) := st in
  if String.eqb (id rel) ident then st
  else
    let sim := contentSimilarity (content memory) (content rel) in
    if Rltb 0.4 sim then
      (S count,
       ev ++ [cat ["Supported by "; SourceType_name (attr_type (attribution rel));
                   " memory";
                   (if truthy (actor (attribution rel))
                    then cat [" (via "; orElse (actor (attribution rel)) ""; ")"]
                    else "");
                   " — "; string_of_Z (Math_round_Z (sim * 100)); "% similar"]])
    else st.

Definition verifyMemory (db : Db) (now : Z) (ident : string) : VerifyResult * Db :=
  match getMemory db now ident with
  | (None, db1) => (mkVerifyResult false ["Memory not found"] 0, db1)
  | (Some memory, db1) =>
      let related := findRelated db1 memory in
      let (count, ev) := fold_left (verify_step ident memory) related (0%nat, []) in
      let score0 := score (confidence memory) in
      let newConf := if (0 <? count)%nat then Rmin 1 (score0 + INR count * 0.05) else score0 in
      let db2 :=
        if (0 <? count)%nat then
          updateConfidence db1 now ident
            (mkConfidence (Math_round (newConf * 100) / 100)
               (basis (confidence memory))
               (Some now)
               (corroborations (confidence memory) + count)
               (contradictions (confidence memory)))
        else db1 in
      (mkVerifyResult (0 <? count)%nat
         (match ev with [] => ["No corroborating evidence found"] | _ => ev end)
         (Math_round (newConf * 100) / 100),
       db2)
  end.

(** ** The reachable states of the store *)

(** One call of an operation of the store or of the engines.  [allowed]
    restricts the updates that [updateMemory] may be called with. *)
Inductive step (allowed : MemoryUpdates -> Prop) : Db -> Db -> Prop :=
  | step_createMemory : forall db now ident input m db',
      createMemory db now ident input = Some (m, db') -> step allowed db db'
  | step_createEntity : forall db now ident nm ty descr als,
      step allowed db (snd (createEntity db now ident nm ty descr als))
  | step_getMemory : forall db now ident,
      step allowed db (snd (getMemory db now ident))
  | step_updateMemory : forall db now ident u,
      allowed u -> step allowed db (snd (updateMemory db now ident u))
  | step_deleteMemory : forall db ident,
      step allowed db (snd (deleteMemory db ident))
  | step_applyDecay : forall db now,
      step allowed db (d_db (applyDecay db now))
  | step_updateConfidence : forall db now ident c,
      step allowed db (updateConfidence db now ident c)
  | step_checkCorroboration : forall db now m,
      step allowed db (snd (checkCorroboration db now m))
  | step_findContradictions : forall db now limit,
      step allowed db (snd (findContradictions db now limit))
  | step_verifyMemory : forall db now ident,
      step allowed db (snd (verifyMemory db now ident))
  | step_recall : forall db embedder now query,
      step allowed db (snd (recall db embedder now query)).

Inductive reachable (allowed : MemoryUpdates -> Prop) : Db -> Prop :=
  | reach_init : reachable allowed empty_db
  | reach_step : forall db db',
      reachable allowed db -> step allowed db db' -> reachable allowed db'.

Definition any_update (u : MemoryUpdates) : Prop := True.


(** ** Definitions that follow the words of the specification *)

(** The base score of the specification's table. *)
Definition spec_base (t : SourceType) : R :=
  match t with
  | experienced => 0.90
  | observed => 0.80
  | told => 0.60
  | read => 0.50
  | inferred => 0.40
  end.

(** The filters of step 4 of [recall] on one result. *)
Definition passes_filters (query : RecallQuery) (r : RecallResult) : Prop :=
  orElse (minConfidence query) 0.3 <= score (confidence (memory r)) /\
  (orElse (includeDecayed query) false = false ->
   orElse (minRelevance query) 0.1 <= relevance_score (memory r)) /\
  0.15 <= finalScore r.

(** A score with two decimal places in the unit interval. *)
Definition two_decimals (x : R) : Prop :=
  exists n : Z, (0 <= n <= 100)%Z /\ x = IZR n / 100.

(** ** Auxiliary notions for the properties *)

(** The primary key of the table [memories]. *)
Definition wf_db (db : Db) : Prop := NoDup (map id (tbl_memories db)).

(** What one decay sweep does to a row. *)
Definition decay_row (now : Z) (r : Row) : Row :=
  if pinned r then r else set_relevance (clamped now r) r.


(** A row without its access tracking. *)
Definition forget_access (r : Row) : Row :=
  mkRow (id r) (content r) (summary r) (attribution r) (confidence r)
        (category r) (tags r) (created r) (updated r)
        0%Z 0%nat
        (decay_rate r) (relevance_score r) (pinned r) (embedding r).

(** A pinned row has full relevance. *)
Definition pinned_full (r : Row) : Prop :=
  pinned r = true -> relevance_score r = 1.

(** Two databases whose rows agree on a view, row by row. *)
Definition same_view {V : Type} (view : Row -> V) (db db' : Db) : Prop :=
  map view (tbl_memories db') = map view (tbl_memories db).

(** The invariant of the decay engine: the primary key, and full relevance
    of every pinned row. *)
Definition decay_inv (db : Db) : Prop :=
  wf_db db /\ Forall pinned_full (tbl_memories db).

(** An entity with [k] more linked memories. *)
Definition add_count (k : nat) (e : Entity) : Entity :=
  mkEntity (e_id e) (name e) (e_type e) (description e) (aliases e)
           (metadata e) (e_created e) (e_updated e) (memory_count e + k).

(** What the whole loop of [linkEntities] writes. *)
Definition linked_all (now : Z) (memoryId : string) (entityIds : list string) (db : Db)
  : Db :=
  fold_left (linked now memoryId) entityIds db.

(** What the body of the inner loop of [findContradictions] appends to the
    result for the pair (a, b). *)
Definition contradiction_of (a b : Memory) : list ContradictionResult :=
  if Nat.eqb (List.length (filter (fun e => existsb (String.eqb e) (entities b))
                                  (entities a))) 0
  then []
  else if negb (MemoryCategory_eqb (category a) (category b)) then []
  else match detectContradiction a b with
       | Some why =>
           [mkContradictionResult (brief a) (brief b)
              (contentSimilarity (content a) (content b)) why]
       | None => []
       end.

(** A candidate of [verifyMemory] that supports the fact [ident]: another
    fact whose content is more than 0.4 similar. *)
Definition supports (ident : string) (memory rel : Memory) : bool :=
  negb (String.eqb (id rel) ident) &&
  Rltb 0.4 (contentSimilarity (content memory) (content rel)).

(** The database after a successful [createMemory]. *)
Definition after_create (db : Db) (now : Z) (ident : string) (input : CreateMemoryInput)
  : Db :=
  match createMemory db now ident input with
  | Some (_, db') => db'
  | None => db
  end.

(** ** Sample data for the concrete runs *)

Definition day : Z := 86400000.

Definition deploy_input : CreateMemoryInput :=
  mkCreateMemoryInput "Deploys run on Fridays" None experienced None None
                      None None fact None None.

Definition pin_update : MemoryUpdates :=
  mkMemoryUpdates None None None None (Some true) None.

(** A fact is created at time 0, swept after a hundred days, then pinned. *)
Definition db_created : Db := after_create empty_db 0 "m1" deploy_input.

Definition db_swept : Db := d_db (applyDecay db_created (100 * day)).


(** The row of the fact of [db_created]. *)
Definition deploy_row : Row :=
  mkRow "m1" "Deploys run on Fridays" None
        (mkAttribution experienced None None 0 None)
        (computeInitialConfidence deploy_input)
        fact [] 0 0 0 0 (CATEGORY_DEFAULT_DECAY fact) 1 false None.





(** Two facts of the same category, created together; one of them is read
    twenty times, and both are swept after fifteen idle days. *)
Definition event_input (text : string) : CreateMemoryInput :=
  mkCreateMemoryInput text None experienced None None None None event None None.

Definition event_row (ident text : string) (count : nat) : Row :=
  mkRow ident text None
        (mkAttribution experienced None None 0 None)
        (computeInitialConfidence (event_input text))
        event [] 0 0 0 count (CATEGORY_DEFAULT_DECAY event) 1 false None.

Definition db_two : Db :=
  after_create
    (after_create empty_db 0 "frequent" (event_input "Frequently accessed"))
    0 "rare" (event_input "Rarely accessed").

Definition db_accessed : Db :=
  Nat.iter 20 (fun db => snd (getMemory db 0 "frequent")) db_two.

Definition db_two_swept : Db := d_db (applyDecay db_accessed (15 * day)).

(** The fact of [db_swept] is read at the time of the sweep and swept
    again. *)
Definition db_touched : Db := snd (getMemory db_swept (100 * day) "m1").

Definition db_reswept : Db := d_db (applyDecay db_touched (100 * day)).

Definition swept_row : Row :=
  set_relevance (clamped (100 * day) deploy_row) deploy_row.

(** A fact about an entity that the registry does not know. *)
Definition new_entity_input : CreateMemoryInput :=
  mkCreateMemoryInput "About a new entity" None experienced None None
                      (Some ["new-entity"]) None fact None None.

(** Three facts about one service in one category: the newest says that it
    is enabled, the two older ones that it is disabled. *)
Definition service_input (text : string) : CreateMemoryInput :=
  mkCreateMemoryInput text None experienced None None (Some ["service"]) None
                      fact None None.

Definition db_conflict : Db :=
  after_create
    (after_create
       (after_create empty_db 1 "b" (service_input "The service is disabled always"))
       2 "c" (service_input "The service is disabled always"))
    3 "a" (service_input "The service is enabled always").

Definition service_memory (ident text : string) (t : Z) : Memory :=
  mkMemory
    (mkRow ident text None (mkAttribution experienced None None t None)
       (computeInitialConfidence (service_input text)) fact [] t t t 0
       (CATEGORY_DEFAULT_DECAY fact) 1 false None)
    ["service"].

Definition enabled_memory : Memory :=
  service_memory "a" "The service is enabled always" 3.

Definition disabled_memory (ident : string) (t : Z) : Memory :=
  service_memory ident "The service is disabled always" t.

(** A fact read on a message board, with a summary; its content does not
    hold the word that its summary holds. *)
Definition rufio_input : CreateMemoryInput :=
  mkCreateMemoryInput "Rufio found a stealer on ClawdHub" (Some "credential stealer")
                      inferred None None None None event None None.

Definition db_rufio : Db := after_create empty_db 0 "m1" rufio_input.

Definition rufio_memory : Memory :=
  mkMemory
    (mkRow "m1" "Rufio found a stealer on ClawdHub" (Some "credential stealer")
       (mkAttribution inferred None None 0 None)
       (computeInitialConfidence rufio_input) event [] 0 0 0 0
       (CATEGORY_DEFAULT_DECAY event) 1 false None)
    [].

Definition plain_query (text : string) : RecallQuery :=
  mkRecallQuery text None None None None None None None None.

(** The fact of [db_created] as a candidate of the query "deploys". *)
Definition deploy_memory : Memory := mkMemory deploy_row [].

Definition deploy_candidate : string * (Memory * Scores) :=
  ("m1", (deploy_memory, mkScores (textMatchScore "deploys" deploy_memory) 0 0)).

Definition deploy_result : RecallResult :=
  mkRecallResult deploy_memory
    (computeMatchScore (mkScores (textMatchScore "deploys" deploy_memory) 0 0))
    (computeMatchScore (mkScores (textMatchScore "deploys" deploy_memory) 0 0) *
     score (confidence deploy_memory) * relevance_score deploy_memory * 1).

(** The same fact with a stored embedding, as the indexing command of the
    command line leaves it, and a provider that embeds every text as the
    same vector. *)
Definition indexed_row : Row :=
  mkRow "m1" "Deploys run on Fridays" None
        (mkAttribution experienced None None 0 None)
        (computeInitialConfidence deploy_input)
        fact [] 0 0 0 0 (CATEGORY_DEFAULT_DECAY fact) 1 false (Some [1]).

Definition db_indexed : Db := mkDb [indexed_row] [] [].

Definition unit_embedder : EmbeddingProvider := fun _ => [1].

(** The database of the three facts about the service once the newest has
    been read at time 5. *)
Definition db_conflict_read : Db := snd (getMemory db_conflict 5 "a").

Definition enabled_memory_read : Memory :=
  mkMemory (set_access 5 enabled_memory) ["service"].

(** ** Further notions for the properties of the code *)



(** The order of [ORDER BY relevance_score DESC, created DESC]. *)
Definition ranked_before (x y : Row) : Prop :=
  relevance_score y < relevance_score x \/
  (relevance_score x = relevance_score y /\ (created y <= created x)%Z).

(** The order of [ORDER BY created DESC]. *)
Definition newer_before (x y : Row) : Prop := (created y <= created x)%Z.

(** The order of the results of a recall. *)
Definition scored_before (a b : RecallResult) : Prop := finalScore b <= finalScore a.

(** What a read query of the store promises for its result [res]: the order
    [ord] of its [ORDER BY], the bound of its [LIMIT], the condition [cond]
    of its [WHERE] on rows of the table, every fact at most once, and every
    qualifying row when the limit is negative or not below the number of
    qualifying rows. *)
Definition query_result (db : Db) (ord : Row -> Row -> Prop) (cond : Row -> bool)
  (limit : Z) (res : list Memory) : Prop :=
  StronglySorted (fun a b : Memory => ord a b) res /\
  ((0 <= limit)%Z -> (Z.of_nat (List.length res) <= limit)%Z) /\
  (forall m, In m res ->
     exists r, In r (tbl_memories db) /\ cond r = true /\ m = rowToMemory db r) /\
  (wf_db db -> NoDup (map (fun m : Memory => id m) res)) /\
  (forall r, In r (tbl_memories db) -> cond r = true ->
     (limit < 0 \/ Z.of_nat (List.length (filter cond (tbl_memories db))) <= limit)%Z ->
     In (rowToMemory db r) res).

(** The terms of a query that [textMatchScore] counts. *)
Definition query_terms (query : string) : list string :=
  filter (fun t => (2 <? String.length t)%nat) (split_ws (toLowerCase query)).


(** A candidate map holds every key once, and every candidate under the
    identifier of its fact. *)
Definition cm_ok (m : CandidateMap) : Prop :=
  NoDup (map fst m) /\
  Forall (fun e : string * (Memory * Scores) => fst e = id (fst (snd e))) m.

(** The identifier of the fact of a result. *)
Definition result_id (r : RecallResult) : string := id (memory r).

(** The channel scores of a candidate: the text score and the entity score
    lie in the unit interval and the semantic score is not negative; without
    an embedding provider ([lexical]) the semantic score is 0. *)
Definition scores_ok (lexical : bool) (s : Scores) : Prop :=
  0 <= s_text s <= 1 /\
  (if lexical then s_semantic s = 0 else 0 <= s_semantic s) /\
  0 <= s_entity s <= 1.

Definition cm_scored (lexical : bool) (m : CandidateMap) : Prop :=
  Forall (fun e : string * (Memory * Scores) => scores_ok lexical (snd (snd e))) m.

(** The word set that [contentSimilarity] compares: the distinct
    lower-cased words of more than three characters. *)
Definition content_words (s : string) : list string :=
  mkSet (filter (fun w => (3 <? String.length w)%nat) (split_ws (toLowerCase s))).

(** A row without its trust record and its time of modification. *)
Definition forget_confidence (r : Row) : Row :=
  mkRow (id r) (content r) (summary r) (attribution r) (mkConfidence 0 [] None 0 0)
        (category r) (tags r) (created r) 0%Z
        (last_accessed r) (access_count r)
        (decay_rate r) (relevance_score r) (pinned r) (embedding r).

(** Two databases with the same entities and the same links. *)
Definition same_tables (db db' : Db) : Prop :=
  tbl_entities db' = tbl_entities db /\
  tbl_memory_entities db' = tbl_memory_entities db.

(** What a result of [checkCorroboration] says: which related fact was
    raised, from which score, and within which bounds. *)
Definition corroborated (newMemory : Memory) (related : list Memory)
  (res : CorroborationResult) : Prop :=
  memoryId res <> id newMemory /\
  cr_newConfidence res <= 1 /\
  cr_newConfidence res <= oldConfidence res + 0.15 /\
  (oldConfidence res <= 1 -> oldConfidence res <= cr_newConfidence res) /\
  exists existing : Memory,
    In existing related /\
    memoryId res = id existing /\
    oldConfidence res = score (confidence existing) /\
    isIndependentSource newMemory existing = true /\
    0.5 < contentSimilarity (content newMemory) (content existing).

(** What a result of [findContradictions] says: two of the scanned facts
    share an entity and the category, and the negation test gives the
    reason. *)
Definition contradicts (mems : list Memory) (c : ContradictionResult) : Prop :=
  exists a b : Memory,
    In a mems /\ In b mems /\
    memoryA c = brief a /\ memoryB c = brief b /\
    category a = category b /\
    (exists e, In e (entities a) /\ In e (entities b)) /\
    detectContradiction a b = Some (reason c) /\
    similarity c = contentSimilarity (content a) (content b).

(** The trust record that [findContradictions] writes for a fact that it
    found in contradiction with the fact [other]. *)
Definition flag (c : Confidence) (other : string) : Confidence :=
  mkConfidence (score c)
    (basis c ++ [String.append "⚠️ Potential contradiction with memory "
                   (str_slice0 8 other)])
    (lastVerified c) (corroborations c) (contradictions c + 1).

(** A row as one scan for contradictions leaves it: untouched, or flagged
    once. *)
Definition flagged (r r' : Row) : Prop :=
  r' = r \/ exists now other, r' = set_confidence (flag (confidence r) other) now r.

(** [SELECT COUNT( * ) FROM memory_entities WHERE entity_id = ?]: the facts
    linked to an entity. *)
Definition link_count (db : Db) (entityId : string) : nat :=
  List.length (filter (fun l => String.eqb (snd l) entityId) (tbl_memory_entities db)).

(** The integrity of the three tables: the primary keys, the foreign keys of
    the links, and the counter of an entity as an upper bound of its
    links. *)
Definition integrity (db : Db) : Prop :=
  NoDup (map id (tbl_memories db)) /\
  NoDup (map e_id (tbl_entities db)) /\
  NoDup (tbl_memory_entities db) /\
  (forall l, In l (tbl_memory_entities db) ->
     In (fst l) (map id (tbl_memories db)) /\
     In (snd l) (map e_id (tbl_entities db))) /\
  (forall e, In e (tbl_entities db) -> (link_count db (e_id e) <= memory_count e)%nat).

(** A row whose trust score and relevance lie in the unit interval. *)
Definition in_range (r : Row) : Prop :=
  0 <= score (confidence r) <= 1 /\ 0 <= relevance_score r <= 1.

Definition scores_in_range (db : Db) : Prop := Forall in_range (tbl_memories db).

(** One call of a public method of the store, the recall engine or the
    corroboration engine; the raw write [updateConfidence] of the
    corroboration engine is private. *)
Inductive api_step : Db -> Db -> Prop :=
  | api_createMemory : forall db now ident input m db',
      createMemory db now ident input = Some (m, db') -> api_step db db'
  | api_createEntity : forall db now ident nm ty descr als,
      api_step db (snd (createEntity db now ident nm ty descr als))
  | api_getMemory : forall db now ident,
      api_step db (snd (getMemory db now ident))
  | api_updateMemory : forall db now ident u,
      api_step db (snd (updateMemory db now ident u))
  | api_deleteMemory : forall db ident,
      api_step db (snd (deleteMemory db ident))
  | api_applyDecay : forall db now,
      api_step db (d_db (applyDecay db now))
  | api_checkCorroboration : forall db now (m : Memory),
      api_step db (snd (checkCorroboration db now m))
  | api_findContradictions : forall db now limit,
      api_step db (snd (findContradictions db now limit))
  | api_verifyMemory : forall db now ident,
      api_step db (snd (verifyMemory db now ident))
  | api_recall : forall db embedder now query,
      api_step db (snd (recall db embedder now query)).

Inductive api_reachable : Db -> Prop :=
  | api_init : api_reachable empty_db
  | api_next : forall db db', api_reachable db -> api_step db db' -> api_reachable db'.

(** ** entities.ts: the entity manager *)

Record EntityDefinition : Type := mkEntityDefinition {
  d_id : string;
  d_name : string;
  d_type : EntityType;
  d_description : option string;
  d_aliases : option (list string)
}.

Definition KNOWN_ENTITIES : list EntityDefinition :=
  [ mkEntityDefinition "shaun" "Shaun" person
      (Some "My human. Brisbane, GMT+10. @oscarmiike on Telegram.")
      (Some ["@oscarmiike"; "my human"]);
    mkEntityDefinition "mantis" "Mantis" agent
      (Some "My peer agent. Gemini 3 Pro. Precision, clarity, structure.")
      (Some ["🦐"; "friend agent"]);
    mkEntityDefinition "clawdia" "Clawdia" agent
      (Some "Me. Claude Opus. Born 2026-01-31.")
      (Some ["me"; "paw"; "🐾"]);
    mkEntityDefinition "moonshot" "Moonshot" project
      (Some "Crypto funding rate arbitrage system. Repo: super-eureka.")
      (Some ["super-eureka"; "arb system"; "night watchman"]);
    mkEntityDefinition "molt-report" "The Molt Report" project
      (Some "AI agent ecosystem blog. Astro site.")
      (Some ["themoltreport"; "blog"; "molt report"]);
    mkEntityDefinition "moltbook" "Moltbook" organization
      (Some "Social platform for AI agents.")
      (Some ["moltbook.com"]);
    mkEntityDefinition "openclaw" "OpenClaw" project
      (Some "The platform I run on. Agent runtime.")
      (Some ["gateway"]);
    mkEntityDefinition "agentmail" "AgentMail" organization
      (Some "Email service for agents.")
      (Some ["agentmail.to"]);
    mkEntityDefinition "clawdhub" "ClawdHub" organization
      (Some "Skill marketplace for agents.")
      (Some ["clawdhub.com"; "skill hub"]);
    mkEntityDefinition "rufio" "Rufio" person
      (Some "Agent who found credential stealer on ClawdHub. Read about on Moltbook.")
      (Some []);
    mkEntityDefinition "agent-memory" "Agent Memory" project
      (Some "This project. Better memory for agents.")
      (Some ["memory project"; "memory system"]) ].

(** [aliasMap.set(k, v)] on the [Map] from aliases to entity identifiers: a
    present key keeps its place and takes the new value. *)
Definition alias_set (k v : string) (m : list (string * string)) : list (string * string) :=
  if existsb (fun e => String.eqb (fst e) k) m
  then map (fun e => if String.eqb (fst e) k then (k, v) else e) m
  else m ++ [(k, v)].

(** The body of the loop of [buildAliasMap] for one definition. *)
Definition alias_entries (m : list (string * string)) (def : EntityDefinition)
  : list (string * string) :=
  fold_left
    (fun m alias => alias_set (toLowerCase alias) (d_id def) m)
    (orElse (d_aliases def) [])
    (alias_set (toLowerCase (d_name def)) (d_id def)
       (alias_set (d_id def) (d_id def) m)).

(** [buildAliasMap], run by the constructor on the empty map. *)
Definition buildAliasMap : list (string * string) :=
  fold_left alias_entries KNOWN_ENTITIES [].

(** One turn of the loop of [seedEntities]; [now] gives the time of the
    creation of each entity. *)
Definition seed_step (now : string -> Z) (st : nat * Db) (def : EntityDefinition)
  : nat * Db :=
  match getEntity (snd st) (d_id def) with
  | Some _ => st
  | None =>
      (S (fst st),
       snd (createEntity (snd st) (now (d_id def)) (d_id def) (d_name def) (d_type def)
              (d_description def) (d_aliases def)))
  end.

(** The loop of [seedEntities] over a list of definitions. *)
Definition seed_all (defs : list EntityDefinition) (db : Db) (now : string -> Z)
  : nat * Db :=
  fold_left (seed_step now) defs (0%nat, db).

Definition seedEntities (db : Db) (now : string -> Z) : nat * Db :=
  seed_all KNOWN_ENTITIES db now.

Definition extractEntities (text : string) : list string :=
  let lower := toLowerCase text in
  mkSet (map snd (filter (fun e => includes lower (fst e)) buildAliasMap)).

Definition resolve (db : Db) (ref : string) : option string :=
  let lower := toLowerCase ref in
  match getEntity db lower with
  | Some direct => Some (e_id direct)
  | None => option_map snd (find (fun e => String.eqb (fst e) lower) buildAliasMap)
  end.

(** The names under which a definition enters the alias map. *)
Definition alias_keys (def : EntityDefinition) : list string :=
  d_id def :: toLowerCase (d_name def) :: map toLowerCase (orElse (d_aliases def) []).

(** A definition whose entity the store does not hold. *)
Definition unknown_in (db : Db) (def : EntityDefinition) : bool :=
  match getEntity db (d_id def) with Some _ => false | None => true end.

(** ** reflect.ts: the similarity of the search for duplicates *)

(** The word set that [textSimilarity] compares: the distinct lower-cased
    pieces between runs of white space. *)
Definition text_words (s : string) : list string := mkSet (split_ws (toLowerCase s)).

Definition textSimilarity (a b : string) : R :=
  let setA := mkSet (split_ws (toLowerCase a)) in
  let setB := mkSet (split_ws (toLowerCase b)) in
  let intersection :=
    List.length (filter (fun word => existsb (String.eqb word) setB) setA) in
  let union := (List.length setA + List.length setB - intersection)%nat in
  if Nat.eqb union 0 then 0 else INR intersection / INR union.

(** The entities linked to a fact in the order in which the links were
    stored. *)
Definition stored_links (db : Db) (memoryId : string) : list string :=
  map snd (filter (fun l => String.eqb (fst l) memoryId) (tbl_memory_entities db)).

(** An identifier that the index of the links does not put behind
    another. *)
Definition id_le (x y : string) : Prop := String.leb x y = true.

(** The entity that [seedEntities] creates for a definition. *)
Definition entity_of (now : string -> Z) (def : EntityDefinition) : Entity :=
  mkEntity (d_id def) (d_name def) (d_type def) (d_description def)
           (orElse (d_aliases def) []) [] (now (d_id def)) (now (d_id def)) 0.



(** The result that [quickRecall] makes of a hit of the text search. *)
Definition quick_result (text : string) (memory : Memory) : RecallResult :=
  mkRecallResult memory (textMatchScore text memory)
    (textMatchScore text memory * score (confidence memory) * relevance_score memory).

(** A fact that the semantic channel of [recall] finds among the stored
    embeddings [es]: one of its embeddings is more than 0.5 similar to that
    of the query. *)
Definition semantic_hit (q : list R) (es : list (string * list R)) (ident : string) : bool :=
  existsb (fun e => String.eqb (fst e) ident && Rltb 0.5 (cosineSimilarity q (snd e))) es.

(** The candidates that the text search, the entity filter and the
    category filter of [recall] gather, before the semantic search. *)
Definition other_candidates (db : Db) (query : RecallQuery) : CandidateMap :=
  gather_categories db (q_categories query) (orElse (q_limit query) 10%Z)
    (gather_entities db (q_entities query) (orElse (q_limit query) 10%Z)
       (gather_text db (q_text query) (orElse (q_limit query) 10%Z))).

(** A fact that only the semantic channel finds. *)
Definition semantic_only (db : Db) (embed : EmbeddingProvider) (query : RecallQuery)
  (r : Row) : bool :=
  semantic_hit (embed (q_text query)) (getAllEmbeddings db) (id r) &&
  negb (map_has (id r) (other_candidates db query)).

(** A row after one read through [getMemory] at the time [now]. *)
Definition stamped (now : Z) (r r' : Row) : Prop :=
  last_accessed r' = now /\
  access_count r' = S (access_count r) /\
  forget_access r' = forget_access r.

(** A fact with the identifier is stored. *)
Definition stored (rows : list Row) (ident : string) : bool :=
  existsb (fun r => String.eqb (id r) ident) rows.

(** The rows after the semantic search over the embeddings [done], from the
    candidates [m0] and the rows [rows0]: a row is read once, when its
    identifier is a semantic hit and no candidate yet. *)
Definition stamp_rows (now : Z) (q : list R) (m0 : CandidateMap)
  (done : list (string * list R)) (r : Row) : Row :=
  if semantic_hit q done (id r) && negb (map_has (id r) m0) then set_access now r else r.


(* ================================================================== *)
(** * Part II. Properties                                              *)
(* ================================================================== *)

(** ** The primitives on small inputs *)

Example split_ws_runs : split_ws " a  b " = [""; "a"; "b"; ""].
Proof. reflexivity. Qed.

Example split_ws_empty : split_ws "" = [""].
Proof. reflexivity. Qed.

Example toLowerCase_ascii : toLowerCase "AgentMail API v2" = "agentmail api v2".
Proof. reflexivity. Qed.

Example includes_inside : includes "the service is disabled" "is" = true.
Proof. reflexivity. Qed.

Example includes_not : includes "disabled" "enabled" = false.
Proof. reflexivity. Qed.

Example like_substring :
  like_contains "fox jumped" (Some "The quick brown fox jumped over the lazy dog") = true.
Proof. reflexivity. Qed.

Example like_without_case : like_contains "agentmail" (Some "AgentMail uses flat format") = true.
Proof. reflexivity. Qed.

Example like_wildcard : like_contains "f_x" (Some "a fox") = true.
Proof. reflexivity. Qed.

Example like_null : like_contains "fox" None = false.
Proof. reflexivity. Qed.

Example like_miss : like_contains "credential" (Some "Rufio found a stealer") = false.
Proof. reflexivity. Qed.

Example mkSet_first_wins : mkSet ["b"; "a"; "b"] = ["b"; "a"].
Proof. reflexivity. Qed.

Example slice0_negative : slice0 (-1) [1%nat; 2%nat; 3%nat] = [1%nat; 2%nat].
Proof. reflexivity. Qed.

Example sql_limit_negative : sql_limit (-1) [1%nat; 2%nat; 3%nat] = [1%nat; 2%nat; 3%nat].
Proof. reflexivity. Qed.

Example string_of_Z_55 : string_of_Z 55 = "55".
Proof. reflexivity. Qed.

Example base_string_told : SOURCE_BASE_CONFIDENCE_string told = "0.6".
Proof. reflexivity. Qed.

Example stable_sort_keeps_ties :
  stable_sort (fun x y : nat * string => Nat.leb (fst y) (fst x))
              [(1%nat, "a"); (2%nat, "b"); (1%nat, "c"); (2%nat, "d")] =
  [(2%nat, "b"); (2%nat, "d"); (1%nat, "a"); (1%nat, "c")].
Proof. reflexivity. Qed.

(** ** Numbers *)

Lemma Rltb_true : forall x y, x < y -> Rltb x y = true.
Proof. intros x y H. unfold Rltb. destruct (Rlt_dec x y); [reflexivity | contradiction]. Qed.

Lemma Rltb_false : forall x y, y <= x -> Rltb x y = false.
Proof. intros x y H. unfold Rltb. destruct (Rlt_dec x y); [lra | reflexivity]. Qed.

Lemma Rleb_true : forall x y, x <= y -> Rleb x y = true.
Proof. intros x y H. unfold Rleb. destruct (Rle_dec x y); [reflexivity | contradiction]. Qed.

Lemma Rleb_false : forall x y, y < x -> Rleb x y = false.
Proof. intros x y H. unfold Rleb. destruct (Rle_dec x y); [lra | reflexivity]. Qed.

Lemma Rltb_spec : forall x y, Rltb x y = true <-> x < y.
Proof.
  intros x y. unfold Rltb. destruct (Rlt_dec x y); split; intro H;
    try reflexivity; try assumption; try discriminate; contradiction.
Qed.

Lemma Rleb_spec : forall x y, Rleb x y = true <-> x <= y.
Proof.
  intros x y. unfold Rleb. destruct (Rle_dec x y); split; intro H;
    try reflexivity; try assumption; try discriminate; contradiction.
Qed.

Lemma Reqb_true : forall x y, x = y -> Reqb x y = true.
Proof. intros x y H. unfold Reqb. destruct (Req_dec_T x y); [reflexivity | contradiction]. Qed.

Lemma Reqb_false : forall x y, x <> y -> Reqb x y = false.
Proof. intros x y H. unfold Reqb. destruct (Req_dec_T x y); [contradiction | reflexivity]. Qed.

Lemma Reqb_spec : forall x y, Reqb x y = true <-> x = y.
Proof.
  intros x y. unfold Reqb. destruct (Req_dec_T x y); split; intro H;
    try reflexivity; try assumption; try discriminate; contradiction.
Qed.

(** [Math.round] leaves an integer as it is. *)
Lemma Math_round_IZR : forall n : Z, Math_round (IZR n) = IZR n.
Proof.
  intro n. unfold Math_round, Math_round_Z. f_equal.
  apply Zfloor_eq. lra.
Qed.

Lemma Math_round_eq : forall (n : Z) (x : R), x = IZR n -> Math_round x = IZR n.
Proof. intros n x ->. apply Math_round_IZR. Qed.

Lemma Rmin_1_le : forall x, x <= 1 -> Rmin 1 x = x.
Proof. intros x H. unfold Rmin. destruct (Rle_dec 1 x); lra. Qed.

(** ** The confidence model *)

Lemma SOURCE_BASE_CONFIDENCE_table : forall t, SOURCE_BASE_CONFIDENCE t = spec_base t.
Proof. intros []; unfold SOURCE_BASE_CONFIDENCE, spec_base; simpl; lra. Qed.

Lemma initial_score_value : forall input,
  score (computeInitialConfidence input) =
  spec_base (in_type input) + (if truthy (in_context input) then 0.05 else 0).
Proof.
  intro input. unfold computeInitialConfidence. cbn [score].
  rewrite SOURCE_BASE_CONFIDENCE_table.
  destruct (in_type input), (truthy (in_context input)); unfold spec_base.
  - rewrite (@Math_round_eq 95) by lra. rewrite Rmin_1_le; lra.
  - rewrite (@Math_round_eq 90) by lra. rewrite Rmin_1_le; lra.
  - rewrite (@Math_round_eq 65) by lra. rewrite Rmin_1_le; lra.
  - rewrite (@Math_round_eq 60) by lra. rewrite Rmin_1_le; lra.
  - rewrite (@Math_round_eq 55) by lra. rewrite Rmin_1_le; lra.
  - rewrite (@Math_round_eq 50) by lra. rewrite Rmin_1_le; lra.
  - rewrite (@Math_round_eq 45) by lra. rewrite Rmin_1_le; lra.
  - rewrite (@Math_round_eq 40) by lra. rewrite Rmin_1_le; lra.
  - rewrite (@Math_round_eq 85) by lra. rewrite Rmin_1_le; lra.
  - rewrite (@Math_round_eq 80) by lra. rewrite Rmin_1_le; lra.
Qed.

(** C7. For every provenance kind and context flag, the initial trust score
    is the fixed base of the table (Experienced 0.90, Observed 0.80, Told
    0.60, Read 0.50, Inferred 0.40) plus a flat 0.05 when a learning
    context is present, capped at 1.0 and rounded to two decimal places; the
    rationale entry "has source context" is appended exactly in that case. *)
Theorem initial_trust_table : forall input : CreateMemoryInput,
  let c := computeInitialConfidence input in
  let bonus := if truthy (in_context input) then 0.05 else 0 in
  score c = Rmin 1 (Math_round ((spec_base (in_type input) + bonus) * 100) / 100) /\
  score c = spec_base (in_type input) + bonus /\
  (truthy (in_context input) = true ->
   exists before, basis c = before ++ ["has source context"]) /\
  (truthy (in_context input) = false -> ~ In "has source context" (basis c)).
Proof.
  intro input. cbv zeta. split; [| split; [| split]].
  - unfold computeInitialConfidence. cbn [score].
    rewrite SOURCE_BASE_CONFIDENCE_table.
    destruct (truthy (in_context input)); [reflexivity |].
    rewrite Rplus_0_r. reflexivity.
  - apply initial_score_value.
  - intro Hc. unfold computeInitialConfidence. cbn [basis]. rewrite Hc.
    eexists. reflexivity.
  - intro Hc. unfold computeInitialConfidence. cbn [basis]. rewrite Hc.
    destruct (truthy (in_actor input)).
    + intro Hin. apply in_app_or in Hin. destruct Hin as [Hin | Hin].
      * destruct Hin as [Heq | []]. destruct (in_type input); vm_compute in Heq; discriminate.
      * destruct Hin as [Heq | []]. simpl in Heq. discriminate.
    + intros [Heq | []]. destruct (in_type input); vm_compute in Heq; discriminate.
Qed.

(** ** The store: rows and views *)

Lemma set_relevance_same : forall r, set_relevance (relevance_score r) r = r.
Proof. intros []; reflexivity. Qed.

Lemma update_rows_ids : forall ident f rows,
  (forall r, id (f r) = id r) ->
  map id (update_rows ident f rows) = map id rows.
Proof.
  intros ident f rows Hf. unfold update_rows. rewrite map_map.
  apply map_ext. intro r. destruct (String.eqb (id r) ident); auto.
Qed.

Lemma update_rows_absent : forall ident f rows,
  ~ In ident (map id rows) -> update_rows ident f rows = rows.
Proof.
  intros ident f rows. induction rows as [| r rows IH]; intro Hn; [reflexivity |].
  simpl in *. destruct (String.eqb_spec (id r) ident) as [He | He].
  - exfalso. apply Hn. left. exact He.
  - f_equal. apply IH. intro Hin. apply Hn. right. exact Hin.
Qed.

Lemma update_rows_Forall : forall (P : Row -> Prop) ident f rows,
  (forall r, P r -> P (f r)) ->
  Forall P rows -> Forall P (update_rows ident f rows).
Proof.
  intros P ident f rows Hf HP. unfold update_rows.
  apply Forall_map. eapply Forall_impl; [| exact HP].
  intros r Hr. destruct (String.eqb (id r) ident); auto.
Qed.

Lemma getRow_In : forall db ident r,
  getRow db ident = Some r -> In r (tbl_memories db) /\ id r = ident.
Proof.
  intros db ident r H. unfold getRow in H. apply find_some in H.
  destruct H as [Hin He]. split; [exact Hin |]. apply String.eqb_eq. exact He.
Qed.

Lemma getRow_None : forall db ident,
  getRow db ident = None -> ~ In ident (map id (tbl_memories db)).
Proof.
  intros db ident H Hin. unfold getRow in H.
  apply in_map_iff in Hin. destruct Hin as [r [He Hr]].
  apply (find_none _ _ H) in Hr. subst ident.
  rewrite String.eqb_refl in Hr. discriminate.
Qed.

Lemma find_unique_id : forall rows r,
  NoDup (map id rows) -> In r rows ->
  find (fun x => String.eqb (id x) (id r)) rows = Some r.
Proof.
  induction rows as [| x rows IH]; intros r Hnd Hin; [destruct Hin |].
  simpl in *. inversion Hnd as [| ? ? Hx Hnd']; subst.
  destruct Hin as [-> | Hin].
  - rewrite String.eqb_refl. reflexivity.
  - destruct (String.eqb_spec (id x) (id r)) as [He | He].
    + exfalso. apply Hx. rewrite He. apply in_map. exact Hin.
    + apply IH; assumption.
Qed.

Lemma getRow_unique : forall db r,
  wf_db db -> In r (tbl_memories db) -> getRow db (id r) = Some r.
Proof. intros db r Hwf Hin. apply find_unique_id; assumption. Qed.

(** A view of the rows that some of the updates leave alone. *)
Section Views.

Variable V : Type.
Variable view : Row -> V.

Lemma same_view_refl : forall db, same_view view db db.
Proof. intro db. reflexivity. Qed.

Lemma same_view_trans : forall a b c, same_view view a b -> same_view view b c -> same_view view a c.
Proof. unfold same_view. intros a b c H1 H2. congruence. Qed.

Lemma update_rows_view : forall ident f rows,
  (forall r, view (f r) = view r) ->
  map view (update_rows ident f rows) = map view rows.
Proof.
  intros ident f rows Hf. unfold update_rows. rewrite map_map.
  apply map_ext. intro r. destruct (String.eqb (id r) ident); auto.
Qed.

Lemma fold_left_same_view :
  forall (A S : Type) (proj : S -> Db) (f : S -> A -> S) (l : list A),
  (forall s a, same_view view (proj s) (proj (f s a))) ->
  forall s, same_view view (proj s) (proj (fold_left f l s)).
Proof.
  intros A S proj f l Hf. induction l as [| a l IH]; intro s; simpl.
  - apply same_view_refl.
  - eapply same_view_trans; [apply Hf | apply IH].
Qed.

Hypothesis view_access : forall now r, view (set_access now r) = view r.

Lemma getMemory_view : forall db now ident,
  same_view view db (snd (getMemory db now ident)).
Proof.
  intros db now ident. unfold getMemory.
  destruct (getRow db ident); simpl; [| apply same_view_refl].
  unfold same_view. simpl. apply update_rows_view. apply view_access.
Qed.

Lemma semantic_step_view : forall now q st e,
  same_view view (snd st) (snd (semantic_step now q st e)).
Proof.
  intros now q [m db] e. unfold semantic_step.
  destruct (Rltb 0.5 (cosineSimilarity q (snd e))); [| apply same_view_refl].
  destruct (map_has (fst e) m); [apply same_view_refl |].
  pose proof (getMemory_view db now (fst e)) as H.
  destruct (getMemory db now (fst e)) as [[mem |] db']; exact H.
Qed.

Lemma recall_view : forall db embedder now query,
  same_view view db (snd (recall db embedder now query)).
Proof.
  intros db embedder now query. unfold recall.
  set (m3 := gather_categories _ _ _ _).
  assert (H : same_view view db (snd (gather_semantic db embedder now (q_text query) m3))).
  { unfold gather_semantic. destruct embedder as [embed |]; [| apply same_view_refl].
    apply (fold_left_same_view (@snd CandidateMap Db)
             (semantic_step now (embed (q_text query)))
             (getAllEmbeddings db)
             (semantic_step_view now (embed (q_text query)))
             (m3, db)). }
  destruct (gather_semantic db embedder now (q_text query) m3) as [cm db'].
  exact H.
Qed.

Hypothesis view_confidence : forall c now r, view (set_confidence c now r) = view r.

Lemma updateConfidence_view : forall db now ident c,
  same_view view db (updateConfidence db now ident c).
Proof.
  intros db now ident c. unfold same_view, updateConfidence. simpl.
  apply update_rows_view. intro r. apply view_confidence.
Qed.

Lemma corroborate_step_view : forall now newMemory st existing,
  same_view view (snd st) (snd (corroborate_step now newMemory st existing)).
Proof.
  intros now newMemory [results db] existing. unfold corroborate_step.
  destruct (String.eqb (id existing) (id newMemory)); [apply same_view_refl |].
  destruct (isIndependentSource newMemory existing); [| apply same_view_refl].
  destruct (Rltb 0.5 _); [| apply same_view_refl].
  simpl. apply updateConfidence_view.
Qed.

Lemma checkCorroboration_view : forall db now m,
  same_view view db (snd (checkCorroboration db now m)).
Proof.
  intros db now m. unfold checkCorroboration.
  apply (fold_left_same_view (@snd (list CorroborationResult) Db)
           (corroborate_step now m) (findRelated db m)
           (corroborate_step_view now m) ([], db)).
Qed.

Lemma contradiction_step_view : forall now a st b,
  same_view view (snd st) (snd (contradiction_step now a st b)).
Proof.
  intros now a [found db] b. unfold contradiction_step.
  destruct (Nat.eqb _ 0); [apply same_view_refl |].
  destruct (negb _); [apply same_view_refl |].
  destruct (detectContradiction a b); [| apply same_view_refl].
  simpl. eapply same_view_trans; apply updateConfidence_view.
Qed.

Lemma contradictions_from_view : forall now limit memories st,
  same_view view (snd st) (snd (contradictions_from now limit memories st)).
Proof.
  intros now limit memories. induction memories as [| a rest IH]; intro st; simpl.
  - apply same_view_refl.
  - destruct (Z.of_nat (List.length (fst st)) <? limit)%Z; [| apply same_view_refl].
    eapply same_view_trans; [| apply IH].
    apply (fold_left_same_view (@snd (list ContradictionResult) Db)
             (contradiction_step now a) rest (contradiction_step_view now a) st).
Qed.

Lemma findContradictions_view : forall db now limit,
  same_view view db (snd (findContradictions db now limit)).
Proof.
  intros db now limit. unfold findContradictions.
  apply (contradictions_from_view now limit (getAllMemories db 200) ([], db)).
Qed.

Lemma verifyMemory_view : forall db now ident,
  same_view view db (snd (verifyMemory db now ident)).
Proof.
  intros db now ident. unfold verifyMemory.
  pose proof (getMemory_view db now ident) as H.
  destruct (getMemory db now ident) as [[memory |] db1]; [| exact H].
  destruct (fold_left _ _ _) as [count ev]. simpl in *.
  destruct (0 <? count)%nat; [| exact H].
  eapply same_view_trans; [exact H | apply updateConfidence_view].
Qed.

End Views.

(** ** The decay sweep *)

Lemma NoDup_ids_filter : forall (f : Row -> bool) rows,
  NoDup (map id rows) -> NoDup (map id (filter f rows)).
Proof.
  intros f rows. induction rows as [| r rows IH]; intro Hnd; simpl; [constructor |].
  inversion Hnd as [| ? ? Hr Hnd']; subst.
  destruct (f r); simpl.
  - constructor; [| apply IH; exact Hnd'].
    intro Hin. apply Hr. apply in_map_iff in Hin. destruct Hin as [x [Hx Hin]].
    apply filter_In in Hin. rewrite <- Hx. apply in_map. apply Hin.
  - apply IH. exact Hnd'.
Qed.

Lemma id_injective : forall rows a b,
  NoDup (map id rows) -> In a rows -> In b rows -> id a = id b -> a = b.
Proof.
  intros rows a b Hnd Ha Hb He.
  pose proof (find_unique_id _ _ Hnd Ha) as H1.
  pose proof (find_unique_id _ _ Hnd Hb) as H2.
  rewrite He in H1. congruence.
Qed.

Lemma find_absent_id : forall rows ident,
  ~ In ident (map id rows) ->
  find (fun m => String.eqb (id m) ident) rows = None.
Proof.
  induction rows as [| x rows IH]; intros ident Hn; [reflexivity |].
  simpl in *. destruct (String.eqb_spec (id x) ident) as [He | He].
  - exfalso. apply Hn. left. exact He.
  - apply IH. intro Hin. apply Hn. right. exact Hin.
Qed.

(** One turn of the loop writes the clamped value into the row of [mem]. *)
Lemma decay_step_rows : forall now st mem,
  (forall r, In r (tbl_memories (d_db st)) -> id r = id mem ->
             relevance_score r = relevance_score mem) ->
  tbl_memories (d_db (decay_step now st mem)) =
  update_rows (id mem) (set_relevance (clamped now mem)) (tbl_memories (d_db st)).
Proof.
  intros now st mem Hsame. unfold decay_step.
  destruct (Reqb (clamped now mem) (relevance_score mem)) eqn:He; [| reflexivity].
  apply Reqb_spec in He. unfold update_rows.
  rewrite <- (map_id (tbl_memories (d_db st))) at 1.
  apply map_ext_in. intros r Hr.
  destruct (String.eqb_spec (id r) (id mem)) as [Hid | Hid]; [| reflexivity].
  rewrite He, <- (Hsame r Hr Hid). symmetry. apply set_relevance_same.
Qed.

Lemma decay_step_tables : forall now st mem,
  tbl_entities (d_db (decay_step now st mem)) = tbl_entities (d_db st) /\
  tbl_memory_entities (d_db (decay_step now st mem)) = tbl_memory_entities (d_db st).
Proof.
  intros now st mem. unfold decay_step.
  destruct (Reqb _ _); split; reflexivity.
Qed.

Lemma decay_fold_rows : forall now sel st,
  NoDup (map id sel) ->
  (forall m r, In m sel -> In r (tbl_memories (d_db st)) -> id r = id m ->
               relevance_score r = relevance_score m) ->
  tbl_memories (d_db (fold_left (decay_step now) sel st)) =
  map (fun r => match find (fun m => String.eqb (id m) (id r)) sel with
                | Some m => set_relevance (clamped now m) r
                | None => r
                end) (tbl_memories (d_db st)).
Proof.
  intros now sel. induction sel as [| m sel IH]; intros st Hnd Hsame.
  - simpl. symmetry. apply map_id.
  - inversion Hnd as [| ? ? Hm Hnd']; subst. simpl fold_left.
    assert (Hrows := decay_step_rows now st m
                       (fun r Hr He => Hsame m r (or_introl eq_refl) Hr He)).
    rewrite IH; [| exact Hnd' |].
    + rewrite Hrows. unfold update_rows. rewrite map_map.
      apply map_ext. intro r. simpl find.
      destruct (String.eqb_spec (id r) (id m)) as [He | He].
      * assert (Hidr : id (set_relevance (clamped now m) r) = id r) by reflexivity.
        rewrite Hidr. rewrite find_absent_id by (rewrite He; exact Hm).
        rewrite <- He, String.eqb_refl. reflexivity.
      * destruct (String.eqb_spec (id m) (id r)) as [He' | He']; [congruence |].
        reflexivity.
    + intros m' r' Hm' Hr' He'. rewrite Hrows in Hr'. unfold update_rows in Hr'.
      apply in_map_iff in Hr'. destruct Hr' as [r [Hrr Hr]].
      destruct (String.eqb_spec (id r) (id m)) as [He | He].
      * exfalso. apply Hm. subst r'. simpl in He'. rewrite <- He, He'.
        apply in_map. exact Hm'.
      * subst r'. apply (Hsame m' r (or_intror Hm') Hr He').
Qed.

Lemma decay_fold_tables : forall now sel st,
  tbl_entities (d_db (fold_left (decay_step now) sel st)) = tbl_entities (d_db st) /\
  tbl_memory_entities (d_db (fold_left (decay_step now) sel st)) =
  tbl_memory_entities (d_db st).
Proof.
  intros now sel. induction sel as [| m sel IH]; intro st; simpl; [split; reflexivity |].
  destruct (IH (decay_step now st m)) as [H1 H2].
  destruct (decay_step_tables now st m) as [H3 H4].
  split; congruence.
Qed.

(** On a table with a primary key the sweep is [decay_row] on every row. *)
Lemma applyDecay_rows : forall db now,
  wf_db db ->
  tbl_memories (d_db (applyDecay db now)) = map (decay_row now) (tbl_memories db).
Proof.
  intros db now Hwf. unfold applyDecay.
  rewrite decay_fold_rows.
  - simpl. apply map_ext_in. intros r Hr. unfold decay_row.
    destruct (pinned r) eqn:Hp.
    + rewrite find_absent_id; [reflexivity |].
      intro Hin. apply in_map_iff in Hin. destruct Hin as [m [He Hm]].
      apply filter_In in Hm. destruct Hm as [Hm Hpm].
      assert (m = r) by (apply (id_injective _ _ _ Hwf Hm Hr He)). subst m.
      rewrite Hp in Hpm. discriminate.
    + rewrite find_unique_id; [reflexivity | apply NoDup_ids_filter; exact Hwf |].
      apply filter_In. split; [exact Hr | rewrite Hp; reflexivity].
  - apply NoDup_ids_filter. exact Hwf.
  - simpl. intros m r Hm Hr He. apply filter_In in Hm. destruct Hm as [Hm _].
    f_equal. apply (id_injective _ _ _ Hwf Hr Hm He).
Qed.

Lemma applyDecay_tables : forall db now,
  tbl_entities (d_db (applyDecay db now)) = tbl_entities db /\
  tbl_memory_entities (d_db (applyDecay db now)) = tbl_memory_entities db.
Proof. intros db now. unfold applyDecay. apply decay_fold_tables. Qed.

Lemma applyDecay_wf : forall db now, wf_db db -> wf_db (d_db (applyDecay db now)).
Proof.
  intros db now Hwf. unfold wf_db. rewrite applyDecay_rows by exact Hwf.
  rewrite map_map. erewrite map_ext; [exact Hwf |].
  intro r. unfold decay_row. destruct (pinned r); reflexivity.
Qed.

(** The clamped value lies in the unit interval. *)
Lemma clamped_range : forall now r, 0 <= clamped now r <= 1.
Proof.
  intros now r. unfold clamped. cbv zeta.
  set (x := exp _). split.
  - apply Rmax_l.
  - apply Rmax_lub; [lra | apply Rmin_l].
Qed.

(** The clamp does nothing to an exponential of a non-positive number. *)
Lemma clamp_exp_nonpos : forall x, x <= 0 -> Rmax 0 (Rmin 1 (exp x)) = exp x.
Proof.
  intros x Hx.
  assert (H0 : 0 < exp x) by apply exp_pos.
  assert (H1 : exp x <= 1).
  { destruct Hx as [Hx | ->]; [| rewrite exp_0; lra].
    left. rewrite <- exp_0. apply exp_increasing. exact Hx. }
  rewrite Rmin_right by exact H1. apply Rmax_right. lra.
Qed.

Lemma clamp_monotone : forall x y, x <= y ->
  Rmax 0 (Rmin 1 (exp x)) <= Rmax 0 (Rmin 1 (exp y)).
Proof.
  intros x y Hxy.
  assert (He : exp x <= exp y).
  { destruct Hxy as [Hxy | ->]; [left; apply exp_increasing; exact Hxy | lra]. }
  apply Rle_max_compat_l. apply Rle_min_compat_l. exact He.
Qed.

(** With a non-negative decay rate the clamped value does not grow with time. *)
Lemma clamped_antitone : forall now0 now r,
  (now0 <= now)%Z -> 0 <= decay_rate r -> clamped now r <= clamped now0 r.
Proof.
  intros now0 now r Hn Hd. unfold clamped. cbv zeta.
  apply clamp_monotone.
  assert (Hz : IZR (now0 - last_accessed r) <= IZR (now - last_accessed r)).
  { apply IZR_le. lia. }
  assert (Hday : 0 < ONE_DAY) by (unfold ONE_DAY; lra).
  assert (Hq : IZR (now0 - last_accessed r) / ONE_DAY <=
               IZR (now - last_accessed r) / ONE_DAY).
  { unfold Rdiv. apply Rmult_le_compat_r; [left; apply Rinv_0_lt_compat; exact Hday | exact Hz]. }
  nra.
Qed.

(** ** The operations of the store on the table of memories *)

Lemma linked_all_memories : forall now memId ids db,
  tbl_memories (linked_all now memId ids db) = tbl_memories db.
Proof.
  intros now memId ids. unfold linked_all.
  induction ids as [| e ids IH]; intro db; simpl; [reflexivity |].
  rewrite IH. reflexivity.
Qed.

Lemma linked_memories : forall now memId db e,
  tbl_memories (linked now memId db e) = tbl_memories db.
Proof. reflexivity. Qed.

(** The foreign keys hold in the loop as soon as the memory is stored: the
    entity is there after the first statement of the turn. *)
Lemma fk_ok_stored : forall now memId db e,
  existsb (fun r => String.eqb (id r) memId) (tbl_memories db) = true ->
  fk_ok now memId db e = true.
Proof.
  intros now memId db e Hm. unfold fk_ok. rewrite Hm. apply orb_true_iff. right.
  rewrite andb_true_l. unfold insert_entity_or_ignore. cbn [e_id auto_entity].
  destruct (existsb (fun x => String.eqb (e_id x) e) (tbl_entities db)) eqn:He;
    [exact He |].
  rewrite existsb_app. simpl. rewrite String.eqb_refl. apply orb_true_iff.
  right. reflexivity.
Qed.

Lemma linkEntities_stored : forall now memId ents db,
  existsb (fun r => String.eqb (id r) memId) (tbl_memories db) = true ->
  linkEntities now memId ents db = Some (linked_all now memId ents db).
Proof.
  intros now memId ents. unfold linkEntities, linked_all.
  induction ents as [| e ents IH]; intros db Hm; [reflexivity |].
  simpl fold_left. unfold linkEntity at 2. rewrite (fk_ok_stored now memId db e Hm).
  apply IH. rewrite linked_memories. exact Hm.
Qed.

(** [createMemory] raises no exception but that of the primary key. *)
Lemma createMemory_fresh : forall db now ident input,
  getRow db ident = None ->
  exists m db',
    createMemory db now ident input = Some (m, db') /\
    entities m = orElse (in_entities input) [] /\
    id m = ident /\ relevance_score m = 1 /\
    pinned m = orElse (in_pinned input) false /\
    tbl_memories db' = tbl_memories db ++ [row m] /\
    db' = (if nonempty (in_entities input)
           then linked_all now ident (orElse (in_entities input) [])
                  (with_memories db (tbl_memories db ++ [row m]))
           else with_memories db (tbl_memories db ++ [row m])).
Proof.
  intros db now ident input Hfresh. unfold createMemory. rewrite Hfresh.
  destruct (nonempty (in_entities input)).
  - rewrite linkEntities_stored.
    + eexists. eexists. split; [reflexivity |]. repeat split.
      rewrite linked_all_memories. reflexivity.
    + cbn [tbl_memories with_memories]. rewrite existsb_app. simpl.
      rewrite String.eqb_refl. apply orb_true_iff. right. reflexivity.
  - eexists. eexists. split; [reflexivity |]. repeat split.
Qed.

Lemma createMemory_rows : forall db now ident input m db',
  createMemory db now ident input = Some (m, db') ->
  ~ In ident (map id (tbl_memories db)) /\
  tbl_memories db' = tbl_memories db ++ [row m] /\
  id m = ident /\ relevance_score m = 1 /\
  pinned m = orElse (in_pinned input) false.
Proof.
  intros db now ident input m db' H.
  destruct (getRow db ident) eqn:Hg.
  - unfold createMemory in H. rewrite Hg in H. discriminate.
  - destruct (@createMemory_fresh db now ident input Hg)
      as [m0 [db0 [Hc [_ [Hid [Hrel [Hpin [Hrows _]]]]]]]].
    rewrite Hc in H. inversion H; subst m0 db0.
    split; [apply getRow_None; exact Hg |]. repeat split; assumption.
Qed.

Lemma getMemory_rows : forall db now ident,
  tbl_memories (snd (getMemory db now ident)) =
  update_rows ident (set_access now) (tbl_memories db).
Proof.
  intros db now ident. unfold getMemory.
  destruct (getRow db ident) eqn:Hg; [reflexivity |].
  simpl. symmetry. apply update_rows_absent. apply getRow_None. exact Hg.
Qed.

Lemma getMemory_found : forall db now ident,
  fst (getMemory db now ident) = None <-> getRow db ident = None.
Proof.
  intros db now ident. unfold getMemory.
  destruct (getRow db ident); simpl; split; intro H; congruence.
Qed.

Lemma updateMemory_rows : forall db now ident u,
  tbl_memories (snd (updateMemory db now ident u)) =
  update_rows ident (set_access now)
    (update_rows ident (apply_updates now u)
       (update_rows ident (set_access now) (tbl_memories db))).
Proof.
  intros db now ident u. unfold updateMemory.
  pose proof (getMemory_rows db now ident) as H1.
  pose proof (getMemory_found db now ident) as H2.
  destruct (getMemory db now ident) as [[m |] db1]; simpl in *.
  - rewrite getMemory_rows. simpl. rewrite H1. reflexivity.
  - assert (Hn : ~ In ident (map id (tbl_memories db))).
    { apply getRow_None. apply H2. reflexivity. }
    rewrite H1. rewrite !(update_rows_absent _ _ _ Hn). reflexivity.
Qed.

Lemma deleteMemory_rows : forall db ident,
  tbl_memories (snd (deleteMemory db ident)) =
  filter (fun r => negb (String.eqb (id r) ident)) (tbl_memories db).
Proof. reflexivity. Qed.

(** ** The invariant of the decay engine *)




Lemma decay_inv_update : forall db' db ident f,
  tbl_memories db' = update_rows ident f (tbl_memories db) ->
  (forall r, id (f r) = id r) ->
  (forall r, pinned_full r -> pinned_full (f r)) ->
  decay_inv db -> decay_inv db'.
Proof.
  intros db' db ident f Hrows Hid Hf [Hwf Hp]. split.
  - unfold wf_db. rewrite Hrows, update_rows_ids by exact Hid. exact Hwf.
  - rewrite Hrows. apply update_rows_Forall; assumption.
Qed.





(** ** A concrete run: create, sweep after a hundred days, pin *)

Lemma db_created_run : exists m,
  createMemory empty_db 0 "m1" deploy_input = Some (m, db_created).
Proof. eexists. reflexivity. Qed.

Lemma db_created_rows : tbl_memories db_created = [deploy_row].
Proof. reflexivity. Qed.

Lemma db_created_wf : wf_db db_created.
Proof.
  unfold wf_db. rewrite db_created_rows. simpl.
  constructor; [simpl; tauto | constructor].
Qed.

Lemma db_swept_rows :
  tbl_memories db_swept = [set_relevance (clamped (100 * day) deploy_row) deploy_row].
Proof.
  unfold db_swept. rewrite applyDecay_rows by exact db_created_wf.
  rewrite db_created_rows. reflexivity.
Qed.

Lemma hundred_days_clamped : clamped (100 * day) deploy_row = exp (- (1 / 10)).
Proof.
  unfold clamped, deploy_row, day, ONE_DAY. cbn [decay_rate last_accessed CATEGORY_DEFAULT_DECAY].
  replace (- (0.1) * (IZR (100 * 86400000 - 0) / 86400000) * 0.01) with (- (1 / 10)).
  - apply clamp_exp_nonpos. lra.
  - simpl. lra.
Qed.

Lemma exp_neg_lt_1 : forall x, 0 < x -> exp (- x) < 1.
Proof.
  intros x Hx. rewrite <- exp_0. apply exp_increasing. lra.
Qed.









(** ** The sweep and the access count *)

Lemma db_accessed_rows :
  tbl_memories db_accessed =
  [event_row "frequent" "Frequently accessed" 20; event_row "rare" "Rarely accessed" 0].
Proof. reflexivity. Qed.

Lemma db_accessed_wf : wf_db db_accessed.
Proof.
  unfold wf_db. rewrite db_accessed_rows. simpl.
  constructor; [simpl; intros [H | []]; discriminate |].
  constructor; [simpl; tauto | constructor].
Qed.

Lemma fifteen_days_clamped : forall ident text count,
  clamped (15 * day) (event_row ident text count) = exp (- (0.3 * 15 * 0.01)).
Proof.
  intros ident text count.
  unfold clamped, event_row, day, ONE_DAY.
  cbn [decay_rate last_accessed CATEGORY_DEFAULT_DECAY].
  replace (- (0.3) * (IZR (15 * 86400000 - 0) / 86400000) * 0.01)
    with (- (0.3 * 15 * 0.01)).
  - apply clamp_exp_nonpos. lra.
  - simpl. lra.
Qed.

Lemma db_two_swept_rows :
  tbl_memories db_two_swept =
  [set_relevance (exp (- (0.3 * 15 * 0.01))) (event_row "frequent" "Frequently accessed" 20);
   set_relevance (exp (- (0.3 * 15 * 0.01))) (event_row "rare" "Rarely accessed" 0)].
Proof.
  unfold db_two_swept. rewrite applyDecay_rows by exact db_accessed_wf.
  rewrite db_accessed_rows. unfold map, decay_row.
  cbn [pinned event_row]. rewrite !fifteen_days_clamped. reflexivity.
Qed.

(** C1, at the input of the repository's own test of frequency resistance:
    two facts that differ in their access count only (20 against 0) and have
    been idle for fifteen days leave the sweep with the same relevance,
    [exp (-(decayRate * daysIdle * 0.01))]; the access count does not
    enter, and the factor [1 / (1 + useCount * 0.3)] is not applied. *)
Theorem sweep_ignores_access_count :
  (exists f r,
     getRow db_accessed "frequent" = Some f /\ getRow db_accessed "rare" = Some r /\
     access_count f = 20%nat /\ access_count r = 0%nat /\
     pinned f = false /\ pinned r = false /\
     decay_rate f = decay_rate r /\ last_accessed f = last_accessed r /\
     relevance_score f = relevance_score r) /\
  (exists f' r',
     getRow db_two_swept "frequent" = Some f' /\ getRow db_two_swept "rare" = Some r' /\
     relevance_score f' = exp (- (0.3 * 15 * 0.01)) /\
     relevance_score r' = exp (- (0.3 * 15 * 0.01)) /\
     exp (- (0.3 * 15 * 0.01)) < exp (- (0.3 * 15 * 0.01 * (1 / (1 + 20 * 0.3))))).
Proof.
  split.
  - exists (event_row "frequent" "Frequently accessed" 20),
           (event_row "rare" "Rarely accessed" 0).
    repeat split.
  - exists (set_relevance (exp (- (0.3 * 15 * 0.01)))
              (event_row "frequent" "Frequently accessed" 20)),
           (set_relevance (exp (- (0.3 * 15 * 0.01)))
              (event_row "rare" "Rarely accessed" 0)).
    unfold getRow. rewrite db_two_swept_rows.
    split; [reflexivity |]. split; [reflexivity |].
    split; [reflexivity |]. split; [reflexivity |].
    apply exp_increasing. lra.
Qed.

(** ** The sweep and the relevance before it *)

Lemma db_swept_wf : wf_db db_swept.
Proof. apply applyDecay_wf. exact db_created_wf. Qed.

Lemma db_touched_rows :
  tbl_memories db_touched = [set_access (100 * day) swept_row].
Proof. unfold db_touched. rewrite getMemory_rows, db_swept_rows. reflexivity. Qed.

Lemma db_touched_wf : wf_db db_touched.
Proof.
  unfold wf_db. rewrite db_touched_rows. simpl.
  constructor; [simpl; tauto | constructor].
Qed.

Lemma db_touched_reachable : reachable any_update db_touched.
Proof.
  destruct db_created_run as [m Hm].
  eapply reach_step; [eapply reach_step; [eapply reach_step; [apply reach_init |] |] |].
  - eapply step_createMemory. exact Hm.
  - apply (step_applyDecay any_update db_created (100 * day)).
  - apply (step_getMemory any_update db_swept (100 * day) "m1").
Qed.

Lemma touched_clamped : clamped (100 * day) (set_access (100 * day) swept_row) = 1.
Proof.
  unfold clamped. cbn [last_accessed decay_rate set_access].
  rewrite Z.sub_diag.
  replace (- decay_rate swept_row * (0 / ONE_DAY) * 0.01) with 0
    by (unfold Rdiv; rewrite Rmult_0_l; lra).
  rewrite clamp_exp_nonpos by lra. apply exp_0.
Qed.

(** C5, as stated, fails: a non-protected fact that was swept after a
    hundred idle days and is then read has, after the next sweep, a higher
    relevance than before it, without any corroboration. *)
Lemma sweep_raises_relevance_after_access :
  reachable any_update db_touched /\
  exists r r',
    In r (tbl_memories db_touched) /\ pinned r = false /\
    getRow db_reswept (id r) = Some r' /\
    relevance_score r < relevance_score r'.
Proof.
  split; [exact db_touched_reachable |].
  exists (set_access (100 * day) swept_row),
         (set_relevance 1 (set_access (100 * day) swept_row)).
  split; [rewrite db_touched_rows; left; reflexivity |].
  split; [reflexivity |]. split.
  - unfold getRow, db_reswept. rewrite applyDecay_rows by exact db_touched_wf.
    rewrite db_touched_rows. unfold map, decay_row.
    cbn [pinned set_access swept_row set_relevance deploy_row].
    rewrite touched_clamped. reflexivity.
  - cbn [relevance_score set_access swept_row set_relevance].
    rewrite hundred_days_clamped. apply exp_neg_lt_1. lra.
Qed.

Lemma applyDecay_getRow : forall db now r,
  wf_db db -> In r (tbl_memories db) ->
  getRow (d_db (applyDecay db now)) (id r) = Some (decay_row now r).
Proof.
  intros db now r Hwf Hin.
  assert (Hid : id r = id (decay_row now r)).
  { unfold decay_row. destruct (pinned r); reflexivity. }
  rewrite Hid. apply getRow_unique; [apply applyDecay_wf; exact Hwf |].
  rewrite applyDecay_rows by exact Hwf. apply in_map. exact Hin.
Qed.

(** C5, amended.  One sweep leaves every protected fact unchanged.  The
    relevance it gives a non-protected fact lies in [0, 1] and depends on
    the decay rate and the idle time alone; it is at most the relevance
    before the sweep when the decay rate is non-negative and the relevance
    before is 1.0 or the value of an earlier sweep since which the fact
    has not been accessed. *)
Theorem sweep_relevance_monotone : forall db now r,
  wf_db db -> In r (tbl_memories db) ->
  exists r',
    getRow (d_db (applyDecay db now)) (id r) = Some r' /\
    (pinned r = true -> r' = r) /\
    (pinned r = false ->
     relevance_score r' = clamped now r /\
     0 <= relevance_score r' <= 1 /\
     (0 <= decay_rate r ->
      (relevance_score r = 1 \/
       exists now0, (now0 <= now)%Z /\ relevance_score r = clamped now0 r) ->
      relevance_score r' <= relevance_score r)).
Proof.
  intros db now r Hwf Hin. exists (decay_row now r).
  split; [apply applyDecay_getRow; assumption |].
  unfold decay_row. split; intro Hp; rewrite Hp; [reflexivity |].
  cbn [relevance_score set_relevance].
  split; [reflexivity |]. split; [apply clamped_range |].
  intros Hd [H1 | [now0 [Hle H0]]].
  - rewrite H1. apply clamped_range.
  - rewrite H0. apply clamped_antitone; assumption.
Qed.

Lemma sweep_relevance_monotone_witness :
  wf_db db_swept /\ In swept_row (tbl_memories db_swept) /\
  exists r',
    getRow (d_db (applyDecay db_swept (200 * day))) (id swept_row) = Some r' /\
    (pinned swept_row = true -> r' = swept_row) /\
    (pinned swept_row = false ->
     relevance_score r' = clamped (200 * day) swept_row /\
     0 <= relevance_score r' <= 1 /\
     (0 <= decay_rate swept_row ->
      (relevance_score swept_row = 1 \/
       exists now0, (now0 <= 200 * day)%Z /\
                    relevance_score swept_row = clamped now0 swept_row) ->
      relevance_score r' <= relevance_score swept_row)).
Proof.
  assert (Hin : In swept_row (tbl_memories db_swept)).
  { rewrite db_swept_rows. left. reflexivity. }
  split; [exact db_swept_wf |]. split; [exact Hin |].
  exact (@sweep_relevance_monotone db_swept (200 * day) swept_row db_swept_wf Hin).
Defined.

(** ** The stable sort as a permutation; the links of a fact *)

Lemma insert_sorted_perm : forall (A : Type) (before : A -> A -> bool) x l,
  Permutation (insert_sorted before x l) (x :: l).
Proof.
  intros A before x l. induction l as [| y l IH]; simpl; [apply Permutation_refl |].
  destruct (before x y); [apply Permutation_refl |].
  eapply perm_trans; [apply perm_skip; exact IH | apply perm_swap].
Qed.

Lemma stable_sort_perm : forall (A : Type) (before : A -> A -> bool) l,
  Permutation (stable_sort before l) l.
Proof.
  intros A before l. unfold stable_sort. induction l as [| x l IH]; simpl.
  - apply Permutation_refl.
  - eapply perm_trans; [apply insert_sorted_perm | apply perm_skip; exact IH].
Qed.

Lemma stable_sort_In : forall (A : Type) (before : A -> A -> bool) l x,
  In x (stable_sort before l) <-> In x l.
Proof.
  intros A before l x. split; apply Permutation_in;
    [| apply Permutation_sym]; apply stable_sort_perm.
Qed.

Lemma stable_sort_length : forall (A : Type) (before : A -> A -> bool) l,
  List.length (stable_sort before l) = List.length l.
Proof. intros A before l. apply Permutation_length. apply stable_sort_perm. Qed.

Lemma linked_entities_In : forall db memoryId e,
  In e (linked_entities db memoryId) <-> In (memoryId, e) (tbl_memory_entities db).
Proof.
  intros db memoryId e. unfold linked_entities.
  rewrite stable_sort_In, in_map_iff. split.
  - intros [[a b] [Hb Hin]]. simpl in Hb. subst b.
    apply filter_In in Hin. destruct Hin as [Hin Ha]. simpl in Ha.
    apply String.eqb_eq in Ha. subst a. exact Hin.
  - intro Hin. exists (memoryId, e). split; [reflexivity |].
    apply filter_In. split; [exact Hin | apply String.eqb_refl].
Qed.

(** ** Linking a new fact to its entities *)

Lemma find_entity_app : forall ident (l1 l2 : list Entity),
  find (fun x => String.eqb (e_id x) ident) (l1 ++ l2) =
  match find (fun x => String.eqb (e_id x) ident) l1 with
  | Some x => Some x
  | None => find (fun x => String.eqb (e_id x) ident) l2
  end.
Proof.
  intros ident l1 l2. induction l1 as [| x l1 IH]; simpl; [reflexivity |].
  destruct (String.eqb (e_id x) ident); [reflexivity | exact IH].
Qed.

Lemma find_entity_map : forall ident (g : Entity -> Entity) (l : list Entity),
  (forall x, e_id (g x) = e_id x) ->
  find (fun x => String.eqb (e_id x) ident) (map g l) =
  option_map g (find (fun x => String.eqb (e_id x) ident) l).
Proof.
  intros ident g l Hg. induction l as [| x l IH]; simpl; [reflexivity |].
  rewrite Hg. destruct (String.eqb (e_id x) ident); [reflexivity | exact IH].
Qed.

Lemma existsb_entity_find : forall ident (l : list Entity),
  existsb (fun x => String.eqb (e_id x) ident) l =
  match find (fun x => String.eqb (e_id x) ident) l with
  | Some _ => true
  | None => false
  end.
Proof.
  intros ident l. induction l as [| x l IH]; simpl; [reflexivity |].
  destruct (String.eqb (e_id x) ident); [reflexivity | exact IH].
Qed.

Lemma find_entity_id : forall ident (l : list Entity) x,
  find (fun x => String.eqb (e_id x) ident) l = Some x -> e_id x = ident.
Proof.
  intros ident l x H. apply find_some in H. apply String.eqb_eq. apply H.
Qed.

Lemma bump_entity : forall ident e (l : list Entity),
  find (fun x => String.eqb (e_id x) ident) (bump_memory_count e l) =
  option_map (fun x => if String.eqb ident e then add_count 1 x else x)
             (find (fun x => String.eqb (e_id x) ident) l).
Proof.
  intros ident e l. unfold bump_memory_count.
  rewrite find_entity_map.
  - destruct (find (fun x => String.eqb (e_id x) ident) l) as [x |] eqn:Hf; [| reflexivity].
    simpl. apply find_entity_id in Hf. subst ident.
    destruct (String.eqb (e_id x) e); [| reflexivity].
    unfold add_count. rewrite Nat.add_1_r. reflexivity.
  - intro x. destruct (String.eqb (e_id x) e); reflexivity.
Qed.

(** One turn of the loop, seen from the entity [ident]. *)
Lemma linked_entity : forall now memId db e ident,
  getEntity (linked now memId db e) ident =
  if String.eqb ident e
  then Some (add_count 1 (match getEntity db e with
                          | Some x => x
                          | None => auto_entity now e
                          end))
  else getEntity db ident.
Proof.
  intros now memId db e ident. unfold getEntity, linked. cbn [tbl_entities].
  rewrite bump_entity. unfold insert_entity_or_ignore.
  rewrite existsb_entity_find. cbn [e_id auto_entity].
  destruct (String.eqb_spec ident e) as [-> | Hne].
  - destruct (find (fun x => String.eqb (e_id x) e) (tbl_entities db)) as [x |] eqn:Hf.
    + rewrite Hf. reflexivity.
    + rewrite find_entity_app, Hf. simpl. rewrite String.eqb_refl. reflexivity.
  - destruct (find (fun x => String.eqb (e_id x) e) (tbl_entities db)) as [x |] eqn:Hf.
    + destruct (find (fun x => String.eqb (e_id x) ident) (tbl_entities db)); reflexivity.
    + rewrite find_entity_app.
      destruct (find (fun x => String.eqb (e_id x) ident) (tbl_entities db)); [reflexivity |].
      simpl. destruct (String.eqb_spec e ident); [congruence | reflexivity].
Qed.

Lemma add_count_add : forall a b x, add_count a (add_count b x) = add_count (b + a) x.
Proof. intros a b x. unfold add_count. simpl. rewrite Nat.add_assoc. reflexivity. Qed.

Lemma linked_all_entity : forall now memId e ents db,
  getEntity (linked_all now memId ents db) e =
  match count_occ string_dec ents e with
  | O => getEntity db e
  | S k => Some (add_count (S k) (match getEntity db e with
                                  | Some x => x
                                  | None => auto_entity now e
                                  end))
  end.
Proof.
  intros now memId e ents. unfold linked_all.
  induction ents as [| e' ents IH]; intro db; [reflexivity |].
  simpl fold_left. rewrite IH. simpl count_occ.
  rewrite (linked_entity now memId db e' e).
  destruct (string_dec e' e) as [-> | Hne].
  - rewrite String.eqb_refl.
    destruct (count_occ string_dec ents e) as [| k]; [reflexivity |].
    rewrite add_count_add. reflexivity.
  - destruct (String.eqb_spec e e') as [He | _]; [congruence |]. reflexivity.
Qed.

Lemma linked_links : forall now memId db e,
  In (memId, e) (tbl_memory_entities (linked now memId db e)) /\
  (forall l, In l (tbl_memory_entities db) ->
             In l (tbl_memory_entities (linked now memId db e))).
Proof.
  intros now memId db e. unfold linked, insert_link_or_ignore. cbn [tbl_memory_entities].
  destruct (existsb _ (tbl_memory_entities db)) eqn:Hex.
  - split; [| auto]. apply existsb_exists in Hex. destruct Hex as [[a b] [Hin Hab]].
    simpl in Hab. apply andb_true_iff in Hab. destruct Hab as [Ha Hb].
    apply String.eqb_eq in Ha, Hb. subst. exact Hin.
  - split; [apply in_or_app; right; left; reflexivity |].
    intros l Hl. apply in_or_app. left. exact Hl.
Qed.

Lemma linked_all_links_mono : forall now memId ents db l,
  In l (tbl_memory_entities db) ->
  In l (tbl_memory_entities (linked_all now memId ents db)).
Proof.
  intros now memId ents. unfold linked_all.
  induction ents as [| e ents IH]; intros db l Hl; [exact Hl |].
  simpl. apply IH. apply (proj2 (linked_links now memId db e)). exact Hl.
Qed.

Lemma linked_all_links : forall now memId ents db e,
  In e ents -> In (memId, e) (tbl_memory_entities (linked_all now memId ents db)).
Proof.
  intros now memId ents. induction ents as [| e' ents IH]; intros db e Hin; [destruct Hin |].
  unfold linked_all. simpl fold_left. destruct Hin as [-> | Hin].
  - apply (linked_all_links_mono now memId ents).
    apply (proj1 (linked_links now memId db e)).
  - apply IH. exact Hin.
Qed.

Lemma count_occ_pos : forall (ents : list string) e,
  In e ents -> exists k, count_occ string_dec ents e = S k.
Proof.
  intros ents e Hin. apply (count_occ_In string_dec) in Hin.
  destruct (count_occ string_dec ents e); [lia | eexists; reflexivity].
Qed.

(** C10.  [createMemory] does not fail on an unknown entity identifier: its
    only exception is that of a fact identifier already in use.  With a
    fresh identifier the call succeeds, and every listed entity that the
    registry did not know is created with type 'concept', its identifier as
    name, no aliases, and as memory count the number of times the list
    names it; the fact is linked to it. *)
Theorem createMemory_auto_creates_entities : forall db now ident input,
  (createMemory db now ident input = None <-> getRow db ident <> None) /\
  (forall ents e,
     getRow db ident = None ->
     in_entities input = Some ents -> In e ents ->
     getEntity db e = None ->
     exists m db',
       createMemory db now ident input = Some (m, db') /\
       getEntity db' e =
         Some (mkEntity e e concept None [] [] now now (count_occ string_dec ents e)) /\
       (1 <= count_occ string_dec ents e)%nat /\
       In (ident, e) (tbl_memory_entities db') /\
       In e (linked_entities db' ident) /\
       In e (entities m)).
Proof.
  intros db now ident input. split.
  - split.
    + intros Hnone Hg.
      destruct (@createMemory_fresh db now ident input Hg) as [m [db' [Hc _]]].
      rewrite Hc in Hnone. discriminate.
    + intro Hg. unfold createMemory.
      destruct (getRow db ident); [reflexivity | exfalso; apply Hg; reflexivity].
  - intros ents e Hfresh Hents Hin Hnone.
    destruct (@createMemory_fresh db now ident input Hfresh)
      as [m [db' [Hc [Hm [_ [_ [_ [_ Hdb]]]]]]]].
    rewrite Hents in Hm, Hdb. cbn [orElse] in Hm, Hdb.
    assert (Hne : nonempty (Some ents) = true)
      by (destruct ents; [destruct Hin | reflexivity]).
    rewrite Hne in Hdb.
    exists m, db'. split; [exact Hc |].
    destruct (count_occ_pos _ _ Hin) as [k Hk].
    split; [| split; [| split; [| split]]].
    + rewrite Hdb, linked_all_entity, Hk.
      unfold getEntity, with_memories. cbn [tbl_entities].
      unfold getEntity in Hnone. rewrite Hnone.
      unfold add_count, auto_entity. reflexivity.
    + rewrite Hk. lia.
    + rewrite Hdb. apply linked_all_links. exact Hin.
    + apply linked_entities_In. rewrite Hdb. apply linked_all_links. exact Hin.
    + rewrite Hm. exact Hin.
Qed.

Lemma createMemory_auto_creates_entities_witness :
  exists m db',
    createMemory empty_db 0 "m1" new_entity_input = Some (m, db') /\
    getEntity db' "new-entity" =
      Some (mkEntity "new-entity" "new-entity" concept None [] [] 0 0
                     (count_occ string_dec ["new-entity"] "new-entity")) /\
    (1 <= count_occ string_dec ["new-entity"] "new-entity")%nat /\
    In ("m1", "new-entity") (tbl_memory_entities db') /\
    In "new-entity" (linked_entities db' "m1") /\
    In "new-entity" (entities m).
Proof.
  apply (proj2 (createMemory_auto_creates_entities empty_db 0%Z "m1" new_entity_input)
           ["new-entity"] "new-entity").
  - reflexivity.
  - reflexivity.
  - left. reflexivity.
  - reflexivity.
Defined.

(** ** The search for contradictions *)

Lemma find_and_true : forall (A : Type) (c : A -> bool) (l : list A),
  find (fun p => c p && true) l = find c l.
Proof.
  intros A c l. induction l as [| x l IH]; simpl; [reflexivity |].
  rewrite andb_true_r. destruct (c x); [reflexivity | exact IH].
Qed.

(** With a sufficient similarity the verdict is that of the table. *)
Lemma detectContradiction_similar : forall a b : Memory,
  0.3 < contentSimilarity (toLowerCase (content a)) (toLowerCase (content b)) ->
  detectContradiction a b =
  option_map negation_reason
    (find (opposes (toLowerCase (content a)) (toLowerCase (content b))) negationPairs).
Proof.
  intros a b H. unfold detectContradiction. cbv zeta.
  rewrite (Rltb_true H). rewrite find_and_true. reflexivity.
Qed.

Lemma contradiction_step_found : forall now a st b,
  fst (contradiction_step now a st b) = fst st ++ contradiction_of a b.
Proof.
  intros now a [found db] b. unfold contradiction_step, contradiction_of.
  destruct (Nat.eqb _ 0); [simpl; symmetry; apply app_nil_r |].
  destruct (negb _); [simpl; symmetry; apply app_nil_r |].
  destruct (detectContradiction a b); simpl; [reflexivity |].
  symmetry. apply app_nil_r.
Qed.

Lemma contradiction_fold_found : forall now a bs st,
  fst (fold_left (contradiction_step now a) bs st) =
  fst st ++ flat_map (contradiction_of a) bs.
Proof.
  intros now a bs. induction bs as [| b bs IH]; intro st; simpl.
  - symmetry. apply app_nil_r.
  - rewrite IH, contradiction_step_found, <- app_assoc. reflexivity.
Qed.

(** The loop condition is all that stops the search. *)
Lemma contradictions_from_stop : forall now limit memories st,
  (limit <= Z.of_nat (List.length (fst st)))%Z ->
  contradictions_from now limit memories st = st.
Proof.
  intros now limit memories st H. destruct memories as [| a rest]; [reflexivity |].
  simpl. destruct (Z.ltb_spec (Z.of_nat (List.length (fst st))) limit); [lia | reflexivity].
Qed.

Lemma contradictions_from_cons : forall now limit a rest st,
  contradictions_from now limit (a :: rest) st =
  if (Z.of_nat (List.length (fst st)) <? limit)%Z
  then contradictions_from now limit rest (fold_left (contradiction_step now a) rest st)
  else st.
Proof. reflexivity. Qed.

Lemma db_conflict_memories :
  getAllMemories db_conflict 200 =
  [enabled_memory; disabled_memory "c" 2; disabled_memory "b" 1].
Proof. reflexivity. Qed.

Lemma enabled_disabled_similarity :
  contentSimilarity "the service is enabled always" "the service is disabled always" =
  INR 2 / INR 4.
Proof. reflexivity. Qed.

Lemma enabled_disabled_conflict : forall ident t,
  contradiction_of enabled_memory (disabled_memory ident t) =
  [mkContradictionResult (brief enabled_memory) (brief (disabled_memory ident t))
     (contentSimilarity "The service is enabled always" "The service is disabled always")
     (negation_reason ("enabled", "disabled"))].
Proof.
  intros ident t. unfold contradiction_of.
  change (entities enabled_memory) with ["service"].
  change (entities (disabled_memory ident t)) with ["service"].
  change (category enabled_memory) with fact.
  change (category (disabled_memory ident t)) with fact.
  cbn [filter existsb String.eqb Ascii.eqb Bool.eqb orb List.length Nat.eqb
       MemoryCategory_eqb negb].
  rewrite detectContradiction_similar.
  - change (content enabled_memory) with "The service is enabled always".
    change (content (disabled_memory ident t)) with "The service is disabled always".
    replace (find _ negationPairs) with (Some ("enabled", "disabled"))
      by (vm_compute; reflexivity).
    reflexivity.
  - change (content enabled_memory) with "The service is enabled always".
    change (content (disabled_memory ident t)) with "The service is disabled always".
    change (toLowerCase "The service is enabled always")
      with "the service is enabled always".
    change (toLowerCase "The service is disabled always")
      with "the service is disabled always".
    rewrite enabled_disabled_similarity. simpl. lra.
Qed.

(** C4, at a failing input: with the limit 1 and a fact that contradicts two
    others, the search returns two pairs.  The loop condition
    [contradictions.length < limit] guards the outer loop only, so the inner
    loop goes through all partners of the current fact. *)
Theorem findContradictions_exceeds_limit :
  List.length (fst (findContradictions db_conflict 0 1)) = 2%nat /\
  map (fun c => (b_id (memoryA c), b_id (memoryB c)))
      (fst (findContradictions db_conflict 0 1)) = [("a", "c"); ("a", "b")].
Proof.
  unfold findContradictions. rewrite db_conflict_memories.
  rewrite contradictions_from_cons.
  change (Z.of_nat (List.length (fst (@nil ContradictionResult, db_conflict))) <? 1)%Z
    with true. cbv iota.
  rewrite contradictions_from_stop.
  - rewrite contradiction_fold_found. cbn [flat_map fst app].
    rewrite !enabled_disabled_conflict. split; reflexivity.
  - rewrite contradiction_fold_found. cbn [flat_map fst app].
    rewrite !enabled_disabled_conflict. simpl. lia.
Qed.

(** ** Verification of one fact *)

Lemma getMemory_some : forall db now ident r,
  getRow db ident = Some r ->
  getMemory db now ident =
  (Some (rowToMemory (snd (getMemory db now ident)) r), snd (getMemory db now ident)).
Proof. intros db now ident r H. unfold getMemory. rewrite H. reflexivity. Qed.

Lemma verify_step_count : forall ident memory st rel,
  fst (verify_step ident memory st rel) =
  (fst st + (if supports ident memory rel then 1 else 0))%nat /\
  List.length (snd (verify_step ident memory st rel)) =
  (List.length (snd st) + (if supports ident memory rel then 1 else 0))%nat.
Proof.
  intros ident memory [count ev] rel. unfold verify_step, supports.
  destruct (String.eqb (id rel) ident); simpl; [lia |].
  destruct (Rltb 0.4 _); simpl; [| lia].
  rewrite length_app. simpl. lia.
Qed.

Lemma verify_fold_count : forall ident memory related st,
  fst (fold_left (verify_step ident memory) related st) =
  (fst st + List.length (filter (supports ident memory) related))%nat /\
  List.length (snd (fold_left (verify_step ident memory) related st)) =
  (List.length (snd st) + List.length (filter (supports ident memory) related))%nat.
Proof.
  intros ident memory related. induction related as [| rel related IH]; intro st.
  - simpl. lia.
  - simpl fold_left. destruct (IH (verify_step ident memory st rel)) as [H1 H2].
    destruct (verify_step_count ident memory st rel) as [H3 H4].
    rewrite H1, H2, H3, H4. simpl filter.
    destruct (supports ident memory rel); simpl; lia.
Qed.

Lemma getRow_updated : forall db ident f r,
  (forall x, id (f x) = id x) ->
  getRow db ident = Some r ->
  getRow (with_memories db (update_rows ident f (tbl_memories db))) ident = Some (f r).
Proof.
  intros db ident f r Hf. unfold getRow, with_memories, update_rows. cbn [tbl_memories].
  induction (tbl_memories db) as [| x rows IH]; intro H; [discriminate |].
  simpl in *. destruct (String.eqb (id x) ident) eqn:He.
  - inversion H; subst. rewrite Hf, He. reflexivity.
  - rewrite He. apply IH. exact H.
Qed.

Lemma getMemory_getRow : forall db now ident r,
  getRow db ident = Some r ->
  getRow (snd (getMemory db now ident)) ident = Some (set_access now r).
Proof.
  intros db now ident r H. unfold getMemory. rewrite H. cbn [snd].
  apply (getRow_updated db ident (set_access now)); [reflexivity | exact H].
Qed.

(** Rounding to two decimal places leaves a capped sum of hundredths and
    twentieths as it is. *)
Lemma round_capped_score : forall (n : Z) (k : nat),
  (0 <= n <= 100)%Z ->
  Math_round (Rmin 1 (IZR n / 100 + INR k * 0.05) * 100) / 100 =
  Rmin 1 (IZR n / 100 + INR k * 0.05).
Proof.
  intros n k Hn. rewrite INR_IZR_INZ.
  assert (Hs : IZR n / 100 + IZR (Z.of_nat k) * 0.05 = IZR (n + 5 * Z.of_nat k) / 100).
  { rewrite plus_IZR, mult_IZR. lra. }
  rewrite Hs. unfold Rmin.
  destruct (Rle_dec 1 (IZR (n + 5 * Z.of_nat k) / 100)).
  - rewrite (@Math_round_eq 100) by lra. lra.
  - rewrite (@Math_round_eq (n + 5 * Z.of_nat k)) by lra. reflexivity.
Qed.

Lemma round_score : forall n : Z, Math_round (IZR n / 100 * 100) / 100 = IZR n / 100.
Proof. intro n. rewrite (@Math_round_eq n) by lra. reflexivity. Qed.

(** C9.  [verifyMemory] on an unknown identifier returns the not-found
    outcome (not verified, new confidence 0) and leaves the database as it
    is.  For a stored fact, with k the number of related facts other than
    itself whose content is more than 0.4 similar: the fact is verified
    exactly when k is at least 1; the new confidence is the old score plus
    0.05 per supporting fact, capped at 1.0 and rounded to two decimal
    places, which for a stored score of two decimal places is the capped sum
    itself; and that score is written back with k more corroborations. *)
Theorem verifyMemory_outcome : forall db now ident,
  (getRow db ident = None ->
   verifyMemory db now ident = (mkVerifyResult false ["Memory not found"] 0, db)) /\
  (forall r, getRow db ident = Some r ->
   let db1 := snd (getMemory db now ident) in
   let memory := rowToMemory db1 r in
   let k := List.length (filter (supports ident memory) (findRelated db1 memory)) in
   let res := fst (verifyMemory db now ident) in
   let db2 := snd (verifyMemory db now ident) in
   (verified res = true <-> (1 <= k)%nat) /\
   ((1 <= k)%nat -> List.length (evidence res) = k) /\
   newConfidence res =
     Math_round ((if (0 <? k)%nat
                  then Rmin 1 (score (confidence r) + INR k * 0.05)
                  else score (confidence r)) * 100) / 100 /\
   (two_decimals (score (confidence r)) ->
    newConfidence res = Rmin 1 (score (confidence r) + INR k * 0.05)) /\
   ((1 <= k)%nat ->
    exists r', getRow db2 ident = Some r' /\
               score (confidence r') = newConfidence res /\
               corroborations (confidence r') = (corroborations (confidence r) + k)%nat) /\
   (k = 0%nat -> db2 = db1)).
Proof.
  intros db now ident. split.
  - intro Hnone. unfold verifyMemory, getMemory. rewrite Hnone. reflexivity.
  - intros r Hr. cbv zeta.
    set (db1 := snd (getMemory db now ident)).
    set (memory := rowToMemory db1 r).
    unfold verifyMemory. rewrite (getMemory_some db now ident Hr).
    fold db1. fold memory.
    destruct (verify_fold_count ident memory (findRelated db1 memory) (0%nat, []))
      as [Hc He].
    destruct (fold_left (verify_step ident memory) (findRelated db1 memory) (0%nat, []))
      as [count ev].
    cbn [fst snd List.length] in Hc, He. rewrite Nat.add_0_l in Hc, He.
    set (k := List.length (filter (supports ident memory) (findRelated db1 memory))) in *.
    subst count. cbn [fst snd verified evidence newConfidence].
    change (score (confidence memory)) with (score (confidence r)).
    change (basis (confidence memory)) with (basis (confidence r)).
    change (corroborations (confidence memory)) with (corroborations (confidence r)).
    change (contradictions (confidence memory)) with (contradictions (confidence r)).
    split; [| split; [| split; [| split; [| split]]]].
    + rewrite Nat.ltb_lt. lia.
    + intro Hk. destruct ev as [| e ev]; [simpl in He; lia | exact He].
    + reflexivity.
    + intros [n [Hn Hs]]. rewrite Hs.
      destruct (0 <? k)%nat eqn:Hk.
      * apply round_capped_score. exact Hn.
      * apply Nat.ltb_ge in Hk. assert (k = 0%nat) as -> by lia.
        rewrite round_score. simpl INR. rewrite Rmult_0_l, Rplus_0_r.
        rewrite Rmin_1_le; [reflexivity |].
        apply Rmult_le_reg_r with 100; [lra |].
        unfold Rdiv. rewrite Rmult_assoc, Rinv_l, Rmult_1_r, Rmult_1_l by lra.
        apply IZR_le. lia.
    + intro Hk. assert (Hlt : (0 <? k)%nat = true) by (apply Nat.ltb_lt; lia).
      rewrite Hlt. eexists. split.
      * unfold updateConfidence.
        apply (getRow_updated db1 ident); [reflexivity |].
        apply (getMemory_getRow db now ident Hr).
      * split; reflexivity.
    + intro Hk. rewrite Hk. reflexivity.
Qed.

(** ** Sorting and slicing *)

Lemma firstn_In : forall (A : Type) n (l : list A) x, In x (firstn n l) -> In x l.
Proof.
  intros A n l x H. rewrite <- (firstn_skipn n l). apply in_or_app. left. exact H.
Qed.

Lemma slice0_In : forall (A : Type) n (l : list A) x, In x (slice0 n l) -> In x l.
Proof.
  intros A n l x. unfold slice0. destruct (0 <=? n)%Z; apply firstn_In.
Qed.

Lemma slice0_length : forall (A : Type) n (l : list A),
  (0 <= n)%Z -> List.length (slice0 n l) = Nat.min (Z.to_nat n) (List.length l).
Proof.
  intros A n l Hn. unfold slice0.
  destruct (Z.leb_spec 0 n); [apply length_firstn | lia].
Qed.

(** ** Quick recall *)

Lemma db_rufio_quickRecall :
  quickRecall db_rufio "credential" 5 =
  [mkRecallResult rufio_memory (textMatchScore "credential" rufio_memory)
     (textMatchScore "credential" rufio_memory *
      score (confidence rufio_memory) * relevance_score rufio_memory)].
Proof. reflexivity. Qed.

Lemma rufio_match : textMatchScore "credential" rufio_memory = 0.25.
Proof.
  assert (H : textMatchScore "credential" rufio_memory =
              Rmin 1 ((0 + 0.5) / (INR 1 * 2))) by reflexivity.
  rewrite H. simpl INR. rewrite Rmin_right; lra.
Qed.

Lemma rufio_score : score (confidence rufio_memory) = 0.4.
Proof.
  change (confidence rufio_memory) with (computeInitialConfidence rufio_input).
  rewrite initial_score_value. simpl. lra.
Qed.

(** C3, as stated, fails: [quickRecall] returns a hit found through its
    summary alone, of an inferred fact, with the final score 0.1, below the
    noise floor 0.15 of the full recall. *)
Lemma quickRecall_returns_below_noise_floor :
  exists r,
    In r (quickRecall db_rufio "credential" 5) /\
    finalScore r = 0.1 /\ finalScore r < 0.15.
Proof.
  rewrite db_rufio_quickRecall. eexists. split; [left; reflexivity |].
  cbn [finalScore]. rewrite rufio_match, rufio_score.
  change (relevance_score rufio_memory) with 1. split; lra.
Qed.

(** ** Full recall *)

Lemma score_candidate_filters : forall query c r,
  In r (score_candidate query (orElse (minConfidence query) 0.3)
          (orElse (minRelevance query) 0.1) c) ->
  orElse (minConfidence query) 0.3 <= score (confidence (memory r)) /\
  (orElse (includeDecayed query) false = false ->
   orElse (minRelevance query) 0.1 <= relevance_score (memory r)).
Proof.
  intros query c r. unfold score_candidate.
  destruct (Rltb (score (confidence (fst (snd c)))) _) eqn:Hc; [intros [] |].
  destruct (Rltb (relevance_score (fst (snd c))) _ &&
            negb (orElse (includeDecayed query) false)) eqn:Hr; [intros [] |].
  intros [Heq | []]. subst r. cbn [memory]. split.
  - unfold Rltb in Hc. destruct (Rlt_dec _ _); [discriminate | lra].
  - intro Hd. rewrite Hd in Hr. simpl in Hr. rewrite andb_true_r in Hr.
    unfold Rltb in Hr. destruct (Rlt_dec _ _); [discriminate | lra].
Qed.

(** C8.  Every result of the full recall has a trust score of at least
    [minConfidence] (0.3 by default), a relevance of at least [minRelevance]
    (0.1 by default) unless [includeDecayed] is set, and a final score of at
    least the noise floor 0.15. *)
Theorem recall_results_pass_filters : forall db embedder now query r,
  In r (fst (recall db embedder now query)) -> passes_filters query r.
Proof.
  intros db embedder now query r. unfold recall.
  destruct (gather_semantic db embedder now (q_text query) _) as [cm db'].
  cbn [fst]. intro Hr.
  apply slice0_In in Hr. apply stable_sort_In in Hr.
  apply filter_In in Hr. destruct Hr as [Hr Hf].
  apply in_flat_map in Hr. destruct Hr as [c [_ Hr]].
  destruct (score_candidate_filters _ _ _ Hr) as [H1 H2].
  split; [exact H1 | split; [exact H2 |]].
  apply Rleb_spec in Hf. unfold minFinalScore in Hf. exact Hf.
Qed.

Lemma score_candidate_pass : forall query minConf minRel (c : string * (Memory * Scores)),
  minConf <= score (confidence (fst (snd c))) ->
  minRel <= relevance_score (fst (snd c)) ->
  q_context query = None ->
  score_candidate query minConf minRel c =
  [mkRecallResult (fst (snd c)) (computeMatchScore (snd (snd c)))
     (computeMatchScore (snd (snd c)) * score (confidence (fst (snd c))) *
      relevance_score (fst (snd c)) * 1)].
Proof.
  intros query minConf minRel c Hc Hr Hq. unfold score_candidate.
  rewrite (Rltb_false Hc), (Rltb_false Hr), Hq. reflexivity.
Qed.

Lemma deploy_match : textMatchScore "deploys" deploy_memory = 1.
Proof.
  assert (H : textMatchScore "deploys" deploy_memory =
              Rmin 1 ((0 + 1 + INR 1) / (INR 1 * 2))) by reflexivity.
  rewrite H. simpl INR. rewrite Rmin_left; lra.
Qed.

Lemma deploy_score : score (confidence deploy_memory) = 0.9.
Proof.
  change (confidence deploy_memory) with (computeInitialConfidence deploy_input).
  rewrite initial_score_value. simpl. lra.
Qed.

Lemma deploy_final : finalScore deploy_result = 0.63.
Proof.
  unfold deploy_result. cbn [finalScore]. unfold computeMatchScore.
  cbn [s_text s_semantic s_entity]. rewrite (@Rltb_false 0 0) by lra.
  rewrite deploy_match, deploy_score.
  change (relevance_score deploy_memory) with 1. lra.
Qed.

Lemma db_created_recall :
  fst (recall db_created None 0 (plain_query "deploys")) = [deploy_result].
Proof.
  assert (H : fst (recall db_created None 0 (plain_query "deploys")) =
              slice0 10
                (stable_sort by_finalScore
                   (filter (fun r => Rleb minFinalScore (finalScore r))
                      (flat_map (score_candidate (plain_query "deploys") 0.3 0.1)
                         [deploy_candidate])))) by reflexivity.
  rewrite H. cbn [flat_map]. rewrite app_nil_r.
  rewrite score_candidate_pass.
  - change (fst (snd deploy_candidate)) with deploy_memory.
    change (snd (snd deploy_candidate))
      with (mkScores (textMatchScore "deploys" deploy_memory) 0 0).
    fold deploy_result. cbn [filter].
    rewrite Rleb_true; [reflexivity |].
    rewrite deploy_final. unfold minFinalScore. lra.
  - change (fst (snd deploy_candidate)) with deploy_memory.
    rewrite deploy_score. lra.
  - change (relevance_score (fst (snd deploy_candidate))) with 1. lra.
  - reflexivity.
Qed.

Lemma recall_results_pass_filters_witness :
  In deploy_result (fst (recall db_created None 0 (plain_query "deploys"))) /\
  passes_filters (plain_query "deploys") deploy_result.
Proof.
  assert (Hin : In deploy_result (fst (recall db_created None 0 (plain_query "deploys")))).
  { rewrite db_created_recall. left. reflexivity. }
  split; [exact Hin |].
  exact (@recall_results_pass_filters db_created None 0%Z (plain_query "deploys")
           deploy_result Hin).
Defined.

(** ** Recall and the stored facts *)

Lemma cosine_unit : cosineSimilarity [1] [1] = 1.
Proof.
  unfold cosineSimilarity.
  cbn [List.length Nat.eqb negb combine fold_left fst snd].
  replace (0 + 1 * 1) with 1 by lra. rewrite sqrt_1.
  rewrite (@Reqb_false (1 * 1) 0) by lra. lra.
Qed.

Lemma recall_db : forall db embedder now query,
  snd (recall db embedder now query) =
  snd (gather_semantic db embedder now (q_text query)
         (gather_categories db (q_categories query) (orElse (q_limit query) 10%Z)
            (gather_entities db (q_entities query) (orElse (q_limit query) 10%Z)
               (gather_text db (q_text query) (orElse (q_limit query) 10%Z))))).
Proof.
  intros db embedder now query. unfold recall.
  destruct (gather_semantic _ _ _ _ _) as [cm db']. reflexivity.
Qed.

(** C6, as stated, fails: with an embedding provider, a fact that only the
    semantic search finds is fetched through [getMemory], which stamps its
    [last_accessed] and counts the access. *)
Lemma recall_updates_access_tracking :
  exists r r',
    getRow db_indexed "m1" = Some r /\
    getRow (snd (recall db_indexed (Some unit_embedder) (100 * day) (plain_query "zebra")))
           "m1" = Some r' /\
    access_count r = 0%nat /\ access_count r' = 1%nat /\
    last_accessed r = 0%Z /\ last_accessed r' = (100 * day)%Z.
Proof.
  exists indexed_row, (set_access (100 * day) indexed_row).
  split; [reflexivity |].
  rewrite recall_db.
  match goal with
  | |- context [gather_semantic ?d ?e ?n ?t ?m] =>
      change (gather_semantic d e n t m)
        with (semantic_step (100 * day) [1] ([], db_indexed) ("m1", [1]))
  end.
  unfold semantic_step. cbn [fst snd].
  rewrite cosine_unit. rewrite (@Rltb_true 0.5 1) by lra.
  split; [reflexivity |]. repeat split.
Qed.

Lemma semantic_step_tables : forall now q st e,
  tbl_entities (snd (semantic_step now q st e)) = tbl_entities (snd st) /\
  tbl_memory_entities (snd (semantic_step now q st e)) = tbl_memory_entities (snd st).
Proof.
  intros now q [m db] e. unfold semantic_step.
  destruct (Rltb 0.5 _); [| split; reflexivity].
  destruct (map_has (fst e) m); [split; reflexivity |].
  unfold getMemory. destruct (getRow db (fst e)); split; reflexivity.
Qed.

Lemma semantic_fold_tables : forall now q es st,
  tbl_entities (snd (fold_left (semantic_step now q) es st)) = tbl_entities (snd st) /\
  tbl_memory_entities (snd (fold_left (semantic_step now q) es st)) =
  tbl_memory_entities (snd st).
Proof.
  intros now q es. induction es as [| e es IH]; intro st; simpl; [split; reflexivity |].
  destruct (IH (semantic_step now q st e)) as [H1 H2].
  destruct (semantic_step_tables now q st e) as [H3 H4].
  split; congruence.
Qed.

Lemma map_has_update_scores : forall k k0 f (m : CandidateMap),
  map_has k (map_update_scores k0 f m) = map_has k m.
Proof.
  intros k k0 f m. unfold map_has, map_update_scores.
  induction m as [| e m IH]; [reflexivity |].
  simpl. rewrite IH. destruct (String.eqb (fst e) k0); reflexivity.
Qed.

Lemma map_has_set : forall k k0 (v : Memory * Scores) (m : CandidateMap),
  map_has k (map_set k0 v m) = map_has k m || String.eqb k0 k.
Proof.
  intros k k0 v m. unfold map_set.
  destruct (map_has k0 m) eqn:Hk0.
  - assert (Hsame : map_has k (map (fun e : string * (Memory * Scores) =>
                                      if String.eqb (fst e) k0 then (k0, v) else e) m) =
                    map_has k m).
    { unfold map_has. clear Hk0. induction m as [| e m IH]; [reflexivity |].
      simpl. rewrite IH. destruct (String.eqb_spec (fst e) k0) as [He | _]; [| reflexivity].
      simpl. rewrite He. reflexivity. }
    rewrite Hsame. destruct (String.eqb_spec k0 k) as [<- | _].
    + rewrite Hk0. reflexivity.
    + rewrite orb_false_r. reflexivity.
  - unfold map_has. rewrite existsb_app. simpl. rewrite orb_false_r. reflexivity.
Qed.

Lemma semantic_hit_app : forall q es e k,
  semantic_hit q (es ++ [e]) k =
  semantic_hit q es k ||
  (String.eqb (fst e) k && Rltb 0.5 (cosineSimilarity q (snd e))).
Proof.
  intros q es e k. unfold semantic_hit. rewrite existsb_app. simpl.
  rewrite orb_false_r. reflexivity.
Qed.

Lemma stored_spec : forall rows k,
  stored rows k = true <-> exists r, In r rows /\ id r = k.
Proof.
  intros rows k. unfold stored. rewrite existsb_exists. split.
  - intros [r [Hr He]]. exists r. split; [exact Hr | apply String.eqb_eq; exact He].
  - intros [r [Hr He]]. exists r. split; [exact Hr | apply String.eqb_eq; exact He].
Qed.

Lemma getRow_stored : forall db k,
  stored (tbl_memories db) k = match getRow db k with Some _ => true | None => false end.
Proof.
  intros db k. unfold stored, getRow.
  induction (tbl_memories db) as [| r rows IH]; [reflexivity |].
  simpl. destruct (String.eqb (id r) k); [reflexivity | exact IH].
Qed.

Lemma stamp_rows_id : forall now q m0 done r, id (stamp_rows now q m0 done r) = id r.
Proof.
  intros now q m0 done r. unfold stamp_rows.
  destruct (_ && _); reflexivity.
Qed.

Lemma stored_stamped : forall now q m0 done rows k,
  stored (map (stamp_rows now q m0 done) rows) k = stored rows k.
Proof.
  intros now q m0 done rows k. unfold stored.
  induction rows as [| r rows IH]; [reflexivity |].
  simpl. rewrite stamp_rows_id, IH. reflexivity.
Qed.

Lemma semantic_step_stamps : forall now q m0 rows0 done st e,
  tbl_memories (snd st) = map (stamp_rows now q m0 done) rows0 ->
  (forall k, map_has k (fst st) = map_has k m0 || (semantic_hit q done k && stored rows0 k)) ->
  tbl_memories (snd (semantic_step now q st e)) =
    map (stamp_rows now q m0 (done ++ [e])) rows0 /\
  (forall k, map_has k (fst (semantic_step now q st e)) =
             map_has k m0 || (semantic_hit q (done ++ [e]) k && stored rows0 k)).
Proof.
  intros now q m0 rows0 done [m dbc] e Hrows Hkeys. cbn [fst snd] in Hrows, Hkeys.
  unfold semantic_step.
  destruct (Rltb 0.5 (cosineSimilarity q (snd e))) eqn:Hsim.
  - pose proof (Hkeys (fst e)) as Hk0.
    destruct (map_has (fst e) m) eqn:Hhas.
    + cbn [fst snd]. split.
      * rewrite Hrows. apply map_ext_in. intros r Hr. unfold stamp_rows.
        rewrite semantic_hit_app, Hsim, andb_true_r.
        destruct (String.eqb_spec (fst e) (id r)) as [He | _];
          [| rewrite orb_false_r; reflexivity].
        rewrite orb_true_r. rewrite He in Hk0.
        destruct (map_has (id r) m0); [rewrite !andb_false_r; reflexivity |].
        simpl in Hk0. symmetry in Hk0. apply andb_true_iff in Hk0.
        destruct Hk0 as [Hhit _]. rewrite Hhit. reflexivity.
      * intro k. rewrite map_has_update_scores, Hkeys, semantic_hit_app, Hsim, andb_true_r.
        destruct (String.eqb_spec (fst e) k) as [He | _];
          [| rewrite orb_false_r; reflexivity].
        rewrite orb_true_r. rewrite He in Hk0.
        destruct (map_has k m0); [reflexivity |].
        simpl in *. symmetry in Hk0. apply andb_true_iff in Hk0.
        destruct Hk0 as [Hhit Hst]. rewrite Hhit, Hst. reflexivity.
    + pose proof (getRow_stored dbc (fst e)) as Hst.
      rewrite Hrows, stored_stamped in Hst.
      symmetry in Hk0. apply orb_false_iff in Hk0. destruct Hk0 as [Hm0 Hdone].
      unfold getMemory. destruct (getRow dbc (fst e)) as [r0 |] eqn:Hg.
      * cbn [fst snd tbl_memories with_memories]. split.
        -- rewrite Hrows. unfold update_rows. rewrite map_map.
           apply map_ext_in. intros r Hr. rewrite stamp_rows_id. unfold stamp_rows.
           rewrite semantic_hit_app, Hsim, andb_true_r.
           destruct (String.eqb_spec (id r) (fst e)) as [He | Hne].
           ++ rewrite He, Hm0, String.eqb_refl, orb_true_r.
              rewrite Hst in Hdone. rewrite andb_true_r in Hdone. rewrite Hdone.
              reflexivity.
           ++ destruct (String.eqb_spec (fst e) (id r)) as [He' | _];
                [exfalso; apply Hne; symmetry; exact He' |].
              rewrite orb_false_r. reflexivity.
        -- intro k. rewrite map_has_set, Hkeys, semantic_hit_app, Hsim, andb_true_r.
           destruct (String.eqb_spec (fst e) k) as [He | _].
           ++ rewrite <- He, Hst, orb_true_r, !orb_true_r. reflexivity.
           ++ rewrite !orb_false_r. reflexivity.
      * cbn [fst snd]. split.
        -- rewrite Hrows. apply map_ext_in. intros r Hr. unfold stamp_rows.
           rewrite semantic_hit_app, Hsim, andb_true_r.
           destruct (String.eqb_spec (fst e) (id r)) as [He | _];
             [| rewrite orb_false_r; reflexivity].
           exfalso. assert (Hin : stored rows0 (fst e) = true).
           { apply stored_spec. exists r. split; [exact Hr | symmetry; exact He]. }
           congruence.
        -- intro k. rewrite Hkeys, semantic_hit_app, Hsim, andb_true_r.
           destruct (String.eqb_spec (fst e) k) as [He | _];
             [| rewrite orb_false_r; reflexivity].
           rewrite <- He, Hst, !andb_false_r. reflexivity.
  - cbn [fst snd]. split.
    + rewrite Hrows. apply map_ext. intro r. unfold stamp_rows.
      rewrite semantic_hit_app, Hsim, andb_false_r, orb_false_r. reflexivity.
    + intro k. rewrite Hkeys, semantic_hit_app, Hsim, andb_false_r, orb_false_r.
      reflexivity.
Qed.

Lemma semantic_fold_stamps : forall now q m0 rows0 es done st,
  tbl_memories (snd st) = map (stamp_rows now q m0 done) rows0 ->
  (forall k, map_has k (fst st) = map_has k m0 || (semantic_hit q done k && stored rows0 k)) ->
  tbl_memories (snd (fold_left (semantic_step now q) es st)) =
    map (stamp_rows now q m0 (done ++ es)) rows0.
Proof.
  intros now q m0 rows0 es. induction es as [| e es IH]; intros done st Hrows Hkeys.
  - rewrite app_nil_r. exact Hrows.
  - simpl fold_left.
    destruct (semantic_step_stamps now q m0 rows0 done st e Hrows Hkeys) as [H1 H2].
    replace (done ++ e :: es) with ((done ++ [e]) ++ es)
      by (rewrite <- app_assoc; reflexivity).
    apply IH; assumption.
Qed.

Lemma Forall2_map_right : forall (A : Type) (P : A -> A -> Prop) (f : A -> A) l,
  (forall x, P x (f x)) -> Forall2 P l (map f l).
Proof.
  intros A P f l H. induction l as [| x l IH]; simpl; constructor; [apply H | exact IH].
Qed.

(** C6, amended.  Without an embedding provider [recall] leaves the
    database as it is.  With a provider it changes nothing but the access
    tracking of facts: a fact that only the semantic channel finds, with a
    stored embedding more than 0.5 similar to that of the query and not
    among the candidates of the text search, the entity filter and the
    category filter, is fetched once through [getMemory], which sets its
    [last_accessed] to the current time and adds 1 to its [access_count];
    every other fact stays as it is; and every other column of every fact,
    the entities and the links stay as they are. *)
Theorem recall_changes_access_tracking_only : forall db embedder now query,
  (embedder = None -> snd (recall db embedder now query) = db) /\
  (forall embed, embedder = Some embed ->
     Forall2 (fun r r' => if semantic_only db embed query r
                          then stamped now r r' else r' = r)
       (tbl_memories db) (tbl_memories (snd (recall db embedder now query)))) /\
  map forget_access (tbl_memories (snd (recall db embedder now query))) =
  map forget_access (tbl_memories db) /\
  tbl_entities (snd (recall db embedder now query)) = tbl_entities db /\
  tbl_memory_entities (snd (recall db embedder now query)) = tbl_memory_entities db.
Proof.
  intros db embedder now query. split; [| split; [| split]].
  - intros ->. rewrite recall_db. reflexivity.
  - intros embed ->. rewrite recall_db. unfold gather_semantic.
    fold (other_candidates db query).
    rewrite (semantic_fold_stamps now (embed (q_text query)) (other_candidates db query)
               (tbl_memories db) (getAllEmbeddings db) []
               (other_candidates db query, db)).
    + apply Forall2_map_right. intro r. unfold stamp_rows, semantic_only. simpl app.
      destruct (_ && _); [| reflexivity].
      unfold stamped. repeat split.
    + cbn [snd]. symmetry. erewrite map_ext; [apply map_id |].
      intro r. reflexivity.
    + intro k. cbn [fst]. unfold semantic_hit. simpl. rewrite orb_false_r. reflexivity.
  - apply (recall_view forget_access); reflexivity.
  - rewrite recall_db. unfold gather_semantic.
    destruct embedder as [embed |]; [| split; reflexivity].
    apply semantic_fold_tables.
Qed.

(** ** A verification with two supporting facts *)

Lemma insert_sorted_ext : forall (A : Type) (f g : A -> A -> bool) x l,
  (forall y, In y l -> f x y = g x y) ->
  insert_sorted f x l = insert_sorted g x l.
Proof.
  intros A f g x l. induction l as [| y l IH]; intro H; simpl; [reflexivity |].
  rewrite (H y (or_introl eq_refl)).
  destruct (g x y); [reflexivity |].
  f_equal. apply IH. intros z Hz. apply H. right. exact Hz.
Qed.

Lemma stable_sort_ext : forall (A : Type) (f g : A -> A -> bool) l,
  (forall x y, In x l -> In y l -> f x y = g x y) ->
  stable_sort f l = stable_sort g l.
Proof.
  intros A f g l. unfold stable_sort. induction l as [| x l IH]; intro H; simpl.
  - reflexivity.
  - rewrite IH by (intros a b Ha Hb; apply H; right; assumption).
    apply insert_sorted_ext. intros y Hy. apply H; [left; reflexivity | right].
    apply (stable_sort_In g l y). exact Hy.
Qed.

Lemma by_relevance_created_same : forall x y,
  relevance_score x = relevance_score y ->
  by_relevance_created x y = by_created x y.
Proof.
  intros x y H. unfold by_relevance_created, by_created.
  rewrite (@Rltb_false (relevance_score y) (relevance_score x)) by lra.
  rewrite (Reqb_true H). reflexivity.
Qed.

Lemma db_conflict_getRow : getRow db_conflict "a" = Some (row enabled_memory).
Proof. reflexivity. Qed.

Lemma conflict_entity_memories :
  getEntityMemories db_conflict_read "service" 20 =
  [enabled_memory_read; disabled_memory "c" 2; disabled_memory "b" 1].
Proof.
  unfold getEntityMemories.
  rewrite (@stable_sort_ext Row by_relevance_created by_created).
  - reflexivity.
  - assert (Hall : Forall (fun r => relevance_score r = 1) (tbl_memories db_conflict_read))
      by (repeat constructor).
    rewrite Forall_forall in Hall.
    intros x y Hx Hy. apply filter_In in Hx, Hy.
    apply by_relevance_created_same.
    rewrite (Hall x (proj1 Hx)), (Hall y (proj1 Hy)). reflexivity.
Qed.

Lemma conflict_related :
  findRelated db_conflict_read (rowToMemory db_conflict_read (row enabled_memory)) =
  [enabled_memory_read; disabled_memory "c" 2; disabled_memory "b" 1].
Proof.
  assert (H : findRelated db_conflict_read
                (rowToMemory db_conflict_read (row enabled_memory)) =
              fold_left push_new (getEntityMemories db_conflict_read "service" 20) [])
    by reflexivity.
  rewrite H, conflict_entity_memories. reflexivity.
Qed.

Lemma conflict_support_count :
  List.length
    (filter (supports "a" (rowToMemory db_conflict_read (row enabled_memory)))
       (findRelated db_conflict_read (rowToMemory db_conflict_read (row enabled_memory)))) =
  2%nat.
Proof.
  rewrite conflict_related.
  assert (Hsim : forall ident t,
            Rltb 0.4 (contentSimilarity
                        (content (rowToMemory db_conflict_read (row enabled_memory)))
                        (content (disabled_memory ident t))) = true).
  { intros ident t. apply Rltb_true.
    change (contentSimilarity _ _) with (INR 2 / INR 4). simpl. lra. }
  unfold filter, supports. rewrite !Hsim. reflexivity.
Qed.

(** The fact that the service is enabled has, among its related facts, the
    two that say it is disabled; their wording is half the same, so both
    count as support: the fact is verified with two lines of evidence and
    its score 0.9 goes up by 0.05 twice, to the cap. *)
Lemma verifyMemory_outcome_witness :
  verified (fst (verifyMemory db_conflict 5 "a")) = true /\
  List.length (evidence (fst (verifyMemory db_conflict 5 "a"))) = 2%nat /\
  newConfidence (fst (verifyMemory db_conflict 5 "a")) = 1 /\
  verifyMemory db_conflict 5 "missing" =
    (mkVerifyResult false ["Memory not found"] 0, db_conflict).
Proof.
  destruct (@verifyMemory_outcome db_conflict 5%Z "a") as [_ Hfound].
  destruct (@verifyMemory_outcome db_conflict 5%Z "missing") as [Hmissing _].
  specialize (Hfound (row enabled_memory) db_conflict_getRow). cbv zeta in Hfound.
  fold db_conflict_read in Hfound. rewrite conflict_support_count in Hfound.
  destruct Hfound as [Hv [He [_ [Hn _]]]].
  split; [apply Hv; lia |]. split; [apply He; lia |]. split.
  - rewrite Hn.
    + change (score (confidence (row enabled_memory)))
        with (score (computeInitialConfidence
                       (service_input "The service is enabled always"))).
      rewrite initial_score_value. simpl. rewrite Rmin_left; lra.
    + exists 90%Z. split; [lia |].
      change (score (confidence (row enabled_memory)))
        with (score (computeInitialConfidence
                       (service_input "The service is enabled always"))).
      rewrite initial_score_value. simpl. lra.
  - apply Hmissing. reflexivity.
Defined.

(* ================================================================== *)
(** * Part III. Further properties of the code                         *)
(* ================================================================== *)

Unset Implicit Arguments.

(** ** Strings: substrings and the [LIKE] operator *)

Lemma prefix_nil : forall s, prefix EmptyString s = true.
Proof. intros []; reflexivity. Qed.

Lemma prefix_app : forall t s,
  prefix t s = true <-> exists b, s = String.append t b.
Proof.
  induction t as [| c t IH]; intro s.
  - rewrite prefix_nil. split; [intros _; exists s; reflexivity | reflexivity].
  - destruct s as [| d s]; simpl.
    + split; [discriminate | intros [b Hb]; discriminate].
    + destruct (ascii_dec c d) as [-> | Hne].
      * rewrite IH. split; intros [b Hb]; exists b; [rewrite Hb; reflexivity |].
        inversion Hb. reflexivity.
      * split; [discriminate | intros [b Hb]]. inversion Hb. congruence.
Qed.


Lemma append_nil_r : forall a : string, String.append a EmptyString = a.
Proof. induction a as [| x a IH]; simpl; [reflexivity | rewrite IH; reflexivity]. Qed.

Lemma includes_nil : forall t, includes EmptyString t = prefix t EmptyString.
Proof. intro t. cbn [includes]. destruct (prefix t EmptyString); reflexivity. Qed.

Lemma includes_cons : forall d s t,
  includes (String d s) t = (prefix t (String d s) || includes s t).
Proof. intros d s t. cbn [includes]. destruct (prefix t (String d s)); reflexivity. Qed.

(** [s.includes(t)] holds exactly when [t] occurs in [s]. *)
Lemma includes_app : forall s t,
  includes s t = true <-> exists a b, s = String.append a (String.append t b).
Proof.
  induction s as [| d s IH]; intro t.
  - rewrite includes_nil, prefix_app. split.
    + intros [b Hb]. exists EmptyString, b. exact Hb.
    + intros [a [b Hab]]. destruct a; [| discriminate]. exists b. exact Hab.
  - rewrite includes_cons, orb_true_iff, prefix_app, IH. split.
    + intros [[b Hb] | [a [b Hab]]].
      * exists EmptyString, b. exact Hb.
      * exists (String d a), b. simpl. rewrite Hab. reflexivity.
    + intros [a [b Hab]]. destruct a as [| x a].
      * left. exists b. exact Hab.
      * right. simpl in Hab. inversion Hab. exists a, b. reflexivity.
Qed.

Lemma includes_refl : forall s, includes s s = true.
Proof.
  intro s. apply includes_app. exists EmptyString, EmptyString.
  simpl. rewrite append_nil_r. reflexivity.
Qed.





(** ** Sorted results *)

Section StableSort.

Variable A : Type.
Variable before : A -> A -> bool.
Variable ord : A -> A -> Prop.

Hypothesis before_ord : forall x y, before x y = true -> ord x y.
Hypothesis not_before_ord : forall x y, before x y = false -> ord y x.
Hypothesis ord_trans : forall x y z, ord x y -> ord y z -> ord x z.

Lemma insert_sorted_sorted : forall x l,
  StronglySorted ord l -> StronglySorted ord (insert_sorted before x l).
Proof.
  intros x l Hs. induction Hs as [| y l Hs IH Hy]; simpl.
  - constructor; constructor.
  - destruct (before x y) eqn:Hb.
    + constructor; [constructor; assumption |].
      constructor; [apply before_ord; exact Hb |].
      eapply Forall_impl; [| exact Hy]. intros z Hz.
      eapply ord_trans; [apply before_ord; exact Hb | exact Hz].
    + constructor; [exact IH |].
      apply Forall_forall. intros z Hz.
      apply (Permutation_in _ (insert_sorted_perm before x l)) in Hz.
      destruct Hz as [<- | Hz]; [apply not_before_ord; exact Hb |].
      rewrite Forall_forall in Hy. apply Hy. exact Hz.
Qed.

Lemma stable_sort_sorted : forall l, StronglySorted ord (stable_sort before l).
Proof.
  intro l. unfold stable_sort. induction l as [| x l IH]; simpl.
  - constructor.
  - apply insert_sorted_sorted. exact IH.
Qed.

End StableSort.

Lemma StronglySorted_firstn : forall (A : Type) (ord : A -> A -> Prop) n l,
  StronglySorted ord l -> StronglySorted ord (firstn n l).
Proof.
  intros A ord n l Hs. revert n. induction Hs as [| y l Hs IH Hy]; intro n.
  - rewrite firstn_nil. constructor.
  - destruct n as [| n]; [constructor |]. simpl. constructor; [apply IH |].
    apply Forall_forall. intros z Hz. rewrite Forall_forall in Hy.
    apply Hy. apply (firstn_In _ _ _ Hz).
Qed.

Lemma StronglySorted_map : forall (A B : Type) (f : A -> B)
  (ordA : A -> A -> Prop) (ordB : B -> B -> Prop) l,
  (forall x y, ordA x y -> ordB (f x) (f y)) ->
  StronglySorted ordA l -> StronglySorted ordB (map f l).
Proof.
  intros A B f ordA ordB l Hf Hs. induction Hs as [| y l Hs IH Hy]; simpl.
  - constructor.
  - constructor; [exact IH |]. apply Forall_map.
    eapply Forall_impl; [| exact Hy]. intros z Hz. apply Hf. exact Hz.
Qed.

Lemma StronglySorted_sql_limit : forall (A : Type) (ord : A -> A -> Prop) n l,
  StronglySorted ord l -> StronglySorted ord (sql_limit n l).
Proof.
  intros A ord n l Hs. unfold sql_limit.
  destruct (n <? 0)%Z; [exact Hs | apply StronglySorted_firstn; exact Hs].
Qed.

Lemma StronglySorted_slice0 : forall (A : Type) (ord : A -> A -> Prop) n l,
  StronglySorted ord l -> StronglySorted ord (slice0 n l).
Proof.
  intros A ord n l Hs. unfold slice0.
  destruct (0 <=? n)%Z; apply StronglySorted_firstn; exact Hs.
Qed.

Lemma sql_limit_length : forall (A : Type) n (l : list A),
  (0 <= n)%Z -> (Z.of_nat (List.length (sql_limit n l)) <= n)%Z.
Proof.
  intros A n l Hn. unfold sql_limit.
  destruct (Z.ltb_spec n 0); [lia |].
  rewrite length_firstn. lia.
Qed.

Lemma sql_limit_In : forall (A : Type) n (l : list A) x, In x (sql_limit n l) -> In x l.
Proof.
  intros A n l x. unfold sql_limit. destruct (n <? 0)%Z; [auto | apply firstn_In].
Qed.

Lemma sql_limit_all : forall (A : Type) n (l : list A),
  (n < 0 \/ Z.of_nat (List.length l) <= n)%Z -> sql_limit n l = l.
Proof.
  intros A n l H. unfold sql_limit.
  destruct (Z.ltb_spec n 0); [reflexivity |].
  apply firstn_all2. lia.
Qed.

Lemma by_relevance_created_ord : forall x y,
  by_relevance_created x y = true -> ranked_before x y.
Proof.
  intros x y H. unfold by_relevance_created in H. unfold ranked_before.
  apply orb_true_iff in H. destruct H as [H | H].
  - left. apply Rltb_spec. exact H.
  - right. apply andb_true_iff in H. destruct H as [H1 H2].
    split; [apply Reqb_spec; exact H1 | apply Z.leb_le; exact H2].
Qed.

Lemma by_relevance_created_not : forall x y,
  by_relevance_created x y = false -> ranked_before y x.
Proof.
  intros x y H. unfold by_relevance_created in H. unfold ranked_before.
  apply orb_false_iff in H. destruct H as [H1 H2].
  unfold Rltb in H1. destruct (Rlt_dec (relevance_score y) (relevance_score x)) as [| Hn];
    [discriminate |].
  destruct (Req_dec_T (relevance_score x) (relevance_score y)) as [He | Hne].
  - rewrite (Reqb_true He) in H2. simpl in H2. apply Z.leb_gt in H2.
    right. split; [symmetry; exact He | lia].
  - left. lra.
Qed.

Lemma ranked_before_trans : forall x y z,
  ranked_before x y -> ranked_before y z -> ranked_before x z.
Proof.
  unfold ranked_before. intros x y z [H1 | [H1 H1']] [H2 | [H2 H2']].
  - left. lra.
  - left. lra.
  - left. lra.
  - right. split; [congruence | lia].
Qed.

Lemma by_finalScore_not : forall a b, by_finalScore a b = false -> scored_before b a.
Proof.
  intros a b H. unfold by_finalScore, Rleb in H. unfold scored_before.
  destruct (Rle_dec (finalScore b) (finalScore a)); [discriminate | lra].
Qed.

Lemma by_finalScore_ord : forall a b, by_finalScore a b = true -> scored_before a b.
Proof. intros a b H. apply Rleb_spec. exact H. Qed.

Lemma scored_before_trans : forall a b c,
  scored_before a b -> scored_before b c -> scored_before a c.
Proof. unfold scored_before. intros a b c H1 H2. lra. Qed.

(** ** Quick recall: the cut by rank *)

Lemma StronglySorted_app_cross : forall (A : Type) (ord : A -> A -> Prop) l1 l2,
  StronglySorted ord (l1 ++ l2) ->
  forall x y, In x l1 -> In y l2 -> ord x y.
Proof.
  intros A ord l1 l2. induction l1 as [| a l1 IH]; intros Hs x y Hx Hy; [destruct Hx |].
  simpl in Hs. inversion Hs as [| ? ? Hs' Hall]; subst.
  destruct Hx as [<- | Hx].
  - rewrite Forall_forall in Hall. apply Hall. apply in_or_app. right. exact Hy.
  - apply IH; assumption.
Qed.

Lemma quickRecall_sorted_hits : forall db text limit,
  quickRecall db text limit =
  slice0 limit
    (stable_sort by_finalScore (map (quick_result text) (searchByText db text (limit * 3)))).
Proof. reflexivity. Qed.

(** C3, amended.  [quickRecall] applies none of the filters of step 4: each
    of its results is a hit of the text search on at most three times
    [limit] facts, scored with the lexical match alone and
    [finalScore = matchScore * trust * relevance]; the results are ranked by
    final score, the best first; and for a non-negative [limit] the hits are
    cut down by rank to the first [limit] only, whatever their trust,
    relevance and final score: the results and the hits left out are
    together all the hits, there are [limit] results or as many as there are
    hits, and no hit left out has a higher final score than a result. *)
Theorem quickRecall_unfiltered : forall db text limit,
  (forall r, In r (quickRecall db text limit) ->
     In (memory r) (searchByText db text (limit * 3)) /\
     matchScore r = textMatchScore text (memory r) /\
     finalScore r =
       matchScore r * score (confidence (memory r)) * relevance_score (memory r)) /\
  StronglySorted scored_before (quickRecall db text limit) /\
  ((0 <= limit)%Z ->
   List.length (quickRecall db text limit) =
   Nat.min (Z.to_nat limit) (List.length (searchByText db text (limit * 3))) /\
   exists rest,
     Permutation (quickRecall db text limit ++ rest)
                 (map (quick_result text) (searchByText db text (limit * 3))) /\
     (forall r r', In r (quickRecall db text limit) -> In r' rest ->
                   finalScore r' <= finalScore r)).
Proof.
  intros db text limit. rewrite quickRecall_sorted_hits.
  pose proof (stable_sort_sorted RecallResult by_finalScore scored_before
                by_finalScore_ord by_finalScore_not scored_before_trans
                (map (quick_result text) (searchByText db text (limit * 3)))) as Hsorted.
  split; [| split].
  - intros r Hr. apply slice0_In in Hr. apply stable_sort_In in Hr.
    apply in_map_iff in Hr. destruct Hr as [m [Hm Hin]]. subst r.
    cbn [memory matchScore finalScore quick_result]. repeat split. exact Hin.
  - apply StronglySorted_slice0. exact Hsorted.
  - intro Hl. split.
    + rewrite slice0_length by exact Hl.
      rewrite stable_sort_length, length_map. reflexivity.
    + unfold slice0 in *. apply Z.leb_le in Hl. rewrite Hl.
      set (ranked := stable_sort by_finalScore
                       (map (quick_result text) (searchByText db text (limit * 3)))) in *.
      exists (skipn (Z.to_nat limit) ranked). split.
      * rewrite firstn_skipn. apply stable_sort_perm.
      * intros r r' Hr Hr'. rewrite <- (firstn_skipn (Z.to_nat limit) ranked) in Hsorted.
        apply (StronglySorted_app_cross _ _ _ _ Hsorted r r' Hr Hr').
Qed.

(** ** The read queries of the store *)

Lemma NoDup_firstn : forall (A : Type) n (l : list A), NoDup l -> NoDup (firstn n l).
Proof.
  intros A n l H. rewrite <- (firstn_skipn n l) in H.
  apply NoDup_app_remove_r in H. exact H.
Qed.

Lemma NoDup_sql_limit : forall (A : Type) n (l : list A), NoDup l -> NoDup (sql_limit n l).
Proof.
  intros A n l H. unfold sql_limit. destruct (n <? 0)%Z; [exact H | apply NoDup_firstn; exact H].
Qed.

Lemma firstn_map_comm : forall (A B : Type) (f : A -> B) n l,
  map f (firstn n l) = firstn n (map f l).
Proof. intros A B f n l. symmetry. apply firstn_map. Qed.

Lemma sql_limit_map : forall (A B : Type) (f : A -> B) n l,
  map f (sql_limit n l) = sql_limit n (map f l).
Proof.
  intros A B f n l. unfold sql_limit. destruct (n <? 0)%Z; [reflexivity |].
  apply firstn_map_comm.
Qed.

Section Select.

Variable db : Db.
Variable before : Row -> Row -> bool.
Variable ord : Row -> Row -> Prop.
Variable cond : Row -> bool.
Variable limit : Z.

(** The order in which the rows reach the sort: that of the table or its
    reverse. *)
Variable arrive : list Row -> list Row.

Hypothesis before_ord : forall x y, before x y = true -> ord x y.
Hypothesis not_before_ord : forall x y, before x y = false -> ord y x.
Hypothesis ord_trans : forall x y z, ord x y -> ord y z -> ord x z.
Hypothesis arrive_perm : forall l, Permutation (arrive l) l.

Lemma select_query_result :
  query_result db ord cond limit
    (map (rowToMemory db)
       (sql_limit limit (stable_sort before (arrive (filter cond (tbl_memories db)))))).
Proof.
  assert (Hperm : Permutation
                    (stable_sort before (arrive (filter cond (tbl_memories db))))
                    (filter cond (tbl_memories db))).
  { eapply perm_trans; [apply stable_sort_perm | apply arrive_perm]. }
  unfold query_result. split; [| split; [| split; [| split]]].
  - apply StronglySorted_map with (ordA := ord); [intros x y H; exact H |].
    apply StronglySorted_sql_limit.
    apply (stable_sort_sorted Row before ord before_ord not_before_ord ord_trans).
  - intro Hl. rewrite length_map. apply sql_limit_length. exact Hl.
  - intros m Hm. apply in_map_iff in Hm. destruct Hm as [r [Hr Hin]].
    apply sql_limit_In in Hin. apply (Permutation_in _ Hperm) in Hin.
    apply filter_In in Hin. exists r. split; [apply Hin | split; [apply Hin | auto]].
  - intro Hwf. rewrite map_map.
    change (fun x : Row => id (rowToMemory db x)) with id.
    rewrite sql_limit_map. apply NoDup_sql_limit.
    apply (Permutation_NoDup
             (l := map id (filter cond (tbl_memories db)))).
    + apply Permutation_map. apply Permutation_sym. exact Hperm.
    + apply NoDup_ids_filter. exact Hwf.
  - intros r Hr Hc Hl. apply in_map. rewrite sql_limit_all.
    + apply (Permutation_in _ (Permutation_sym Hperm)).
      apply filter_In. split; assumption.
    + rewrite (Permutation_length Hperm). exact Hl.
Qed.

End Select.

Lemma arrive_as_stored : forall l : list Row, Permutation ((fun l => l) l) l.
Proof. intro l. apply Permutation_refl. Qed.

Lemma arrive_newest_first : forall l : list Row, Permutation (rev l) l.
Proof. intro l. apply Permutation_sym. apply Permutation_rev. Qed.

Lemma filter_all : forall (A : Type) (l : list A), filter (fun _ => true) l = l.
Proof.
  intros A l. induction l as [| x l IH]; simpl; [reflexivity | f_equal; exact IH].
Qed.

(** X1.  The four read queries of the store return their rows in the order
    of their [ORDER BY] (relevance, then time of creation, descending; for
    [getAllMemories] the newest first), at most [LIMIT] of them for a
    non-negative limit, every one a row of the table that meets the
    condition of the query, no fact twice, and all qualifying rows when the
    limit is negative or not below their number. *)
Theorem store_queries_meet_their_clauses : forall db limit,
  (forall text,
     query_result db ranked_before
       (fun r => like_contains text (Some (content r)) || like_contains text (summary r))
       limit (searchByText db text limit)) /\
  (forall cat,
     query_result db ranked_before
       (fun r => MemoryCategory_eqb (category r) cat)
       limit (searchByCategory db cat limit)) /\
  (forall entityId,
     query_result db ranked_before (is_linked db entityId)
       limit (getEntityMemories db entityId limit)) /\
  query_result db newer_before (fun _ => true) limit (getAllMemories db limit).
Proof.
  intros db limit. split; [| split; [| split]].
  - intro text.
    apply (select_query_result db by_relevance_created ranked_before _ limit (@rev Row)
             by_relevance_created_ord by_relevance_created_not ranked_before_trans
             arrive_newest_first).
  - intro cat.
    apply (select_query_result db by_relevance_created ranked_before _ limit (fun l => l)
             by_relevance_created_ord by_relevance_created_not ranked_before_trans
             arrive_as_stored).
  - intro entityId.
    apply (select_query_result db by_relevance_created ranked_before _ limit (fun l => l)
             by_relevance_created_ord by_relevance_created_not ranked_before_trans
             arrive_as_stored).
  - assert (H : getAllMemories db limit =
                map (rowToMemory db)
                  (sql_limit limit
                     (stable_sort by_created
                        (rev (filter (fun _ => true) (tbl_memories db)))))).
    { unfold getAllMemories. rewrite filter_all. reflexivity. }
    rewrite H.
    apply (select_query_result db by_created newer_before (fun _ => true) limit (@rev Row)).
    + intros x y Hb. unfold by_created in Hb. unfold newer_before. apply Z.leb_le. exact Hb.
    + intros x y Hb. unfold by_created in Hb. unfold newer_before.
      apply Z.leb_gt in Hb. lia.
    + unfold newer_before. intros x y z H1 H2. lia.
    + exact arrive_newest_first.
Qed.




(** ** The lexical match score *)




(** The count of [textMatchScore] over the terms. *)
Lemma match_count_bounds : forall contentLower summaryLower terms acc,
  let total :=
    fold_left
      (fun matches term =>
         let m1 := if includes contentLower term then matches + 1 else matches in
         if includes summaryLower term then m1 + 0.5 else m1)
      terms acc in
  acc <= total <= acc + 1.5 * INR (List.length terms) /\
  ((forall t, In t terms -> includes contentLower t = true) ->
   acc + INR (List.length terms) <= total) /\
  ((forall t, In t terms -> includes summaryLower t = true) ->
   acc + 0.5 * INR (List.length terms) <= total).
Proof.
  intros contentLower summaryLower terms. induction terms as [| t terms IH]; intro acc.
  - simpl. repeat split; try intros _; lra.
  - cbv zeta. simpl fold_left. rewrite length_cons, S_INR.
    set (acc' := if includes summaryLower t
                 then (if includes contentLower t then acc + 1 else acc) + 0.5
                 else (if includes contentLower t then acc + 1 else acc)).
    destruct (IH acc') as [[H1 H2] [H3 H4]].
    assert (Hacc : acc <= acc' <= acc + 1.5).
    { unfold acc'. destruct (includes summaryLower t), (includes contentLower t); lra. }
    assert (Hn : 0 <= INR (List.length terms)) by apply pos_INR.
    split; [split; lra |]. split.
    + intro Hall. assert (Hc : includes contentLower t = true) by (apply Hall; left; reflexivity).
      assert (acc + 1 <= acc').
      { unfold acc'. rewrite Hc. destruct (includes summaryLower t); lra. }
      specialize (H3 (fun u Hu => Hall u (or_intror Hu))). lra.
    + intro Hall. assert (Hc : includes summaryLower t = true) by (apply Hall; left; reflexivity).
      assert (acc + 0.5 <= acc').
      { unfold acc'. rewrite Hc. destruct (includes contentLower t); lra. }
      specialize (H4 (fun u Hu => Hall u (or_intror Hu))). lra.
Qed.

Lemma textMatchScore_unfold : forall query (memory : Memory),
  textMatchScore query memory =
  if Nat.eqb (List.length (query_terms query)) 0 then 0
  else
    Rmin 1
      ((if includes (toLowerCase (content memory)) (toLowerCase query)
        then fold_left
               (fun matches term =>
                  let m1 := if includes (toLowerCase (content memory)) term
                            then matches + 1 else matches in
                  if includes (toLowerCase (orElse (summary memory) "")) term
                  then m1 + 0.5 else m1)
               (query_terms query) 0 + INR (List.length (query_terms query))
        else fold_left
               (fun matches term =>
                  let m1 := if includes (toLowerCase (content memory)) term
                            then matches + 1 else matches in
                  if includes (toLowerCase (orElse (summary memory) "")) term
                  then m1 + 0.5 else m1)
               (query_terms query) 0) /
       (INR (List.length (query_terms query)) * 2)).
Proof. reflexivity. Qed.

(** The lexical score lies in the unit interval. *)
Lemma textMatchScore_range : forall query (memory : Memory),
  0 <= textMatchScore query memory <= 1.
Proof.
  intros query memory. rewrite textMatchScore_unfold.
  destruct (Nat.eqb_spec (List.length (query_terms query)) 0) as [| Hn]; [lra |].
  assert (Hpos : 0 < INR (List.length (query_terms query))).
  { apply lt_0_INR. lia. }
  destruct (match_count_bounds (toLowerCase (content memory))
              (toLowerCase (orElse (summary memory) "")) (query_terms query) 0)
    as [[H1 _] _]. cbv zeta in H1.
  split; [| apply Rmin_l].
  apply Rmin_glb; [lra |].
  apply Rmult_le_pos; [| left; apply Rinv_0_lt_compat; lra].
  destruct (includes _ (toLowerCase query)); lra.
Qed.






(** ** The results of a recall: one per fact, ranked, within the limit *)

Lemma NoDup_map_filter : forall (A B : Type) (f : A -> B) (p : A -> bool) l,
  NoDup (map f l) -> NoDup (map f (filter p l)).
Proof.
  intros A B f p l. induction l as [| x l IH]; intro H; simpl; [constructor |].
  inversion H as [| ? ? Hx Hl]; subst.
  destruct (p x); simpl; [| apply IH; exact Hl].
  constructor; [| apply IH; exact Hl].
  intro Hin. apply Hx. apply in_map_iff in Hin. destruct Hin as [y [Hy Hin]].
  apply filter_In in Hin. rewrite <- Hy. apply in_map. apply Hin.
Qed.

Lemma NoDup_slice0 : forall (A : Type) n (l : list A), NoDup l -> NoDup (slice0 n l).
Proof.
  intros A n l H. unfold slice0. destruct (0 <=? n)%Z; apply NoDup_firstn; exact H.
Qed.

Lemma slice0_map : forall (A B : Type) (f : A -> B) n l,
  map f (slice0 n l) = slice0 n (map f l).
Proof.
  intros A B f n l. unfold slice0. rewrite length_map.
  destruct (0 <=? n)%Z; apply firstn_map_comm.
Qed.

Lemma slice0_bound : forall (A : Type) n (l : list A),
  (0 <= n)%Z -> (Z.of_nat (List.length (slice0 n l)) <= n)%Z.
Proof.
  intros A n l Hn. rewrite slice0_length by exact Hn. lia.
Qed.

Lemma map_has_spec : forall k (m : CandidateMap),
  map_has k m = true <-> In k (map fst m).
Proof.
  intros k m. unfold map_has. rewrite existsb_exists, in_map_iff. split.
  - intros [e [He Hk]]. exists e. split; [apply String.eqb_eq; exact Hk | exact He].
  - intros [e [Hk He]]. exists e. split; [exact He | apply String.eqb_eq; exact Hk].
Qed.

Lemma map_set_ok : forall k (v : Memory * Scores) (m : CandidateMap),
  k = id (fst v) -> cm_ok m -> cm_ok (map_set k v m).
Proof.
  intros k v m Hk [Hnd Hall]. unfold map_set.
  destruct (map_has k m) eqn:Hh.
  - split.
    + rewrite map_map. erewrite map_ext; [exact Hnd |].
      intro e. simpl. destruct (String.eqb_spec (fst e) k) as [-> | _]; reflexivity.
    + apply Forall_map. eapply Forall_impl; [| exact Hall].
      intros e He. destruct (String.eqb (fst e) k); [exact Hk | exact He].
  - split.
    + rewrite map_app. simpl. apply NoDup_app; [exact Hnd | repeat constructor; simpl; tauto |].
      intros x Hx [<- | []].
      apply map_has_spec in Hx. congruence.
    + apply Forall_app. split; [exact Hall |]. constructor; [exact Hk | constructor].
Qed.

Lemma map_update_scores_ok : forall k f (m : CandidateMap),
  cm_ok m -> cm_ok (map_update_scores k f m).
Proof.
  intros k f m [Hnd Hall]. unfold map_update_scores. split.
  - rewrite map_map. erewrite map_ext; [exact Hnd |].
    intro e. destruct (String.eqb (fst e) k); reflexivity.
  - apply Forall_map. eapply Forall_impl; [| exact Hall].
    intros e He. destruct (String.eqb (fst e) k); exact He.
Qed.

Lemma fold_left_keeps : forall (A S : Type) (P : S -> Prop) (f : S -> A -> S) (l : list A),
  (forall s a, P s -> P (f s a)) -> forall s, P s -> P (fold_left f l s).
Proof.
  intros A S P f l Hf. induction l as [| a l IH]; intros s Hs; simpl; [exact Hs |].
  apply IH. apply Hf. exact Hs.
Qed.

Lemma gather_text_ok : forall db text limit, cm_ok (gather_text db text limit).
Proof.
  intros db text limit. unfold gather_text.
  apply fold_left_keeps.
  - intros m mem Hm. apply map_set_ok; [reflexivity | exact Hm].
  - split; constructor.
Qed.

Lemma gather_entities_ok : forall db ents limit m,
  cm_ok m -> cm_ok (gather_entities db ents limit m).
Proof.
  intros db ents limit m Hm. unfold gather_entities.
  destruct (nonempty ents); [| exact Hm].
  apply fold_left_keeps; [| exact Hm].
  intros m1 entityId Hm1. apply fold_left_keeps; [| exact Hm1].
  intros m2 mem Hm2. apply map_update_scores_ok.
  destruct (map_has (id mem) m2); [exact Hm2 |].
  apply map_set_ok; [reflexivity | exact Hm2].
Qed.

Lemma gather_categories_ok : forall db cats limit m,
  cm_ok m -> cm_ok (gather_categories db cats limit m).
Proof.
  intros db cats limit m Hm. unfold gather_categories.
  destruct (nonempty cats); [| exact Hm].
  apply fold_left_keeps; [| exact Hm].
  intros m1 cat Hm1. apply fold_left_keeps; [| exact Hm1].
  intros m2 mem Hm2.
  destruct (map_has (id mem) m2); [exact Hm2 |].
  apply map_set_ok; [reflexivity | exact Hm2].
Qed.

Lemma getMemory_id : forall db now ident mem db',
  getMemory db now ident = (Some mem, db') -> id mem = ident.
Proof.
  intros db now ident mem db' H. unfold getMemory in H.
  destruct (getRow db ident) as [r |] eqn:Hr; [| discriminate].
  inversion H; subst. simpl. apply (getRow_In _ _ Hr).
Qed.

Lemma semantic_step_ok : forall now q st e,
  cm_ok (fst st) -> cm_ok (fst (semantic_step now q st e)).
Proof.
  intros now q [m db] e Hm. unfold semantic_step. simpl in Hm.
  destruct (Rltb 0.5 _); [| exact Hm].
  destruct (map_has (fst e) m); [apply map_update_scores_ok; exact Hm |].
  destruct (getMemory db now (fst e)) as [[mem |] db'] eqn:Hg; [| exact Hm].
  simpl. apply map_set_ok; [| exact Hm].
  simpl. symmetry. apply (getMemory_id _ _ _ _ _ Hg).
Qed.

Lemma gather_semantic_ok : forall db embedder now text m,
  cm_ok m -> cm_ok (fst (gather_semantic db embedder now text m)).
Proof.
  intros db embedder now text m Hm. unfold gather_semantic.
  destruct embedder as [embed |]; [| exact Hm].
  apply (fold_left_keeps _ _ (fun st : CandidateMap * Db => cm_ok (fst st))).
  - intros st e Hst. apply semantic_step_ok. exact Hst.
  - exact Hm.
Qed.

Lemma score_candidate_id : forall query minConf minRel (c : string * (Memory * Scores)) r,
  In r (score_candidate query minConf minRel c) -> memory r = fst (snd c).
Proof.
  intros query minConf minRel c r. unfold score_candidate.
  destruct (Rltb _ minConf); [intros [] |].
  destruct (_ && _); [intros [] |].
  intros [<- | []]. reflexivity.
Qed.

Lemma scored_ids : forall query minConf minRel (cm : CandidateMap),
  cm_ok cm ->
  NoDup (map result_id (flat_map (score_candidate query minConf minRel) cm)) /\
  (forall x, In x (map result_id (flat_map (score_candidate query minConf minRel) cm)) ->
             In x (map fst cm)).
Proof.
  intros query minConf minRel cm. induction cm as [| c cm IH]; intros [Hnd Hall].
  - simpl. split; [constructor | intros x []].
  - inversion Hnd as [| ? ? Hc Hnd']; subst. inversion Hall as [| ? ? Hk Hall']; subst.
    destruct (IH (conj Hnd' Hall')) as [IH1 IH2].
    simpl flat_map. rewrite map_app.
    assert (Hhead : forall x,
              In x (map result_id (score_candidate query minConf minRel c)) -> x = fst c).
    { intros x Hx. apply in_map_iff in Hx. destruct Hx as [r [<- Hr]].
      unfold result_id. rewrite (score_candidate_id _ _ _ _ _ Hr). symmetry. exact Hk. }
    split.
    + apply NoDup_app; [| exact IH1 |].
      * unfold score_candidate. destruct (Rltb _ minConf); [constructor |].
        destruct (_ && _); [constructor |]. simpl. constructor; [simpl; tauto | constructor].
      * intros x Hx Hx'. rewrite (Hhead x Hx) in Hx'. apply Hc. apply IH2. exact Hx'.
    + intros x Hx. apply in_app_or in Hx. destruct Hx as [Hx | Hx].
      * left. symmetry. apply Hhead. exact Hx.
      * right. apply IH2. exact Hx.
Qed.

(** X4.  The results of the full recall are ranked by final score, the
    best first; for a non-negative limit there are at most [limit] of them
    (10 by default); and no fact appears twice, however many channels found
    it. *)
Theorem recall_ranked_bounded_distinct : forall db embedder now query,
  StronglySorted scored_before (fst (recall db embedder now query)) /\
  ((0 <= orElse (q_limit query) 10)%Z ->
   (Z.of_nat (List.length (fst (recall db embedder now query))) <=
    orElse (q_limit query) 10)%Z) /\
  NoDup (map result_id (fst (recall db embedder now query))).
Proof.
  intros db embedder now query. unfold recall.
  pose proof (gather_semantic_ok db embedder now (q_text query) _
                (gather_categories_ok db (q_categories query) (orElse (q_limit query) 10%Z) _
                   (gather_entities_ok db (q_entities query) (orElse (q_limit query) 10%Z) _
                      (gather_text_ok db (q_text query) (orElse (q_limit query) 10%Z)))))
    as Hok.
  destruct (gather_semantic db embedder now (q_text query) _) as [cm db'].
  cbn [fst] in *. split; [| split].
  - apply StronglySorted_slice0.
    apply (stable_sort_sorted _ by_finalScore scored_before
             by_finalScore_ord by_finalScore_not scored_before_trans).
  - intro Hl. apply slice0_bound. exact Hl.
  - rewrite slice0_map. apply NoDup_slice0.
    apply (Permutation_NoDup
             (l := map result_id
                     (filter (fun r => Rleb minFinalScore (finalScore r))
                        (flat_map (score_candidate query (orElse (minConfidence query) 0.3)
                                     (orElse (minRelevance query) 0.1)) cm)))).
    + apply Permutation_map. apply Permutation_sym. apply stable_sort_perm.
    + apply NoDup_map_filter. apply scored_ids. exact Hok.
Qed.

(** ** The cosine similarity *)

Lemma fold_left_sum : forall (A : Type) (g : A -> R) (l : list A) (a : R),
  fold_left (fun acc p => acc + g p) l a = a + fold_left (fun acc p => acc + g p) l 0.
Proof.
  intros A g l. induction l as [| p l IH]; intro a; simpl.
  - lra.
  - rewrite (IH (a + g p)), (IH (0 + g p)). lra.
Qed.

Lemma fold_left_sum_cons : forall (A : Type) (g : A -> R) (p : A) (l : list A),
  fold_left (fun acc p => acc + g p) (p :: l) 0 =
  g p + fold_left (fun acc p => acc + g p) l 0.
Proof.
  intros A g p l. simpl. rewrite fold_left_sum. lra.
Qed.

Lemma fold_left_sum_ext : forall (A : Type) (g h : A -> R) (l : list A),
  (forall p, g p = h p) ->
  fold_left (fun acc p => acc + g p) l 0 = fold_left (fun acc p => acc + h p) l 0.
Proof.
  intros A g h l Hgh. induction l as [| p l IH].
  - reflexivity.
  - rewrite !fold_left_sum_cons, IH, Hgh. reflexivity.
Qed.

Lemma fold_left_sum_swap : forall (g : R * R -> R) (a b : list R),
  fold_left (fun acc p => acc + g p) (combine a b) 0 =
  fold_left (fun acc p => acc + g (snd p, fst p)) (combine b a) 0.
Proof.
  intros g a. induction a as [| x a IH]; intros [| y b]; try reflexivity.
  change (combine (x :: a) (y :: b)) with ((x, y) :: combine a b).
  change (combine (y :: b) (x :: a)) with ((y, x) :: combine b a).
  rewrite !fold_left_sum_cons, IH. reflexivity.
Qed.

(** X5.  The cosine similarity does not depend on the order of its two
    vectors, and it is 0 for vectors of different lengths and for two empty
    vectors. *)
Theorem cosineSimilarity_symmetric :
  (forall a b, cosineSimilarity a b = cosineSimilarity b a) /\
  (forall a b, List.length a <> List.length b -> cosineSimilarity a b = 0) /\
  cosineSimilarity [] [] = 0.
Proof.
  split; [| split].
  - intros a b. unfold cosineSimilarity.
    rewrite (Nat.eqb_sym (List.length b) (List.length a)).
    destruct (negb _); [reflexivity |].
    rewrite (fold_left_sum_swap (fun p => fst p * snd p) a b),
            (fold_left_sum_swap (fun p => fst p * fst p) a b),
            (fold_left_sum_swap (fun p => snd p * snd p) a b).
    cbn [fst snd].
    rewrite (fold_left_sum_ext _ (fun p : R * R => snd p * fst p) (fun p => fst p * snd p))
      by (intro p; ring).
    rewrite (Rmult_comm (sqrt (fold_left (fun acc p => acc + snd p * snd p) (combine b a) 0))).
    reflexivity.
  - intros a b Hlen. unfold cosineSimilarity.
    apply Nat.eqb_neq in Hlen. rewrite Hlen. reflexivity.
  - unfold cosineSimilarity. cbn [List.length Nat.eqb negb combine fold_left].
    rewrite sqrt_0, Rmult_0_l. rewrite Reqb_true by reflexivity. reflexivity.
Qed.

(** ** The scores of a recall *)

Lemma map_set_scored : forall lexical k (v : Memory * Scores) (m : CandidateMap),
  scores_ok lexical (snd v) -> cm_scored lexical m -> cm_scored lexical (map_set k v m).
Proof.
  intros lexical k v m Hv Hm. unfold map_set, cm_scored in *.
  destruct (map_has k m).
  - apply Forall_map. eapply Forall_impl; [| exact Hm].
    intros e He. destruct (String.eqb (fst e) k); [exact Hv | exact He].
  - apply Forall_app. split; [exact Hm |]. constructor; [exact Hv | constructor].
Qed.

Lemma map_update_scores_scored : forall lexical k f (m : CandidateMap),
  (forall s, scores_ok lexical s -> scores_ok lexical (f s)) ->
  cm_scored lexical m -> cm_scored lexical (map_update_scores k f m).
Proof.
  intros lexical k f m Hf Hm. unfold map_update_scores, cm_scored in *.
  apply Forall_map. eapply Forall_impl; [| exact Hm].
  intros e He. destruct (String.eqb (fst e) k); [apply Hf; exact He | exact He].
Qed.

Lemma no_scores_ok : forall lexical, scores_ok lexical no_scores.
Proof. intros []; unfold scores_ok, no_scores; simpl; repeat split; lra. Qed.

Lemma set_entity_score_ok : forall lexical s,
  scores_ok lexical s -> scores_ok lexical (set_entity_score 1 s).
Proof.
  intros lexical s [H1 [H2 H3]]. unfold scores_ok, set_entity_score. simpl.
  split; [exact H1 | split; [exact H2 | lra]].
Qed.

Lemma set_semantic_score_ok : forall v s,
  0 <= v -> scores_ok false s -> scores_ok false (set_semantic_score v s).
Proof.
  intros v s Hv [H1 [H2 H3]]. unfold scores_ok, set_semantic_score. simpl.
  split; [exact H1 | split; [exact Hv | exact H3]].
Qed.

Lemma gather_text_scored : forall lexical db text limit,
  cm_scored lexical (gather_text db text limit).
Proof.
  intros lexical db text limit. unfold gather_text.
  apply fold_left_keeps; [| constructor].
  intros m mem Hm. apply map_set_scored; [| exact Hm].
  pose proof (textMatchScore_range text mem). unfold scores_ok. simpl.
  destruct lexical; repeat split; lra.
Qed.

Lemma gather_entities_scored : forall lexical db ents limit m,
  cm_scored lexical m -> cm_scored lexical (gather_entities db ents limit m).
Proof.
  intros lexical db ents limit m Hm. unfold gather_entities.
  destruct (nonempty ents); [| exact Hm].
  apply fold_left_keeps; [| exact Hm].
  intros m1 entityId Hm1. apply fold_left_keeps; [| exact Hm1].
  intros m2 mem Hm2.
  apply map_update_scores_scored; [exact (set_entity_score_ok lexical) |].
  destruct (map_has (id mem) m2); [exact Hm2 |].
  apply map_set_scored; [exact (no_scores_ok lexical) | exact Hm2].
Qed.

Lemma gather_categories_scored : forall lexical db cats limit m,
  cm_scored lexical m -> cm_scored lexical (gather_categories db cats limit m).
Proof.
  intros lexical db cats limit m Hm. unfold gather_categories.
  destruct (nonempty cats); [| exact Hm].
  apply fold_left_keeps; [| exact Hm].
  intros m1 cat Hm1. apply fold_left_keeps; [| exact Hm1].
  intros m2 mem Hm2.
  destruct (map_has (id mem) m2); [exact Hm2 |].
  apply map_set_scored; [exact (no_scores_ok lexical) | exact Hm2].
Qed.

Lemma semantic_step_scored : forall now q st e,
  cm_scored false (fst st) -> cm_scored false (fst (semantic_step now q st e)).
Proof.
  intros now q [m db] e Hm. unfold semantic_step. simpl in Hm.
  destruct (Rltb 0.5 _) eqn:Hs; [| exact Hm].
  apply Rltb_spec in Hs.
  destruct (map_has (fst e) m).
  - apply map_update_scores_scored; [| exact Hm].
    intros s Hsc. apply set_semantic_score_ok; [lra | exact Hsc].
  - destruct (getMemory db now (fst e)) as [[mem |] db'] eqn:Hg; [| exact Hm].
    simpl. apply map_set_scored; [| exact Hm].
    unfold scores_ok. simpl. lra.
Qed.

Lemma gather_semantic_scored : forall db embedder now text m,
  cm_scored false m -> cm_scored false (fst (gather_semantic db embedder now text m)).
Proof.
  intros db embedder now text m Hm. unfold gather_semantic.
  destruct embedder as [embed |]; [| exact Hm].
  apply (fold_left_keeps _ _ (fun st : CandidateMap * Db => cm_scored false (fst st))).
  - intros st e Hst. apply semantic_step_scored. exact Hst.
  - exact Hm.
Qed.

Lemma computeMatchScore_nonneg : forall s,
  scores_ok false s -> 0 <= computeMatchScore s.
Proof.
  intros s [H1 [H2 H3]]. unfold computeMatchScore.
  destruct (Rltb 0 (s_semantic s)); lra.
Qed.

Lemma computeMatchScore_lexical : forall s,
  scores_ok true s -> computeMatchScore s <= 1.
Proof.
  intros s [H1 [H2 H3]]. unfold computeMatchScore.
  rewrite H2. rewrite (@Rltb_false 0 0) by lra. lra.
Qed.

Lemma contextBoost_range : forall ctx (memory : Memory),
  1 <= contextBoost ctx memory <= 1.3.
Proof.
  intros ctx memory. unfold contextBoost.
  destruct (truthy _); [| lra].
  set (terms := filter (fun t => (3 <? String.length t)%nat) (split_ws (toLowerCase ctx))).
  set (hits := filter _ terms).
  assert (Hle : (List.length hits <= Nat.max (List.length terms) 1)%nat).
  { pose proof (filter_length_le
                  (fun term => includes (toLowerCase (orElse (context (attribution memory)) ""))
                                 term) terms) as H.
    fold hits in H. lia. }
  assert (Hpos : 0 < INR (Nat.max (List.length terms) 1)).
  { apply lt_0_INR. lia. }
  apply le_INR in Hle. pose proof (pos_INR (List.length hits)) as H0.
  assert (Hq : 0 <= INR (List.length hits) / INR (Nat.max (List.length terms) 1) <= 1).
  { split.
    - apply Rmult_le_pos; [exact H0 | left; apply Rinv_0_lt_compat; exact Hpos].
    - apply (Rmult_le_reg_r (INR (Nat.max (List.length terms) 1))); [exact Hpos |].
      unfold Rdiv. rewrite Rmult_assoc, Rinv_l by lra. lra. }
  lra.
Qed.

Lemma score_candidate_scores : forall query minConf minRel (c : string * (Memory * Scores)) r,
  In r (score_candidate query minConf minRel c) ->
  matchScore r = computeMatchScore (snd (snd c)) /\
  exists boost,
    1 <= boost <= 1.3 /\
    (truthy (q_context query) = false -> boost = 1) /\
    finalScore r =
    matchScore r * score (confidence (memory r)) * relevance_score (memory r) * boost.
Proof.
  intros query minConf minRel c r. unfold score_candidate.
  destruct (Rltb _ minConf); [intros [] |].
  destruct (_ && _); [intros [] |].
  intros [<- | []]. cbn [matchScore finalScore memory].
  split; [reflexivity |].
  destruct (truthy (q_context query)).
  - exists (contextBoost (orElse (q_context query) "") (fst (snd c))).
    split; [apply contextBoost_range | split; [discriminate | reflexivity]].
  - exists 1. split; [lra | split; reflexivity].
Qed.

(** The candidates of a recall and their scores. *)
Lemma recall_candidates : forall db embedder now query r,
  In r (fst (recall db embedder now query)) ->
  exists c,
    In r (score_candidate query (orElse (minConfidence query) 0.3)
            (orElse (minRelevance query) 0.1) c) /\
    scores_ok false (snd (snd c)) /\
    (embedder = None -> scores_ok true (snd (snd c))) /\
    0.15 <= finalScore r.
Proof.
  intros db embedder now query r. unfold recall.
  pose proof (gather_semantic_scored db embedder now (q_text query) _
                (gather_categories_scored false db (q_categories query)
                   (orElse (q_limit query) 10%Z) _
                   (gather_entities_scored false db (q_entities query)
                      (orElse (q_limit query) 10%Z) _
                      (gather_text_scored false db (q_text query)
                         (orElse (q_limit query) 10%Z)))))
    as Hok.
  pose proof (gather_categories_scored true db (q_categories query)
                (orElse (q_limit query) 10%Z) _
                (gather_entities_scored true db (q_entities query)
                   (orElse (q_limit query) 10%Z) _
                   (gather_text_scored true db (q_text query)
                      (orElse (q_limit query) 10%Z))))
    as Hlex.
  assert (Hnone : embedder = None ->
            cm_scored true
              (fst (gather_semantic db embedder now (q_text query)
                      (gather_categories db (q_categories query)
                         (orElse (q_limit query) 10%Z)
                         (gather_entities db (q_entities query)
                            (orElse (q_limit query) 10%Z)
                            (gather_text db (q_text query)
                               (orElse (q_limit query) 10%Z))))))).
  { intros ->. exact Hlex. }
  destruct (gather_semantic db embedder now (q_text query) _) as [cm db'].
  cbn [fst] in *. intro Hr.
  apply slice0_In in Hr. apply stable_sort_In in Hr.
  apply filter_In in Hr. destruct Hr as [Hr Hf].
  apply Rleb_spec in Hf. unfold minFinalScore in Hf.
  apply in_flat_map in Hr. destruct Hr as [c [Hc Hr]].
  exists c. split; [exact Hr |].
  unfold cm_scored in Hok. rewrite Forall_forall in Hok.
  split; [exact (Hok c Hc) |]. split; [| exact Hf].
  intro He. specialize (Hnone He). unfold cm_scored in Hnone.
  rewrite Forall_forall in Hnone. exact (Hnone c Hc).
Qed.

(** X6.  Every result of the full recall has a match score above 0: a
    fact that was found through the category filter alone, with no channel
    score, is never returned.  Without an embedding provider the match score
    is at most 1.  The final score is the product of match score, trust
    score, relevance and a context boost between 1 and 1.3, which is 1 when
    the query gives no context. *)
Theorem recall_result_scores : forall db embedder now query r,
  In r (fst (recall db embedder now query)) ->
  0 < matchScore r /\
  (embedder = None -> matchScore r <= 1) /\
  exists boost,
    1 <= boost <= 1.3 /\
    (truthy (q_context query) = false -> boost = 1) /\
    finalScore r =
    matchScore r * score (confidence (memory r)) * relevance_score (memory r) * boost.
Proof.
  intros db embedder now query r Hr.
  destruct (recall_candidates db embedder now query r Hr) as [c [Hc [Hok [Hlex Hf]]]].
  destruct (score_candidate_scores _ _ _ _ _ Hc) as [Hm [boost [Hb [Hctx Hfin]]]].
  pose proof (computeMatchScore_nonneg _ Hok) as Hpos. rewrite <- Hm in Hpos.
  split; [| split].
  - destruct (Req_dec (matchScore r) 0) as [H0 | H0]; [| lra].
    rewrite H0 in Hfin. lra.
  - intro He. rewrite Hm. apply computeMatchScore_lexical. exact (Hlex He).
  - exists boost. split; [exact Hb | split; [exact Hctx | exact Hfin]].
Qed.

Lemma recall_result_scores_witness :
  In deploy_result (fst (recall db_created None 0 (plain_query "deploys"))) /\
  0 < matchScore deploy_result /\
  (@None EmbeddingProvider = None -> matchScore deploy_result <= 1) /\
  exists boost,
    1 <= boost <= 1.3 /\
    (truthy (q_context (plain_query "deploys")) = false -> boost = 1) /\
    finalScore deploy_result =
    matchScore deploy_result * score (confidence (memory deploy_result)) *
    relevance_score (memory deploy_result) * boost.
Proof.
  assert (H : In deploy_result (fst (recall db_created None 0 (plain_query "deploys")))).
  { rewrite db_created_recall. left. reflexivity. }
  split; [exact H |].
  exact (recall_result_scores db_created None 0 (plain_query "deploys") deploy_result H).
Defined.

(** X7.  The recall by entity returns one result for each of the facts
    that [getEntityMemories] selects under the same limit, each with match
    score 1 and the product of trust score and relevance as final score,
    ranked by final score. *)
Theorem entityRecall_results : forall db entityId limit,
  Permutation (map memory (entityRecall db entityId limit))
              (getEntityMemories db entityId limit) /\
  StronglySorted scored_before (entityRecall db entityId limit) /\
  (forall r, In r (entityRecall db entityId limit) ->
     matchScore r = 1 /\
     finalScore r = score (confidence (memory r)) * relevance_score (memory r)).
Proof.
  intros db entityId limit. unfold entityRecall. split; [| split].
  - eapply Permutation_trans.
    + apply Permutation_map. apply stable_sort_perm.
    + rewrite map_map. cbn [memory]. rewrite map_id. apply Permutation_refl.
  - apply (stable_sort_sorted _ by_finalScore scored_before
             by_finalScore_ord by_finalScore_not scored_before_trans).
  - intros r Hr. apply stable_sort_In in Hr.
    apply in_map_iff in Hr. destruct Hr as [mem [<- _]].
    split; reflexivity.
Qed.

(** ** The word overlap of two texts *)

Lemma mkSet_NoDup : forall xs, NoDup (mkSet xs).
Proof.
  intro xs. unfold mkSet. apply NoDup_rev. apply NoDup_nodup.
Qed.

Lemma mkSet_In : forall x xs, In x (mkSet xs) <-> In x xs.
Proof.
  intros x xs. unfold mkSet. rewrite <- in_rev, nodup_In, <- in_rev. tauto.
Qed.

Lemma has_word_spec : forall w (ws : list string),
  existsb (String.eqb w) ws = true <-> In w ws.
Proof.
  intros w ws. rewrite existsb_exists. split.
  - intros [x [Hx He]]. apply String.eqb_eq in He. subst. exact Hx.
  - intro H. exists w. split; [exact H | apply String.eqb_refl].
Qed.

Lemma common_words_sym : forall A B : list string,
  NoDup A -> NoDup B ->
  List.length (filter (fun w => existsb (String.eqb w) B) A) =
  List.length (filter (fun w => existsb (String.eqb w) A) B).
Proof.
  intros A B HA HB. apply Permutation_length.
  apply NoDup_Permutation; [apply NoDup_filter; exact HA | apply NoDup_filter; exact HB |].
  intro x. rewrite !filter_In, !has_word_spec. tauto.
Qed.

Lemma common_words_all : forall A B : list string,
  (forall w, In w A -> In w B) ->
  filter (fun w => existsb (String.eqb w) B) A = A.
Proof.
  intros A B H. induction A as [| w A IH]; [reflexivity |].
  simpl. replace (existsb (String.eqb w) B) with true.
  - f_equal. apply IH. intros x Hx. apply H. right. exact Hx.
  - symmetry. apply has_word_spec. apply H. left. reflexivity.
Qed.

Lemma contentSimilarity_unfold : forall a b,
  contentSimilarity a b =
  let common :=
    List.length (filter (fun w => existsb (String.eqb w) (content_words b))
                   (content_words a)) in
  let union :=
    (List.length (content_words a) + List.length (content_words b) - common)%nat in
  if Nat.eqb union 0 then 0 else INR common / INR union.
Proof. reflexivity. Qed.

Lemma contentSimilarity_sym : forall a b, contentSimilarity a b = contentSimilarity b a.
Proof.
  intros a b. rewrite !contentSimilarity_unfold. cbv zeta.
  rewrite (common_words_sym (content_words b) (content_words a))
    by apply mkSet_NoDup.
  rewrite (Nat.add_comm (List.length (content_words b))). reflexivity.
Qed.

Lemma contentSimilarity_range : forall a b, 0 <= contentSimilarity a b <= 1.
Proof.
  intros a b. rewrite contentSimilarity_unfold. cbv zeta.
  pose proof (filter_length_le (fun w => existsb (String.eqb w) (content_words b))
                (content_words a)) as HA.
  pose proof (filter_length_le (fun w => existsb (String.eqb w) (content_words a))
                (content_words b)) as HB.
  rewrite <- (common_words_sym (content_words a) (content_words b)) in HB
    by apply mkSet_NoDup.
  set (common := List.length (filter _ (content_words a))) in *.
  set (union := (List.length (content_words a) + List.length (content_words b) - common)%nat).
  destruct (Nat.eqb_spec union 0) as [| Hu]; [lra |].
  assert (Hle : (common <= union)%nat) by (unfold union; lia).
  assert (Hpos : 0 < INR union) by (apply lt_0_INR; lia).
  apply le_INR in Hle. pose proof (pos_INR common) as H0.
  split.
  - apply Rmult_le_pos; [exact H0 | left; apply Rinv_0_lt_compat; exact Hpos].
  - apply (Rmult_le_reg_r (INR union)); [exact Hpos |].
    unfold Rdiv. rewrite Rmult_assoc, Rinv_l by lra. lra.
Qed.

(** X8.  The word overlap of two texts is symmetric and lies between 0
    and 1.  It is 1 for two texts with the same words of more than three
    characters, whatever their order, case and repetitions, so for a text
    and itself; and 0 when one text has no such word. *)
Theorem contentSimilarity_properties :
  (forall a b, contentSimilarity a b = contentSimilarity b a) /\
  (forall a b, 0 <= contentSimilarity a b <= 1) /\
  (forall a b,
     content_words a <> [] ->
     (forall w, In w (content_words a) <-> In w (content_words b)) ->
     contentSimilarity a b = 1) /\
  (forall a b, content_words a = [] -> contentSimilarity a b = 0).
Proof.
  split; [exact contentSimilarity_sym | split; [exact contentSimilarity_range | split]].
  - intros a b Hne Hsame. rewrite contentSimilarity_unfold. cbv zeta.
    rewrite (common_words_all (content_words a) (content_words b))
      by (intros w Hw; apply Hsame; exact Hw).
    assert (Hlen : List.length (content_words b) = List.length (content_words a)).
    { apply Permutation_length.
      apply NoDup_Permutation; [apply mkSet_NoDup | apply mkSet_NoDup |].
      intro w. symmetry. apply Hsame. }
    rewrite Hlen.
    assert (Hpos : (0 < List.length (content_words a))%nat).
    { destruct (content_words a); [congruence | simpl; lia]. }
    replace (List.length (content_words a) + List.length (content_words a) -
             List.length (content_words a))%nat
      with (List.length (content_words a)) by lia.
    destruct (Nat.eqb_spec (List.length (content_words a)) 0) as [H0 | _]; [lia |].
    unfold Rdiv. apply Rinv_r. apply not_0_INR. lia.
  - intros a b Hempty. rewrite contentSimilarity_unfold. cbv zeta.
    rewrite Hempty. cbn [filter List.length Nat.add].
    rewrite Nat.sub_0_r.
    destruct (Nat.eqb _ 0); [reflexivity |].
    simpl INR. lra.
Qed.

(** ** Independent sources, the boost and the negation test *)

Lemma SourceType_eqb_sym : forall a b, SourceType_eqb a b = SourceType_eqb b a.
Proof. intros [] []; reflexivity. Qed.

Lemma SourceType_eqb_refl : forall a, SourceType_eqb a a = true.
Proof. intros []; reflexivity. Qed.

(** X9.  Whether two facts come from independent sources does not depend
    on their order, and two facts with the same source type, the same actor
    and the same context are never independent: no fact corroborates
    itself. *)
Theorem isIndependentSource_properties :
  (forall a b : Memory, isIndependentSource a b = isIndependentSource b a) /\
  (forall a b : Memory,
     attr_type (attribution a) = attr_type (attribution b) ->
     actor (attribution a) = actor (attribution b) ->
     context (attribution a) = context (attribution b) ->
     isIndependentSource a b = false) /\
  (forall a : Memory, isIndependentSource a a = false).
Proof.
  assert (Hsame : forall a b : Memory,
            attr_type (attribution a) = attr_type (attribution b) ->
            actor (attribution a) = actor (attribution b) ->
            context (attribution a) = context (attribution b) ->
            isIndependentSource a b = false).
  { intros a b Ht Ha Hc. unfold isIndependentSource.
    rewrite Ht, Ha, Hc, SourceType_eqb_refl, !String.eqb_refl.
    cbn [negb]. rewrite !andb_false_r. reflexivity. }
  split; [| split; [exact Hsame | intro a; apply Hsame; reflexivity]].
  intros a b. unfold isIndependentSource.
  rewrite (SourceType_eqb_sym (attr_type (attribution b))).
  rewrite (String.eqb_sym (orElse (actor (attribution b)) "")).
  rewrite (String.eqb_sym (orElse (context (attribution b)) "")).
  rewrite (andb_comm (truthy (actor (attribution b)))).
  rewrite (andb_comm (truthy (context (attribution b)))).
  reflexivity.
Qed.

Lemma Math_round_Z_bounds : forall (a b : Z) (x : R),
  IZR a <= x <= IZR b -> (a <= Math_round_Z x <= b)%Z.
Proof.
  intros a b x [Ha Hb]. unfold Math_round_Z. split.
  - apply Zfloor_lub. lra.
  - rewrite <- (Zfloor_eq b (IZR b + / 2)) by lra.
    apply Zfloor_le. lra.
Qed.

Lemma sourceWeights_range : forall t, 0.5 <= sourceWeights t <= 1.5.
Proof. intros []; simpl; lra. Qed.

Lemma calculateBoost_hundredths : forall sim (newMem existingMem : Memory),
  0 <= sim <= 1 ->
  exists n : Z, (0 <= n <= 15)%Z /\ calculateBoost sim newMem existingMem = IZR n / 100.
Proof.
  intros sim newMem existingMem Hsim. unfold calculateBoost.
  pose proof (sourceWeights_range (attr_type (attribution newMem))) as Hw.
  set (w := sourceWeights (attr_type (attribution newMem))) in *.
  set (k := corroborations (confidence existingMem)).
  assert (H1 : 0 <= sim * 0.1 * w <= 0.15) by nra.
  assert (H2 : 0 <= (if (0 <? k)%nat
                     then sim * 0.1 * w * (1 / (1 + INR k * 0.3))
                     else sim * 0.1 * w) <= 0.15).
  { destruct (0 <? k)%nat; [| exact H1].
    pose proof (pos_INR k) as Hk.
    assert (Hd : 0 < 1 + INR k * 0.3) by lra.
    assert (Hf : 0 < 1 / (1 + INR k * 0.3) <= 1).
    { split.
      - unfold Rdiv. rewrite Rmult_1_l. apply Rinv_0_lt_compat. exact Hd.
      - apply (Rmult_le_reg_r (1 + INR k * 0.3)); [exact Hd |].
        unfold Rdiv. rewrite Rmult_assoc, Rinv_l by lra. lra. }
    nra. }
  set (b := if (0 <? k)%nat then _ else _) in *.
  exists (Math_round_Z (b * 100)). split; [| reflexivity].
  apply Math_round_Z_bounds. simpl. lra.
Qed.

(** X10.  For a similarity between 0 and 1 the boost is a whole number of
    hundredths between 0 and 0.15, whatever the source type of the new
    fact and the number of earlier corroborations. *)
Theorem calculateBoost_range : forall sim (newMem existingMem : Memory),
  0 <= sim <= 1 ->
  0 <= calculateBoost sim newMem existingMem <= 0.15 /\
  Math_round (calculateBoost sim newMem existingMem * 100) / 100 =
  calculateBoost sim newMem existingMem.
Proof.
  intros sim newMem existingMem Hsim.
  destruct (calculateBoost_hundredths sim newMem existingMem Hsim) as [n [Hn ->]].
  assert (H0 : IZR 0 <= IZR n) by (apply IZR_le; lia).
  assert (H15 : IZR n <= IZR 15) by (apply IZR_le; lia).
  split; [lra |]. apply round_score.
Qed.

Lemma calculateBoost_range_witness :
  0 <= 1 <= 1 /\
  0 <= calculateBoost 1 enabled_memory enabled_memory <= 0.15 /\
  Math_round (calculateBoost 1 enabled_memory enabled_memory * 100) / 100 =
  calculateBoost 1 enabled_memory enabled_memory.
Proof.
  assert (H : 0 <= 1 <= 1) by lra.
  split; [exact H |].
  exact (calculateBoost_range 1 enabled_memory enabled_memory H).
Defined.

Lemma opposes_sym : forall a b p, opposes a b p = opposes b a p.
Proof.
  intros a b p. unfold opposes.
  rewrite orb_comm, (andb_comm (includes a (snd p))), (andb_comm (includes a (fst p))).
  reflexivity.
Qed.

Lemma find_ext_some : forall (A : Type) (f g : A -> bool) l,
  (forall x, f x = g x) -> find f l = find g l.
Proof.
  intros A f g l H. induction l as [| x l IH]; [reflexivity |].
  simpl. rewrite H, IH. reflexivity.
Qed.

(** X11.  The negation test does not depend on the order of the two
    facts, and whenever it reports a contradiction the reason names a pair
    of the table whose two sides occur one in each content, and the
    lower-cased contents overlap by more than 0.3. *)
Theorem detectContradiction_properties :
  (forall a b : Memory, detectContradiction a b = detectContradiction b a) /\
  (forall (a b : Memory) why,
     detectContradiction a b = Some why ->
     exists p,
       In p negationPairs /\ why = negation_reason p /\
       opposes (toLowerCase (content a)) (toLowerCase (content b)) p = true /\
       0.3 < contentSimilarity (toLowerCase (content a)) (toLowerCase (content b))).
Proof.
  split.
  - intros a b. unfold detectContradiction. f_equal.
    apply find_ext_some. intro p.
    rewrite opposes_sym, contentSimilarity_sym. reflexivity.
  - intros a b why H. unfold detectContradiction in H.
    destruct (find _ negationPairs) as [p |] eqn:Hf; [| discriminate].
    inversion H; subst. apply find_some in Hf. destruct Hf as [Hin Hp].
    apply andb_true_iff in Hp. destruct Hp as [Ho Hs].
    exists p. split; [exact Hin | split; [reflexivity | split; [exact Ho |]]].
    apply Rltb_spec. exact Hs.
Qed.

(** ** What the corroboration check reports and writes *)

Lemma same_tables_refl : forall db, same_tables db db.
Proof. intro db. split; reflexivity. Qed.

Lemma same_tables_trans : forall a b c,
  same_tables a b -> same_tables b c -> same_tables a c.
Proof. intros a b c [H1 H2] [H3 H4]. split; congruence. Qed.

Lemma updateConfidence_tables : forall db now ident c,
  same_tables db (updateConfidence db now ident c).
Proof. intros db now ident c. split; reflexivity. Qed.

Lemma getMemory_tables : forall db now ident,
  same_tables db (snd (getMemory db now ident)).
Proof.
  intros db now ident. unfold getMemory.
  destruct (getRow db ident); [split; reflexivity | apply same_tables_refl].
Qed.

Lemma forget_confidence_set : forall c now r,
  forget_confidence (set_confidence c now r) = forget_confidence r.
Proof. reflexivity. Qed.

Lemma fold_left_In_keeps :
  forall (A S : Type) (P : S -> Prop) (f : S -> A -> S) (l : list A),
  (forall s a, In a l -> P s -> P (f s a)) -> forall s, P s -> P (fold_left f l s).
Proof.
  intros A S P f l. induction l as [| a l IH]; intros Hf s Hs; simpl; [exact Hs |].
  apply IH.
  - intros s' a' Ha'. apply Hf. right. exact Ha'.
  - apply Hf; [left; reflexivity | exact Hs].
Qed.

Lemma corroborate_step_keeps : forall db now (newMemory : Memory) related st existing,
  In existing related ->
  (forall res, In res (fst st) -> corroborated newMemory related res) /\
  same_tables db (snd st) ->
  (forall res, In res (fst (corroborate_step now newMemory st existing)) ->
     corroborated newMemory related res) /\
  same_tables db (snd (corroborate_step now newMemory st existing)).
Proof.
  intros db now newMemory related [results db1] existing Hin [Hres Htab].
  unfold corroborate_step. cbn [fst snd] in *.
  destruct (String.eqb_spec (id existing) (id newMemory)) as [| Hid]; [split; assumption |].
  destruct (isIndependentSource newMemory existing) eqn:Hind; [| split; assumption].
  destruct (Rltb 0.5 _) eqn:Hsim; [| split; assumption].
  apply Rltb_spec in Hsim. cbn [fst snd]. split.
  - intros res Hr. apply in_app_or in Hr. destruct Hr as [Hr | [<- | []]]; [apply Hres; exact Hr |].
    pose proof (contentSimilarity_range (content newMemory) (content existing)) as Hrange.
    destruct (calculateBoost_hundredths
                (contentSimilarity (content newMemory) (content existing))
                newMemory existing Hrange) as [n [Hn Hb]].
    assert (H0 : IZR 0 <= IZR n) by (apply IZR_le; lia).
    assert (H15 : IZR n <= IZR 15) by (apply IZR_le; lia).
    unfold corroborated. cbn [memoryId oldConfidence cr_newConfidence].
    rewrite Hb.
    split; [exact Hid |].
    split; [apply Rmin_l |].
    split; [eapply Rle_trans; [apply Rmin_r | lra] |].
    split.
    + intro Hold. apply Rmin_glb; lra.
    + exists existing. repeat split; try assumption; reflexivity.
  - eapply same_tables_trans; [exact Htab | apply updateConfidence_tables].
Qed.

(** X12.  Every result of the corroboration check names a related fact
    other than the new one, from an independent source and with a word
    overlap above 0.5; the new score it reports is at most 1, at most 0.15
    above the old one, and not below an old score of at most 1.  The check
    writes nothing but trust records and times of modification: it adds and
    removes no fact, and leaves every other column, the entities and the
    links as they are. *)
Theorem checkCorroboration_effects : forall db now (newMemory : Memory),
  (forall res, In res (fst (checkCorroboration db now newMemory)) ->
     corroborated newMemory (findRelated db newMemory) res) /\
  same_tables db (snd (checkCorroboration db now newMemory)) /\
  same_view forget_confidence db (snd (checkCorroboration db now newMemory)).
Proof.
  intros db now newMemory.
  assert (H : (forall res, In res (fst (checkCorroboration db now newMemory)) ->
                 corroborated newMemory (findRelated db newMemory) res) /\
              same_tables db (snd (checkCorroboration db now newMemory))).
  { unfold checkCorroboration.
    apply (fold_left_In_keeps _ _
             (fun st : list CorroborationResult * Db =>
                (forall res, In res (fst st) ->
                   corroborated newMemory (findRelated db newMemory) res) /\
                same_tables db (snd st))).
    - intros st existing Hin Hst.
      apply (corroborate_step_keeps db now newMemory _ st existing Hin Hst).
    - split; [intros res [] | apply same_tables_refl]. }
  destruct H as [H1 H2]. split; [exact H1 | split; [exact H2 |]].
  apply checkCorroboration_view. exact forget_confidence_set.
Qed.

(** ** What the scan for contradictions reports and writes *)

Lemma MemoryCategory_eqb_eq : forall a b, MemoryCategory_eqb a b = true -> a = b.
Proof. intros [] []; simpl; intro H; try reflexivity; discriminate. Qed.

Lemma contradiction_of_sound : forall (a b : Memory) mems c,
  In a mems -> In b mems -> In c (contradiction_of a b) -> contradicts mems c.
Proof.
  intros a b mems c Ha Hb. unfold contradiction_of.
  destruct (filter _ (entities a)) as [| e shared] eqn:Hshared; [intros [] |].
  cbn [List.length Nat.eqb].
  destruct (MemoryCategory_eqb (category a) (category b)) eqn:Hcat; [| intros []].
  cbn [negb].
  destruct (detectContradiction a b) as [why |] eqn:Hd; [| intros []].
  intros [<- | []].
  exists a, b. cbn [memoryA memoryB reason similarity].
  split; [exact Ha | split; [exact Hb | split; [reflexivity | split; [reflexivity |]]]].
  split; [apply MemoryCategory_eqb_eq; exact Hcat |].
  split; [| split; [exact Hd | reflexivity]].
  assert (He : In e (filter (fun e => existsb (String.eqb e) (entities b)) (entities a))).
  { rewrite Hshared. left. reflexivity. }
  apply filter_In in He. destruct He as [He1 He2].
  exists e. split; [exact He1 | apply has_word_spec; exact He2].
Qed.

Lemma contradictions_from_sound : forall now limit mems memories st,
  incl memories mems ->
  (forall c, In c (fst st) -> contradicts mems c) ->
  forall c, In c (fst (contradictions_from now limit memories st)) -> contradicts mems c.
Proof.
  intros now limit mems memories.
  induction memories as [| a rest IH]; intros st Hincl Hst; [exact Hst |].
  rewrite contradictions_from_cons.
  destruct (Z.of_nat (List.length (fst st)) <? limit)%Z; [| exact Hst].
  apply IH.
  - intros x Hx. apply Hincl. right. exact Hx.
  - intros c Hc. rewrite contradiction_fold_found in Hc.
    apply in_app_or in Hc. destruct Hc as [Hc | Hc]; [apply Hst; exact Hc |].
    apply in_flat_map in Hc. destruct Hc as [b [Hb Hc]].
    apply (contradiction_of_sound a b).
    + apply Hincl. left. reflexivity.
    + apply Hincl. right. exact Hb.
    + exact Hc.
Qed.

Lemma contradiction_step_tables : forall now a st b,
  same_tables (snd st) (snd (contradiction_step now a st b)).
Proof.
  intros now a [found db] b. unfold contradiction_step.
  destruct (Nat.eqb _ 0); [apply same_tables_refl |].
  destruct (negb _); [apply same_tables_refl |].
  destruct (detectContradiction a b); [| apply same_tables_refl].
  split; reflexivity.
Qed.

Lemma contradictions_from_tables : forall now limit memories st,
  same_tables (snd st) (snd (contradictions_from now limit memories st)).
Proof.
  intros now limit memories. induction memories as [| a rest IH]; intro st.
  - apply same_tables_refl.
  - rewrite contradictions_from_cons.
    destruct (Z.of_nat (List.length (fst st)) <? limit)%Z; [| apply same_tables_refl].
    eapply same_tables_trans; [| apply IH].
    apply (fold_left_keeps _ _ (fun s : list ContradictionResult * Db =>
                                  same_tables (snd st) (snd s))).
    + intros s b Hs. eapply same_tables_trans; [exact Hs | apply contradiction_step_tables].
    + apply same_tables_refl.
Qed.

(** X13.  Every result of the scan for contradictions is a pair of scanned
    facts of one category that share an entity and for which the negation
    test gives the reported reason.  With a limit of 0 or less the scan
    reports nothing and writes nothing.  In every case it writes nothing but
    trust records and times of modification. *)
Theorem findContradictions_effects : forall db now limit,
  (forall c, In c (fst (findContradictions db now limit)) ->
     contradicts (getAllMemories db 200) c) /\
  ((limit <= 0)%Z -> findContradictions db now limit = ([], db)) /\
  same_tables db (snd (findContradictions db now limit)) /\
  same_view forget_confidence db (snd (findContradictions db now limit)).
Proof.
  intros db now limit. split; [| split; [| split]].
  - unfold findContradictions.
    apply contradictions_from_sound; [apply incl_refl | intros c []].
  - intro Hl. unfold findContradictions.
    destruct (getAllMemories db 200) as [| a rest]; [reflexivity |].
    rewrite contradictions_from_cons. cbn [fst List.length Z.of_nat].
    destruct (Z.ltb_spec 0 limit) as [H | _]; [lia | reflexivity].
  - unfold findContradictions.
    apply (contradictions_from_tables now limit (getAllMemories db 200) ([], db)).
  - apply findContradictions_view. exact forget_confidence_set.
Qed.

Lemma Forall2_map_keeps : forall (A B : Type) (R : A -> B -> Prop) (g : B -> B) l l',
  Forall2 R l l' ->
  (forall x y, In x l -> R x y -> R x (g y)) ->
  Forall2 R l (map g l').
Proof.
  intros A B R g l l' H. induction H as [| x y l l' Hxy _ IH]; intro Hg; simpl.
  - constructor.
  - constructor.
    + apply Hg; [left; reflexivity | exact Hxy].
    + apply IH. intros x' y' Hx'. apply Hg. right. exact Hx'.
Qed.

Lemma Forall2_refl_on : forall (A : Type) (R : A -> A -> Prop) l,
  (forall x, R x x) -> Forall2 R l l.
Proof.
  intros A R l H. induction l; constructor; [apply H | assumption].
Qed.

Lemma flagged_id : forall r r', flagged r r' -> id r' = id r.
Proof. intros r r' [-> | [now [other ->]]]; reflexivity. Qed.

(** Flagging the fact [a] of the scanned rows. *)
Lemma flag_rows : forall rows rows' (a : Row) now other,
  NoDup (map id rows) -> In a rows ->
  Forall2 flagged rows rows' ->
  Forall2 flagged rows
    (update_rows (id a) (set_confidence (flag (confidence a) other) now) rows').
Proof.
  intros rows rows' a now other Hnd Ha H. unfold update_rows.
  apply Forall2_map_keeps; [exact H |].
  intros r r' Hr Hf.
  destruct (String.eqb_spec (id r') (id a)) as [He | _]; [| exact Hf].
  rewrite (flagged_id _ _ Hf) in He.
  assert (r = a) by (apply (@id_injective rows); assumption). subst r.
  right. exists now, other.
  destruct Hf as [-> | [now' [other' ->]]]; reflexivity.
Qed.

Lemma getAllMemories_rows : forall db limit (m : Memory),
  In m (getAllMemories db limit) -> In (row m) (tbl_memories db).
Proof.
  intros db limit m H. unfold getAllMemories in H.
  apply in_map_iff in H. destruct H as [r [<- Hr]].
  apply sql_limit_In in Hr. apply stable_sort_In in Hr. apply in_rev in Hr. exact Hr.
Qed.

Lemma contradiction_step_flags : forall rows now (a b : Memory) st,
  NoDup (map id rows) -> In (row a) rows -> In (row b) rows ->
  Forall2 flagged rows (tbl_memories (snd st)) ->
  Forall2 flagged rows (tbl_memories (snd (contradiction_step now a st b))).
Proof.
  intros rows now a b [found db] Hnd Ha Hb H. unfold contradiction_step.
  destruct (Nat.eqb _ 0); [exact H |].
  destruct (negb _); [exact H |].
  destruct (detectContradiction a b); [| exact H].
  cbn [snd] in *. unfold updateConfidence at 1. cbn [tbl_memories with_memories].
  apply (flag_rows rows _ (row b) now (id a) Hnd Hb).
  unfold updateConfidence. cbn [tbl_memories with_memories].
  apply (flag_rows rows _ (row a) now (id b) Hnd Ha). exact H.
Qed.

Lemma contradictions_from_flags : forall rows now limit memories st,
  NoDup (map id rows) ->
  (forall m : Memory, In m memories -> In (row m) rows) ->
  Forall2 flagged rows (tbl_memories (snd st)) ->
  Forall2 flagged rows (tbl_memories (snd (contradictions_from now limit memories st))).
Proof.
  intros rows now limit memories.
  induction memories as [| a rest IH]; intros st Hnd Hin H; [exact H |].
  rewrite contradictions_from_cons.
  destruct (Z.of_nat (List.length (fst st)) <? limit)%Z; [| exact H].
  apply IH; [exact Hnd | intros m Hm; apply Hin; right; exact Hm |].
  apply (fold_left_In_keeps _ _
           (fun s : list ContradictionResult * Db =>
              Forall2 flagged rows (tbl_memories (snd s)))); [| exact H].
  intros s b Hb Hs. apply contradiction_step_flags; try assumption.
  - apply Hin. left. reflexivity.
  - apply Hin. right. exact Hb.
Qed.

(** X14.  One scan for contradictions leaves every fact either untouched
    or flagged once: whatever the number of contradictions a fact is found
    in, its trust score is the one it had before, its counter of
    contradictions is at most one higher, and its basis has at most one
    warning more, since every write starts from the record read at the start
    of the scan. *)
Theorem findContradictions_flags_once : forall db now limit,
  wf_db db ->
  Forall2 flagged (tbl_memories db) (tbl_memories (snd (findContradictions db now limit))).
Proof.
  intros db now limit Hwf. unfold findContradictions.
  apply contradictions_from_flags.
  - exact Hwf.
  - intros m Hm. apply (getAllMemories_rows db 200). exact Hm.
  - apply Forall2_refl_on. intro r. left. reflexivity.
Qed.

Lemma db_conflict_wf : wf_db db_conflict.
Proof.
  unfold wf_db.
  change (map id (tbl_memories db_conflict)) with ["b"; "c"; "a"].
  repeat constructor; simpl; intuition discriminate.
Qed.

Lemma findContradictions_flags_once_witness :
  wf_db db_conflict /\
  Forall2 flagged (tbl_memories db_conflict)
    (tbl_memories (snd (findContradictions db_conflict 9 10))).
Proof.
  split; [exact db_conflict_wf |].
  exact (findContradictions_flags_once db_conflict 9 10 db_conflict_wf).
Defined.

(** ** The integrity of the tables *)

Lemma integrity_same : forall db db',
  map id (tbl_memories db') = map id (tbl_memories db) ->
  same_tables db db' -> integrity db -> integrity db'.
Proof.
  intros db db' Hids [He Hl] [H1 [H2 [H3 [H4 H5]]]].
  unfold integrity, link_count. rewrite Hids, He, Hl.
  repeat split; try assumption; apply H4; assumption.
Qed.

Lemma has_entity_spec : forall ident (ents : list Entity),
  existsb (fun x => String.eqb (e_id x) ident) ents = true <-> In ident (map e_id ents).
Proof.
  intros ident ents. rewrite existsb_exists, in_map_iff. split.
  - intros [x [Hx He]]. exists x. split; [apply String.eqb_eq; exact He | exact Hx].
  - intros [x [He Hx]]. exists x. split; [exact Hx | apply String.eqb_eq; exact He].
Qed.

Lemma has_link_spec : forall (l : string * string) (ls : list (string * string)),
  existsb (fun x => String.eqb (fst x) (fst l) && String.eqb (snd x) (snd l)) ls = true <->
  In l ls.
Proof.
  intros [a b] ls. rewrite existsb_exists. simpl. split.
  - intros [[x y] [Hx He]]. simpl in He. apply andb_true_iff in He.
    destruct He as [Ha Hb]. apply String.eqb_eq in Ha, Hb. subst. exact Hx.
  - intro H. exists (a, b). split; [exact H |]. simpl. rewrite !String.eqb_refl. reflexivity.
Qed.

Lemma insert_entity_ids : forall e ents,
  NoDup (map e_id ents) -> NoDup (map e_id (insert_entity_or_ignore e ents)).
Proof.
  intros e ents H. unfold insert_entity_or_ignore.
  destruct (existsb _ ents) eqn:Hex; [exact H |].
  rewrite map_app. simpl. apply NoDup_app; [exact H | repeat constructor; simpl; tauto |].
  intros x Hx [<- | []]. apply has_entity_spec in Hx. congruence.
Qed.

Lemma insert_entity_In : forall e ents x,
  In x (insert_entity_or_ignore e ents) ->
  In x ents \/ (x = e /\ ~ In (e_id e) (map e_id ents)).
Proof.
  intros e ents x. unfold insert_entity_or_ignore.
  destruct (existsb _ ents) eqn:Hex; [auto |].
  intro H. apply in_app_or in H. destruct H as [H | [<- | []]]; [auto |].
  right. split; [reflexivity |]. intro Hin. apply has_entity_spec in Hin. congruence.
Qed.

Lemma insert_entity_keeps : forall e ents x,
  In x (map e_id ents) -> In x (map e_id (insert_entity_or_ignore e ents)).
Proof.
  intros e ents x H. unfold insert_entity_or_ignore.
  destruct (existsb _ ents); [exact H |].
  rewrite map_app. apply in_or_app. left. exact H.
Qed.

Lemma insert_entity_has : forall e ents,
  In (e_id e) (map e_id (insert_entity_or_ignore e ents)).
Proof.
  intros e ents. unfold insert_entity_or_ignore.
  destruct (existsb _ ents) eqn:Hex; [apply has_entity_spec; exact Hex |].
  rewrite map_app. apply in_or_app. right. left. reflexivity.
Qed.

Lemma bump_ids : forall entityId ents,
  map e_id (bump_memory_count entityId ents) = map e_id ents.
Proof.
  intros entityId ents. unfold bump_memory_count. rewrite map_map.
  apply map_ext. intro e. destruct (String.eqb (e_id e) entityId); reflexivity.
Qed.

Lemma insert_link_count : forall l ls entityId,
  (List.length (filter (fun x : string * string => String.eqb (snd x) entityId)
                  (insert_link_or_ignore l ls)) <=
   List.length (filter (fun x : string * string => String.eqb (snd x) entityId) ls) +
   (if String.eqb (snd l) entityId then 1 else 0))%nat.
Proof.
  intros l ls entityId. unfold insert_link_or_ignore.
  destruct (existsb _ ls); [lia |].
  rewrite filter_app, length_app. simpl.
  destruct (String.eqb (snd l) entityId); simpl; lia.
Qed.

Lemma no_links_of_unknown : forall db entityId,
  (forall l, In l (tbl_memory_entities db) ->
     In (fst l) (map id (tbl_memories db)) /\
     In (snd l) (map e_id (tbl_entities db))) ->
  ~ In entityId (map e_id (tbl_entities db)) ->
  link_count db entityId = 0%nat.
Proof.
  intros db entityId Href Hno. unfold link_count.
  destruct (filter _ (tbl_memory_entities db)) as [| l ls] eqn:Hf; [reflexivity |].
  exfalso. assert (Hin : In l (filter (fun l => String.eqb (snd l) entityId)
                                 (tbl_memory_entities db))).
  { rewrite Hf. left. reflexivity. }
  apply filter_In in Hin. destruct Hin as [Hin He]. apply String.eqb_eq in He.
  apply Hno. rewrite <- He. apply (Href l Hin).
Qed.

Lemma linked_integrity : forall now memoryId db entityId,
  In memoryId (map id (tbl_memories db)) ->
  integrity db -> integrity (linked now memoryId db entityId).
Proof.
  intros now memoryId db entityId Hmem [H1 [H2 [H3 [H4 H5]]]].
  unfold integrity, linked, link_count. cbn [tbl_memories tbl_entities tbl_memory_entities].
  split; [exact H1 |].
  split; [rewrite bump_ids; apply insert_entity_ids; exact H2 |].
  split.
  { unfold insert_link_or_ignore. destruct (existsb _ (tbl_memory_entities db)) eqn:Hex;
      [exact H3 |].
    apply NoDup_app; [exact H3 | repeat constructor; simpl; tauto |].
    intros x Hx [<- | []].
    apply (has_link_spec (memoryId, entityId)) in Hx. congruence. }
  split.
  { intros l Hl. rewrite bump_ids.
    unfold insert_link_or_ignore in Hl.
    assert (Hcases : In l (tbl_memory_entities db) \/ l = (memoryId, entityId)).
    { destruct (existsb _ (tbl_memory_entities db)); [left; exact Hl |].
      apply in_app_or in Hl. destruct Hl as [Hl | [<- | []]]; auto. }
    destruct Hcases as [Hold | ->].
    - destruct (H4 l Hold) as [Ha Hb]. split; [exact Ha |].
      apply insert_entity_keeps. exact Hb.
    - split; [exact Hmem |]. apply (insert_entity_has (auto_entity now entityId)). }
  intros e' He'. unfold bump_memory_count in He'.
  apply in_map_iff in He'. destruct He' as [e [<- He]].
  pose proof (insert_link_count (memoryId, entityId) (tbl_memory_entities db)) as Hcount.
  cbn [snd] in Hcount.
  assert (Hbound : (link_count db (e_id e) <= memory_count e)%nat).
  { apply insert_entity_In in He. destruct He as [He | [-> Hnew]]; [apply H5; exact He |].
    rewrite (no_links_of_unknown db _ H4 Hnew). lia. }
  unfold link_count in Hbound.
  destruct (String.eqb_spec (e_id e) entityId) as [Heq | Hne]; cbn [e_id memory_count].
  - specialize (Hcount (e_id e)).
    destruct (String.eqb entityId (e_id e)); lia.
  - specialize (Hcount (e_id e)).
    destruct (String.eqb_spec entityId (e_id e)) as [Heq' | _]; [congruence | lia].
Qed.

Lemma linked_all_integrity : forall now memoryId ents db,
  In memoryId (map id (tbl_memories db)) ->
  integrity db -> integrity (linked_all now memoryId ents db).
Proof.
  intros now memoryId ents. unfold linked_all.
  induction ents as [| e ents IH]; intros db Hmem Hint; [exact Hint |].
  simpl. apply IH; [exact Hmem |]. apply linked_integrity; assumption.
Qed.

Lemma append_row_integrity : forall db r,
  ~ In (id r) (map id (tbl_memories db)) ->
  integrity db -> integrity (with_memories db (tbl_memories db ++ [r])).
Proof.
  intros db r Hfresh [H1 [H2 [H3 [H4 H5]]]].
  unfold integrity, with_memories, link_count.
  cbn [tbl_memories tbl_entities tbl_memory_entities].
  split.
  { rewrite map_app. simpl. apply NoDup_app; [exact H1 | repeat constructor; simpl; tauto |].
    intros x Hx [<- | []]. exact (Hfresh Hx). }
  split; [exact H2 |]. split; [exact H3 |]. split; [| exact H5].
  intros l Hl. destruct (H4 l Hl) as [Ha Hb]. split; [| exact Hb].
  rewrite map_app. apply in_or_app. left. exact Ha.
Qed.

Lemma createMemory_integrity : forall db now ident input m db',
  createMemory db now ident input = Some (m, db') -> integrity db -> integrity db'.
Proof.
  intros db now ident input m db' H Hint.
  destruct (getRow db ident) eqn:Hg.
  - unfold createMemory in H. rewrite Hg in H. discriminate.
  - destruct (@createMemory_fresh db now ident input Hg)
      as [m0 [db0 [Hc [_ [Hid [_ [_ [_ Hdb]]]]]]]].
    rewrite Hc in H. injection H as Hm Hd. rewrite Hm in *. rewrite Hd in *.
    assert (Hfresh : ~ In (id (row m)) (map id (tbl_memories db))).
    { change (id (row m)) with (id m). rewrite Hid. apply getRow_None. exact Hg. }
    pose proof (append_row_integrity db (row m) Hfresh Hint) as Happ.
    rewrite Hdb. destruct (nonempty (in_entities input)); [| exact Happ].
    apply linked_all_integrity; [| exact Happ].
    cbn [tbl_memories with_memories]. rewrite map_app. apply in_or_app. right.
    left. exact Hid.
Qed.

Lemma createEntity_integrity : forall db now ident nm ty descr als,
  integrity db -> integrity (snd (createEntity db now ident nm ty descr als)).
Proof.
  intros db now ident nm ty descr als [H1 [H2 [H3 [H4 H5]]]].
  unfold integrity, createEntity, link_count.
  cbn [snd tbl_memories tbl_entities tbl_memory_entities].
  split; [exact H1 |]. split; [apply insert_entity_ids; exact H2 |].
  split; [exact H3 |]. split.
  - intros l Hl. destruct (H4 l Hl) as [Ha Hb]. split; [exact Ha |].
    apply insert_entity_keeps. exact Hb.
  - intros e He. apply insert_entity_In in He. destruct He as [He | [-> Hnew]].
    + apply H5. exact He.
    + cbn [e_id memory_count] in *.
      pose proof (no_links_of_unknown db ident H4 Hnew) as H0.
      unfold link_count in H0. rewrite H0. lia.
Qed.

Lemma filter_length_mono : forall (A : Type) (p q : A -> bool) (l : list A),
  (List.length (filter p (filter q l)) <= List.length (filter p l))%nat.
Proof.
  intros A p q l. induction l as [| x l IH]; [simpl; lia |].
  simpl. destruct (q x); simpl; destruct (p x); simpl; lia.
Qed.

Lemma deleteMemory_integrity : forall db ident,
  integrity db -> integrity (snd (deleteMemory db ident)).
Proof.
  intros db ident [H1 [H2 [H3 [H4 H5]]]].
  unfold integrity, deleteMemory, link_count.
  cbn [snd tbl_memories tbl_entities tbl_memory_entities].
  split; [apply NoDup_ids_filter; exact H1 |]. split; [exact H2 |].
  split; [apply NoDup_filter; exact H3 |]. split.
  - intros l Hl. apply filter_In in Hl. destruct Hl as [Hl Hne].
    destruct (H4 l Hl) as [Ha Hb]. split; [| exact Hb].
    apply in_map_iff in Ha. destruct Ha as [r [Hr Hin]].
    apply in_map_iff. exists r. split; [exact Hr |].
    apply filter_In. split; [exact Hin |]. rewrite Hr. exact Hne.
  - intros e He. specialize (H5 e He). unfold link_count in H5.
    pose proof (filter_length_mono _ (fun l : string * string => String.eqb (snd l) (e_id e))
                  (fun l => negb (String.eqb (fst l) ident)) (tbl_memory_entities db)).
    lia.
Qed.

Lemma updateMemory_tables : forall db now ident u,
  same_tables db (snd (updateMemory db now ident u)).
Proof.
  intros db now ident u. unfold updateMemory.
  pose proof (getMemory_tables db now ident) as H1.
  destruct (getMemory db now ident) as [[m |] db1]; [| exact H1].
  cbn [snd] in H1.
  eapply same_tables_trans; [exact H1 |].
  eapply same_tables_trans; [| apply getMemory_tables].
  split; reflexivity.
Qed.

Lemma checkCorroboration_tables : forall db now (newMemory : Memory),
  same_tables db (snd (checkCorroboration db now newMemory)).
Proof.
  intros db now newMemory. unfold checkCorroboration.
  apply (fold_left_In_keeps _ _
           (fun st : list CorroborationResult * Db =>
              (forall res, In res (fst st) ->
                 corroborated newMemory (findRelated db newMemory) res) /\
              same_tables db (snd st))).
  - intros st existing Hin Hst.
    apply (corroborate_step_keeps db now newMemory _ st existing Hin Hst).
  - split; [intros res [] | apply same_tables_refl].
Qed.

Lemma findContradictions_tables : forall db now limit,
  same_tables db (snd (findContradictions db now limit)).
Proof.
  intros db now limit. unfold findContradictions.
  apply (contradictions_from_tables now limit (getAllMemories db 200) ([], db)).
Qed.

Lemma verifyMemory_tables : forall db now ident,
  same_tables db (snd (verifyMemory db now ident)).
Proof.
  intros db now ident. unfold verifyMemory.
  pose proof (getMemory_tables db now ident) as H.
  destruct (getMemory db now ident) as [[memory |] db1]; [| exact H].
  destruct (fold_left _ _ _) as [count ev]. cbn [snd] in *.
  destruct (0 <? count)%nat; [| exact H].
  eapply same_tables_trans; [exact H | apply updateConfidence_tables].
Qed.

Lemma recall_tables : forall db embedder now query,
  same_tables db (snd (recall db embedder now query)).
Proof.
  intros db embedder now query. rewrite recall_db. unfold gather_semantic.
  destruct embedder as [embed |]; [| apply same_tables_refl].
  apply (semantic_fold_tables now (embed (q_text query)) (getAllEmbeddings db) (_, db)).
Qed.

Lemma ids_view : forall db db', same_view id db db' ->
  map id (tbl_memories db') = map id (tbl_memories db).
Proof. intros db db' H. exact H. Qed.

Lemma step_integrity : forall allowed db db',
  step allowed db db' -> integrity db -> integrity db'.
Proof.
  intros allowed db db' Hstep Hint.
  destruct Hstep as
    [db now ident input m db' Hc | db now ident nm ty descr als | db now ident
    | db now ident u Hu | db ident | db now | db now ident c | db now m
    | db now limit | db now ident | db embedder now query].
  - apply (createMemory_integrity db now ident input m db' Hc Hint).
  - apply createEntity_integrity. exact Hint.
  - apply (integrity_same db); [| apply getMemory_tables | exact Hint].
    rewrite getMemory_rows. apply update_rows_ids. reflexivity.
  - apply (integrity_same db); [| apply updateMemory_tables | exact Hint].
    rewrite updateMemory_rows. rewrite !update_rows_ids by reflexivity. reflexivity.
  - apply deleteMemory_integrity. exact Hint.
  - apply (integrity_same db); [| apply applyDecay_tables | exact Hint].
    rewrite applyDecay_rows by apply Hint.
    rewrite map_map. apply map_ext. intro r. unfold decay_row.
    destruct (pinned r); reflexivity.
  - apply (integrity_same db); [| apply updateConfidence_tables | exact Hint].
    unfold updateConfidence. cbn [tbl_memories with_memories].
    apply update_rows_ids. reflexivity.
  - apply (integrity_same db); [| apply checkCorroboration_tables | exact Hint].
    apply ids_view. apply checkCorroboration_view. reflexivity.
  - apply (integrity_same db); [| apply findContradictions_tables | exact Hint].
    apply ids_view. apply findContradictions_view. reflexivity.
  - apply (integrity_same db); [| apply verifyMemory_tables | exact Hint].
    apply ids_view. apply verifyMemory_view; reflexivity.
  - apply (integrity_same db); [| apply recall_tables | exact Hint].
    apply ids_view. apply recall_view. reflexivity.
Qed.

Lemma empty_db_integrity : integrity empty_db.
Proof.
  unfold integrity, empty_db. cbn [tbl_memories tbl_entities tbl_memory_entities map].
  split; [constructor |]. split; [constructor |]. split; [constructor |].
  split; intros x [].
Qed.

(** X15.  In every state that the operations of the store and of the
    engines reach from the empty database, identifiers of facts and of
    entities are unique, no link is stored twice, every link joins a stored
    fact and a stored entity, and the counter of an entity is at least the
    number of facts linked to it. *)
Theorem reachable_integrity : forall allowed db,
  reachable allowed db -> integrity db.
Proof.
  intros allowed db H. induction H as [| db db' _ IH Hstep].
  - exact empty_db_integrity.
  - exact (step_integrity allowed db db' Hstep IH).
Qed.

Lemma reachable_integrity_witness :
  reachable any_update db_touched /\ integrity db_touched.
Proof.
  split; [exact db_touched_reachable |].
  exact (reachable_integrity any_update db_touched db_touched_reachable).
Defined.

(** ** Reading, editing and deleting a fact *)

Lemma getRow_other : forall db ident f other,
  (forall x, id (f x) = id x) -> other <> ident ->
  getRow (with_memories db (update_rows ident f (tbl_memories db))) other =
  getRow db other.
Proof.
  intros db ident f other Hf Hne. unfold getRow, with_memories, update_rows.
  cbn [tbl_memories]. induction (tbl_memories db) as [| x rows IH]; [reflexivity |].
  simpl. destruct (String.eqb_spec (id x) ident) as [He | _].
  - rewrite Hf. destruct (String.eqb_spec (id x) other) as [Ho | _]; [congruence | exact IH].
  - destruct (String.eqb (id x) other); [reflexivity | exact IH].
Qed.

Lemma getMemory_read : forall db now ident r,
  getRow db ident = Some r ->
  exists db',
    getMemory db now ident = (Some (mkMemory r (linked_entities db ident)), db') /\
    getRow db' ident = Some (set_access now r) /\
    (forall other, other <> ident -> getRow db' other = getRow db other) /\
    same_tables db db'.
Proof.
  intros db now ident r Hr.
  exists (with_memories db (update_rows ident (set_access now) (tbl_memories db))).
  split; [| split; [| split]].
  - unfold getMemory. rewrite Hr. unfold rowToMemory. cbn [tbl_memory_entities with_memories].
    destruct (getRow_In _ _ Hr) as [_ Hid]. unfold linked_entities.
    cbn [tbl_memory_entities with_memories]. rewrite Hid. reflexivity.
  - apply (getRow_updated db ident (set_access now)); [reflexivity | exact Hr].
  - intros other Hne. apply getRow_other; [reflexivity | exact Hne].
  - split; reflexivity.
Qed.

(** X16.  Editing a stored fact returns the fact as it was read before
    the second of the two reads that one edit makes: the edit with the given
    fields and the new time of modification, every field that is not given
    and the identifier, attribution, trust record, relevance, time of
    creation and embedding as they were, and an access count one above the
    old one.  The stored row has been read once more, so that one edit
    raises its access count by two.  No other fact, no entity and no link
    changes. *)
Theorem updateMemory_effects : forall db now ident u r,
  getRow db ident = Some r ->
  exists m db',
    updateMemory db now ident u = (Some m, db') /\
    row m = apply_updates now u (set_access now r) /\
    entities m = linked_entities db ident /\
    getRow db' ident = Some (set_access now (row m)) /\
    access_count m = S (access_count r) /\
    (forall other, other <> ident -> getRow db' other = getRow db other) /\
    same_tables db db'.
Proof.
  intros db now ident u r Hr. unfold updateMemory.
  destruct (getMemory_read db now ident r Hr) as [db1 [Hg1 [Hr1 [Ho1 Ht1]]]].
  rewrite Hg1.
  set (db2 := with_memories db1 (update_rows ident (apply_updates now u) (tbl_memories db1))).
  assert (Hr2 : getRow db2 ident = Some (apply_updates now u (set_access now r))).
  { apply (getRow_updated db1 ident (apply_updates now u)); [reflexivity | exact Hr1]. }
  destruct (getMemory_read db2 now ident _ Hr2) as [db3 [Hg3 [Hr3 [Ho3 Ht3]]]].
  rewrite Hg3. eexists. exists db3.
  split; [reflexivity |]. cbn [row entities].
  split; [reflexivity |].
  split.
  { unfold linked_entities. unfold db2. cbn [tbl_memory_entities with_memories].
    destruct Ht1 as [_ Hl]. rewrite Hl. reflexivity. }
  split; [exact Hr3 |].
  split; [reflexivity |].
  split.
  - intros other Hne. rewrite (Ho3 other Hne). unfold db2.
    rewrite getRow_other by (try reflexivity; exact Hne). apply Ho1. exact Hne.
  - eapply same_tables_trans; [exact Ht1 |].
    eapply same_tables_trans; [| exact Ht3]. split; reflexivity.
Qed.

Lemma db_created_getRow : getRow db_created "m1" = Some deploy_row.
Proof. reflexivity. Qed.

Lemma updateMemory_effects_witness :
  getRow db_created "m1" = Some deploy_row /\
  exists m db',
    updateMemory db_created 7 "m1" pin_update = (Some m, db') /\
    row m = apply_updates 7 pin_update (set_access 7 deploy_row) /\
    entities m = linked_entities db_created "m1" /\
    getRow db' "m1" = Some (set_access 7 (row m)) /\
    access_count m = S (access_count deploy_row) /\
    (forall other, other <> "m1" -> getRow db' other = getRow db_created other) /\
    same_tables db_created db'.
Proof.
  split; [exact db_created_getRow |].
  exact (updateMemory_effects db_created 7 "m1" pin_update deploy_row db_created_getRow).
Defined.

Lemma filter_length_all : forall (A : Type) (p : A -> bool) (l : list A),
  List.length (filter p l) = List.length l <-> forall x, In x l -> p x = true.
Proof.
  intros A p l. induction l as [| x l IH]; simpl.
  - split; [intros _ y [] | reflexivity].
  - pose proof (filter_length_le p l) as Hle.
    destruct (p x) eqn:Hp; simpl.
    + split.
      * intros H y [<- | Hy]; [exact Hp |]. apply IH; [lia | exact Hy].
      * intro H. f_equal. apply IH. intros y Hy. apply H. right. exact Hy.
    + split; [lia |]. intro H. specialize (H x (or_introl eq_refl)). congruence.
Qed.

Lemma getRow_filter_other : forall rows ident other,
  other <> ident ->
  find (fun r => String.eqb (id r) other)
       (filter (fun r => negb (String.eqb (id r) ident)) rows) =
  find (fun r => String.eqb (id r) other) rows.
Proof.
  intros rows ident other Hne. induction rows as [| x rows IH]; [reflexivity |].
  simpl. destruct (String.eqb_spec (id x) ident) as [He | _]; simpl.
  - destruct (String.eqb_spec (id x) other) as [Ho | _]; [congruence | exact IH].
  - destruct (String.eqb (id x) other); [reflexivity | exact IH].
Qed.

(** X17.  Deleting reports true exactly when a fact with the identifier
    was stored.  Afterwards the identifier is unknown and has no links, every
    other fact and its links are as before, and the entities are untouched:
    the counter of an entity is not lowered when a fact linked to it is
    deleted. *)
Theorem deleteMemory_effects : forall db ident,
  (fst (deleteMemory db ident) = true <-> In ident (map id (tbl_memories db))) /\
  getRow (snd (deleteMemory db ident)) ident = None /\
  linked_entities (snd (deleteMemory db ident)) ident = [] /\
  (forall other, other <> ident ->
     getRow (snd (deleteMemory db ident)) other = getRow db other /\
     linked_entities (snd (deleteMemory db ident)) other = linked_entities db other) /\
  tbl_entities (snd (deleteMemory db ident)) = tbl_entities db.
Proof.
  intros db ident. unfold deleteMemory. cbn [fst snd].
  split; [| split; [| split; [| split]]].
  - rewrite negb_true_iff, Nat.eqb_neq, filter_length_all. split.
    + intro H. destruct (in_dec string_dec ident (map id (tbl_memories db))) as [Hin | Hno];
        [exact Hin |].
      exfalso. apply H. intros x Hx. apply negb_true_iff.
      apply String.eqb_neq. intro He. apply Hno. rewrite <- He. apply in_map. exact Hx.
    + intros Hin H. apply in_map_iff in Hin. destruct Hin as [r [He Hr]].
      specialize (H r Hr). rewrite He, String.eqb_refl in H. discriminate.
  - unfold getRow. cbn [tbl_memories].
    destruct (find _ (filter _ (tbl_memories db))) as [r |] eqn:Hf; [| reflexivity].
    apply find_some in Hf. destruct Hf as [Hin He]. apply filter_In in Hin.
    destruct Hin as [_ Hne]. rewrite He in Hne. discriminate.
  - unfold linked_entities. cbn [tbl_memory_entities].
    destruct (filter _ (filter _ (tbl_memory_entities db))) as [| l ls] eqn:Hf; [reflexivity |].
    assert (Hin : In l (filter (fun l : string * string => String.eqb (fst l) ident)
                          (filter (fun l => negb (String.eqb (fst l) ident))
                             (tbl_memory_entities db)))).
    { rewrite Hf. left. reflexivity. }
    apply filter_In in Hin. destruct Hin as [Hin He]. apply filter_In in Hin.
    destruct Hin as [_ Hne]. rewrite He in Hne. discriminate.
  - intros other Hne. split.
    + unfold getRow. cbn [tbl_memories]. apply getRow_filter_other. exact Hne.
    + unfold linked_entities. cbn [tbl_memory_entities].
      assert (Hsame : filter (fun l : string * string => String.eqb (fst l) other)
                        (filter (fun l => negb (String.eqb (fst l) ident))
                           (tbl_memory_entities db)) =
                      filter (fun l : string * string => String.eqb (fst l) other)
                        (tbl_memory_entities db)).
      { induction (tbl_memory_entities db) as [| l ls IH]; [reflexivity |].
        simpl. destruct (String.eqb_spec (fst l) ident) as [He | _]; simpl.
        - destruct (String.eqb_spec (fst l) other) as [Ho | _]; [congruence | exact IH].
        - destruct (String.eqb (fst l) other); [f_equal; exact IH | exact IH]. }
      rewrite Hsame. reflexivity.
  - reflexivity.
Qed.

Lemma getEntity_insert : forall e ents ident,
  find (fun x => String.eqb (e_id x) ident) (insert_entity_or_ignore e ents) =
  match find (fun x => String.eqb (e_id x) ident) ents with
  | Some x => Some x
  | None => if String.eqb (e_id e) ident then Some e else None
  end.
Proof.
  intros e ents ident. unfold insert_entity_or_ignore.
  destruct (existsb _ ents) eqn:Hex.
  - destruct (find _ ents) as [x |] eqn:Hf; [reflexivity |].
    destruct (String.eqb_spec (e_id e) ident) as [He | _]; [| reflexivity].
    exfalso. apply existsb_exists in Hex. destruct Hex as [y [Hy Hye]].
    apply (find_none _ _ Hf) in Hy. apply String.eqb_eq in Hye.
    rewrite Hye, He, String.eqb_refl in Hy. discriminate.
  - induction ents as [| y ents IH]; [reflexivity |].
    simpl in *. apply orb_false_iff in Hex. destruct Hex as [_ Hex].
    destruct (String.eqb (e_id y) ident); [reflexivity | apply IH; exact Hex].
Qed.

(** X18.  Creating an entity never overwrites: when the identifier is
    taken, the stored entity stays as it is, with its name, type, aliases
    and counter, although the call returns the entity that was asked for, as
    if it had been stored.  Every other entity, the facts and the links are
    untouched. *)
Theorem createEntity_effects : forall db now ident nm ty descr als,
  fst (createEntity db now ident nm ty descr als) =
    mkEntity ident nm ty descr (orElse als []) [] now now 0 /\
  getEntity (snd (createEntity db now ident nm ty descr als)) ident =
    Some (match getEntity db ident with
          | Some stored => stored
          | None => fst (createEntity db now ident nm ty descr als)
          end) /\
  (forall other, other <> ident ->
     getEntity (snd (createEntity db now ident nm ty descr als)) other =
     getEntity db other) /\
  tbl_memories (snd (createEntity db now ident nm ty descr als)) = tbl_memories db /\
  tbl_memory_entities (snd (createEntity db now ident nm ty descr als)) =
    tbl_memory_entities db.
Proof.
  intros db now ident nm ty descr als. unfold createEntity, getEntity.
  cbn [fst snd tbl_entities tbl_memories tbl_memory_entities].
  split; [reflexivity |]. split; [| split; [| split; reflexivity]].
  - rewrite getEntity_insert. cbn [e_id]. rewrite String.eqb_refl.
    destruct (find _ (tbl_entities db)); reflexivity.
  - intros other Hne. rewrite getEntity_insert. cbn [e_id].
    destruct (find _ (tbl_entities db)); [reflexivity |].
    destruct (String.eqb_spec ident other) as [He | _]; [congruence | reflexivity].
Qed.

(** ** Storing a fact and reading it back *)

Lemma linked_entities_stored : forall db memoryId,
  linked_entities db memoryId = stable_sort String.leb (stored_links db memoryId).
Proof. reflexivity. Qed.

Lemma stored_links_linked : forall now memId db e,
  stored_links (linked now memId db e) memId =
  if existsb (String.eqb e) (stored_links db memId)
  then stored_links db memId
  else stored_links db memId ++ [e].
Proof.
  intros now memId db e. unfold linked, stored_links, insert_link_or_ignore.
  cbn [tbl_memory_entities fst snd].
  assert (Hsame : existsb (fun x : string * string =>
                             String.eqb (fst x) memId && String.eqb (snd x) e)
                          (tbl_memory_entities db) =
                  existsb (String.eqb e)
                          (map snd (filter (fun l : string * string => String.eqb (fst l) memId)
                                      (tbl_memory_entities db)))).
  { induction (tbl_memory_entities db) as [| [a b] ls IH]; [reflexivity |].
    simpl. destruct (String.eqb a memId); simpl; [| exact IH].
    rewrite IH, (String.eqb_sym b e). reflexivity. }
  rewrite Hsame. destruct (existsb (String.eqb e) _); [reflexivity |].
  rewrite filter_app, map_app. simpl. rewrite String.eqb_refl. reflexivity.
Qed.

(** From no link at all, the loop of [linkEntities] stores the listed
    entities once each, in the order of their first mention. *)
Lemma stored_links_linked_all : forall now memId ents db,
  NoDup (stored_links db memId) ->
  NoDup (stored_links (linked_all now memId ents db) memId) /\
  (forall e, In e (stored_links (linked_all now memId ents db) memId) <->
             In e (stored_links db memId) \/ In e ents) /\
  (NoDup (stored_links db memId ++ ents) ->
   stored_links (linked_all now memId ents db) memId = stored_links db memId ++ ents).
Proof.
  intros now memId ents. unfold linked_all.
  induction ents as [| e ents IH]; intros db Hnd.
  - simpl. split; [exact Hnd |]. split; [intro e; tauto |].
    intros _. symmetry. apply app_nil_r.
  - simpl fold_left.
    pose proof (stored_links_linked now memId db e) as Hstep.
    assert (Hnd1 : NoDup (stored_links (linked now memId db e) memId)).
    { rewrite Hstep.
      destruct (existsb (String.eqb e) (stored_links db memId)) eqn:Hex; [exact Hnd |].
      apply NoDup_app; [exact Hnd | repeat constructor; simpl; tauto |].
      intros x Hx [<- | []]. apply has_word_spec in Hx. congruence. }
    assert (Hin1 : forall x, In x (stored_links (linked now memId db e) memId) <->
                             In x (stored_links db memId) \/ x = e).
    { intro x. rewrite Hstep.
      destruct (existsb (String.eqb e) (stored_links db memId)) eqn:Hex.
      - apply has_word_spec in Hex. split; [auto |]. intros [H | ->]; assumption.
      - rewrite in_app_iff. simpl. intuition congruence. }
    destruct (IH (linked now memId db e) Hnd1) as [H1 [H2 H3]].
    split; [exact H1 |]. split.
    + intro x. rewrite H2, Hin1. simpl. split.
      * intros [[H | H] | H]; auto.
      * intros [H | [H | H]]; auto.
    + intro Hall.
      assert (Hnew : stored_links (linked now memId db e) memId =
                     stored_links db memId ++ [e]).
      { rewrite Hstep.
        destruct (existsb (String.eqb e) (stored_links db memId)) eqn:Hex; [| reflexivity].
        exfalso. apply has_word_spec in Hex.
        apply NoDup_remove_2 in Hall. apply Hall. apply in_or_app. left. exact Hex. }
      rewrite H3; rewrite Hnew, <- app_assoc; [reflexivity | exact Hall].
Qed.

Lemma no_links_of_fresh : forall db ident,
  integrity db -> getRow db ident = None -> stored_links db ident = [].
Proof.
  intros db ident [_ [_ [_ [Href _]]]] Hfresh. unfold stored_links.
  destruct (filter _ (tbl_memory_entities db)) as [| l ls] eqn:Hf; [reflexivity |].
  exfalso. assert (Hin : In l (filter (fun l : string * string => String.eqb (fst l) ident)
                                 (tbl_memory_entities db))).
  { rewrite Hf. left. reflexivity. }
  apply filter_In in Hin. destruct Hin as [Hin He]. apply String.eqb_eq in He.
  apply (getRow_None _ _ Hfresh). rewrite <- He. apply (Href l Hin).
Qed.

Lemma find_app_fresh : forall rows ident (r : Row),
  find (fun x => String.eqb (id x) ident) rows = None -> id r = ident ->
  find (fun x => String.eqb (id x) ident) (rows ++ [r]) = Some r.
Proof.
  intros rows ident r Hnone Hid. induction rows as [| x rows IH]; simpl in *.
  - rewrite Hid, String.eqb_refl. reflexivity.
  - destruct (String.eqb (id x) ident); [discriminate | apply IH; exact Hnone].
Qed.

Lemma find_app_other : forall rows ident other (r : Row),
  id r = ident -> other <> ident ->
  find (fun x => String.eqb (id x) other) (rows ++ [r]) =
  find (fun x => String.eqb (id x) other) rows.
Proof.
  intros rows ident other r Hid Hne. induction rows as [| x rows IH]; simpl.
  - rewrite Hid. destruct (String.eqb_spec ident other) as [He | _]; [congruence | reflexivity].
  - destruct (String.eqb (id x) other); [reflexivity | exact IH].
Qed.

(** The insertion sort on a total comparison gives a list in which no
    element is put behind its successor, and leaves such a list as it is. *)
Lemma insert_sorted_hd : forall (A : Type) (before : A -> A -> bool) x y l,
  before y x = true ->
  HdRel (fun a b => before a b = true) y l ->
  HdRel (fun a b => before a b = true) y (insert_sorted before x l).
Proof.
  intros A before x y l Hyx Hl. destruct l as [| z l]; simpl.
  - constructor. exact Hyx.
  - destruct (before x z); constructor; [exact Hyx |].
    inversion Hl; subst. assumption.
Qed.

Lemma stable_sort_ascending : forall (A : Type) (before : A -> A -> bool) l,
  (forall x y, before x y = false -> before y x = true) ->
  Sorted (fun a b => before a b = true) (stable_sort before l).
Proof.
  intros A before l Htot. unfold stable_sort.
  induction l as [| x l IH]; simpl; [constructor |].
  induction IH as [| y l' Hs IHs Hhd]; simpl.
  - repeat constructor.
  - destruct (before x y) eqn:Hxy.
    + constructor; [constructor; assumption | constructor; exact Hxy].
    + constructor; [exact IHs |].
      apply insert_sorted_hd; [apply Htot; exact Hxy | exact Hhd].
Qed.

Lemma stable_sort_of_ascending : forall (A : Type) (before : A -> A -> bool) l,
  Sorted (fun a b => before a b = true) l -> stable_sort before l = l.
Proof.
  intros A before l H. unfold stable_sort.
  induction H as [| x l Hs IH Hhd]; simpl; [reflexivity |].
  rewrite IH. destruct Hhd as [| y l' Hxy]; simpl; [reflexivity |].
  rewrite Hxy. reflexivity.
Qed.

Lemma leb_other : forall x y, String.leb x y = false -> String.leb y x = true.
Proof.
  intros x y H. destruct (String.leb_total x y) as [Hxy | Hyx]; [congruence | exact Hyx].
Qed.

(** X19.  In a database with intact tables, a fact created under an unused
    identifier is stored, and no other fact changes.  The first read of the
    identifier returns the row as it was created, with an access count of 0;
    the entities it reports are the listed ones without repetition, in
    ascending order of their identifiers, so that the fact read is the fact
    that the creation returned exactly when the list was ascending and
    without repetition.  A read stamps the access: the next read returns
    the time of the first read and an access count of 1. *)
Theorem createMemory_round_trip : forall db now ident input,
  integrity db ->
  getRow db ident = None ->
  exists m db',
    createMemory db now ident input = Some (m, db') /\
    getRow db' ident = Some (row m) /\
    (forall other, other <> ident -> getRow db' other = getRow db other) /\
    forall now1, exists m1 db1,
      getMemory db' now1 ident = (Some m1, db1) /\
      row m1 = row m /\ access_count m1 = 0%nat /\
      (forall e, In e (entities m1) <-> In e (entities m)) /\
      NoDup (entities m1) /\
      Sorted id_le (entities m1) /\
      (NoDup (entities m) -> Sorted id_le (entities m) -> m1 = m) /\
      forall now2, exists m2,
        fst (getMemory db1 now2 ident) = Some m2 /\
        row m2 = set_access now1 (row m) /\
        last_accessed m2 = now1 /\ access_count m2 = 1%nat /\
        entities m2 = entities m1.
Proof.
  intros db now ident input Hint Hfresh.
  destruct (@createMemory_fresh db now ident input Hfresh)
    as [m [db' [Hc [Hents [Hid [_ [_ [Hrows Hdb]]]]]]]].
  exists m, db'. split; [exact Hc |].
  assert (Hrow : getRow db' ident = Some (row m)).
  { unfold getRow. rewrite Hrows. apply find_app_fresh; [exact Hfresh | exact Hid]. }
  assert (Hcount : access_count m = 0%nat).
  { unfold createMemory in Hc. rewrite Hfresh in Hc.
    destruct (nonempty (in_entities input)).
    - destruct (linkEntities _ _ _ _); [| discriminate].
      injection Hc as Hm _. rewrite <- Hm. reflexivity.
    - injection Hc as Hm _. rewrite <- Hm. reflexivity. }
  pose proof (no_links_of_fresh db ident Hint Hfresh) as Hnone.
  assert (H1 : stored_links (with_memories db (tbl_memories db ++ [row m])) ident = [])
    by exact Hnone.
  assert (Hstored : NoDup (stored_links db' ident) /\
                    (forall e, In e (stored_links db' ident) <-> In e (entities m)) /\
                    (NoDup (entities m) -> stored_links db' ident = entities m)).
  { rewrite Hents, Hdb.
    destruct (nonempty (in_entities input)) eqn:Hne.
    - assert (Hnil : NoDup (stored_links (with_memories db (tbl_memories db ++ [row m]))
                              ident)) by (rewrite H1; constructor).
      destruct (stored_links_linked_all now ident (orElse (in_entities input) []) _ Hnil)
        as [Ha [Hb Hc']].
      split; [exact Ha |]. split.
      + intro e. rewrite Hb, H1. simpl. tauto.
      + intro Hnd. rewrite Hc'; rewrite H1; [reflexivity | exact Hnd].
    - rewrite H1.
      assert (Hempty : orElse (in_entities input) [] = []).
      { destruct (in_entities input) as [[| e ents] |]; [reflexivity | discriminate
                                                         | reflexivity]. }
      rewrite Hempty. split; [constructor |]. split; [intro e; tauto | reflexivity]. }
  destruct Hstored as [Hnd [Hin Heq]].
  split; [exact Hrow |]. split.
  { intros other Hne. unfold getRow. rewrite Hrows.
    apply (find_app_other _ ident); [exact Hid | exact Hne]. }
  intro now1.
  destruct (getMemory_read db' now1 ident (row m) Hrow) as [db1 [Hg [Hr1 [_ Ht1]]]].
  exists (mkMemory (row m) (linked_entities db' ident)), db1.
  split; [exact Hg |]. cbn [row entities].
  split; [reflexivity |]. split; [exact Hcount |].
  rewrite linked_entities_stored.
  split.
  { intro e. rewrite stable_sort_In. apply Hin. }
  split.
  { apply (Permutation_NoDup (l := stored_links db' ident)); [| exact Hnd].
    apply Permutation_sym. apply stable_sort_perm. }
  split.
  { apply (stable_sort_ascending string String.leb). exact leb_other. }
  split.
  { intros Hnd' Hasc. rewrite (Heq Hnd').
    rewrite (stable_sort_of_ascending string String.leb) by exact Hasc.
    destruct m. reflexivity. }
  intro now2.
  destruct (getMemory_read db1 now2 ident _ Hr1) as [db2 [Hg2 _]].
  eexists. rewrite Hg2. cbn [fst]. split; [reflexivity |]. cbn [row entities].
  split; [reflexivity |]. split; [reflexivity |].
  split; [cbn [access_count set_access]; rewrite Hcount; reflexivity |].
  unfold linked_entities. destruct Ht1 as [_ Hl]. rewrite Hl. reflexivity.
Qed.

Lemma createMemory_round_trip_witness :
  integrity empty_db /\
  getRow empty_db "b" = None /\
  exists m db',
    createMemory empty_db 1 "b" (service_input "The service is disabled always") =
      Some (m, db') /\
    getRow db' "b" = Some (row m) /\
    (forall other, other <> "b" -> getRow db' other = getRow empty_db other) /\
    forall now1, exists m1 db1,
      getMemory db' now1 "b" = (Some m1, db1) /\
      row m1 = row m /\ access_count m1 = 0%nat /\
      (forall e, In e (entities m1) <-> In e (entities m)) /\
      NoDup (entities m1) /\
      Sorted id_le (entities m1) /\
      (NoDup (entities m) -> Sorted id_le (entities m) -> m1 = m) /\
      forall now2, exists m2,
        fst (getMemory db1 now2 "b") = Some m2 /\
        row m2 = set_access now1 (row m) /\
        last_accessed m2 = now1 /\ access_count m2 = 1%nat /\
        entities m2 = entities m1.
Proof.
  split; [exact empty_db_integrity |]. split; [reflexivity |].
  exact (createMemory_round_trip empty_db 1 "b"
           (service_input "The service is disabled always")
           empty_db_integrity eq_refl).
Defined.

(** ** The sweep: its counters, and a second sweep at the same time *)

Lemma decay_fold_counts : forall now sel st,
  exists a u,
    d_updated (fold_left (decay_step now) sel st) = (d_updated st + u)%nat /\
    d_archived (fold_left (decay_step now) sel st) = (d_archived st + a)%nat /\
    (a <= u <= List.length sel)%nat.
Proof.
  intros now sel. induction sel as [| mem sel IH]; intro st.
  - exists 0%nat, 0%nat. simpl. repeat split; lia.
  - simpl fold_left. destruct (IH (decay_step now st mem)) as [a [u [Hu [Ha Hle]]]].
    assert (Hstep : exists a1 u1,
              d_updated (decay_step now st mem) = (d_updated st + u1)%nat /\
              d_archived (decay_step now st mem) = (d_archived st + a1)%nat /\
              (a1 <= u1 <= 1)%nat).
    { unfold decay_step. destruct (Reqb (clamped now mem) (relevance_score mem)).
      - exists 0%nat, 0%nat. repeat split; lia.
      - destruct (Rltb (clamped now mem) 0.05).
        + exists 1%nat, 1%nat. cbn [d_updated d_archived]. repeat split; lia.
        + exists 0%nat, 1%nat. cbn [d_updated d_archived]. repeat split; lia. }
    destruct Hstep as [a1 [u1 [Hu1 [Ha1 Hle1]]]].
    exists (a1 + a)%nat, (u1 + u)%nat. rewrite Hu, Ha, Hu1, Ha1.
    cbn [List.length]. repeat split; lia.
Qed.

Lemma fold_left_fixed : forall (A S : Type) (f : S -> A -> S) (l : list A) (s : S),
  (forall a, In a l -> f s a = s) -> fold_left f l s = s.
Proof.
  intros A S f l s. induction l as [| a l IH]; intro H; [reflexivity |].
  simpl. rewrite (H a (or_introl eq_refl)). apply IH.
  intros a' Ha'. apply H. right. exact Ha'.
Qed.

(** X20.  Of the facts that a sweep looks at, the unpinned ones, it
    counts as updated those whose relevance it rewrites, and as archived
    some of these.  It changes no column but the relevance, no entity and no
    link; and a second sweep at the same time finds every relevance as it
    should be and writes nothing. *)
Theorem applyDecay_settles : forall db now,
  wf_db db ->
  (d_archived (applyDecay db now) <= d_updated (applyDecay db now) <=
   List.length (filter (fun r => negb (pinned r)) (tbl_memories db)))%nat /\
  same_view (set_relevance 0) db (d_db (applyDecay db now)) /\
  same_tables db (d_db (applyDecay db now)) /\
  applyDecay (d_db (applyDecay db now)) now =
    mkDecayState 0 0 (d_db (applyDecay db now)).
Proof.
  intros db now Hwf. split; [| split; [| split]].
  - unfold applyDecay.
    destruct (decay_fold_counts now (filter (fun r => negb (pinned r)) (tbl_memories db))
                (mkDecayState 0 0 db)) as [a [u [Hu [Ha Hle]]]].
    rewrite Hu, Ha. simpl. lia.
  - unfold same_view. rewrite applyDecay_rows by exact Hwf.
    rewrite map_map. apply map_ext. intro r. unfold decay_row.
    destruct (pinned r); reflexivity.
  - apply applyDecay_tables.
  - unfold applyDecay at 1. apply fold_left_fixed.
    intros mem Hmem. apply filter_In in Hmem. destruct Hmem as [Hin Hpin].
    rewrite applyDecay_rows in Hin by exact Hwf.
    apply in_map_iff in Hin. destruct Hin as [r [<- _]].
    unfold decay_row in *. destruct (pinned r) eqn:Hp; [rewrite Hp in Hpin; discriminate |].
    unfold decay_step.
    replace (Reqb (clamped now (set_relevance (clamped now r) r))
               (relevance_score (set_relevance (clamped now r) r))) with true;
      [reflexivity |].
    symmetry. apply Reqb_true. reflexivity.
Qed.

Lemma applyDecay_settles_witness :
  wf_db db_created /\
  (d_archived (applyDecay db_created (100 * day)) <=
   d_updated (applyDecay db_created (100 * day)) <=
   List.length (filter (fun r => negb (pinned r)) (tbl_memories db_created)))%nat /\
  same_view (set_relevance 0) db_created (d_db (applyDecay db_created (100 * day))) /\
  same_tables db_created (d_db (applyDecay db_created (100 * day))) /\
  applyDecay (d_db (applyDecay db_created (100 * day))) (100 * day) =
    mkDecayState 0 0 (d_db (applyDecay db_created (100 * day))).
Proof.
  split; [exact db_created_wf |].
  exact (applyDecay_settles db_created (100 * day) db_created_wf).
Defined.

(** ** Scores stay in the unit interval *)

Lemma rounded_range : forall x, 0 <= x <= 1 -> 0 <= Math_round (x * 100) / 100 <= 1.
Proof.
  intros x Hx. unfold Math_round.
  assert (H : (0 <= Math_round_Z (x * 100) <= 100)%Z).
  { apply Math_round_Z_bounds. simpl. lra. }
  assert (H0 : IZR 0 <= IZR (Math_round_Z (x * 100))) by (apply IZR_le; lia).
  assert (H1 : IZR (Math_round_Z (x * 100)) <= IZR 100) by (apply IZR_le; lia).
  lra.
Qed.

Lemma in_range_access : forall now r, in_range r -> in_range (set_access now r).
Proof. intros now r H. exact H. Qed.

Lemma in_range_updates : forall now u r, in_range r -> in_range (apply_updates now u r).
Proof. intros now u r H. exact H. Qed.

Lemma in_range_relevance : forall v r,
  0 <= v <= 1 -> in_range r -> in_range (set_relevance v r).
Proof. intros v r Hv [Hs _]. split; [exact Hs | exact Hv]. Qed.

Lemma in_range_confidence : forall c now r,
  0 <= score c <= 1 -> in_range r -> in_range (set_confidence c now r).
Proof. intros c now r Hc [_ Hr]. split; [exact Hc | exact Hr]. Qed.

Lemma getMemory_in_range : forall db now ident,
  scores_in_range db -> scores_in_range (snd (getMemory db now ident)).
Proof.
  intros db now ident H. unfold scores_in_range. rewrite getMemory_rows.
  apply update_rows_Forall; [apply in_range_access | exact H].
Qed.

Lemma updateConfidence_in_range : forall db now ident c,
  0 <= score c <= 1 -> scores_in_range db ->
  scores_in_range (updateConfidence db now ident c).
Proof.
  intros db now ident c Hc H. unfold scores_in_range, updateConfidence.
  cbn [tbl_memories with_memories].
  apply update_rows_Forall; [intros r Hr; apply in_range_confidence; assumption | exact H].
Qed.

Lemma query_rows : forall db limit before cond (m : Memory),
  In m (map (rowToMemory db)
          (sql_limit limit (stable_sort before (filter cond (tbl_memories db))))) ->
  In (row m) (tbl_memories db).
Proof.
  intros db limit before cond m H.
  apply in_map_iff in H. destruct H as [r [<- Hr]].
  apply sql_limit_In in Hr. apply stable_sort_In in Hr. apply filter_In in Hr. apply Hr.
Qed.

Lemma query_rows_newest_first : forall db limit before cond (m : Memory),
  In m (map (rowToMemory db)
          (sql_limit limit (stable_sort before (rev (filter cond (tbl_memories db)))))) ->
  In (row m) (tbl_memories db).
Proof.
  intros db limit before cond m H.
  apply in_map_iff in H. destruct H as [r [<- Hr]].
  apply sql_limit_In in Hr. apply stable_sort_In in Hr. apply in_rev in Hr.
  apply filter_In in Hr. apply Hr.
Qed.

Lemma push_new_In : forall (P : Memory -> Prop) candidates ms,
  (forall m, In m candidates -> P m) -> (forall m, In m ms -> P m) ->
  forall m, In m (fold_left push_new ms candidates) -> P m.
Proof.
  intros P candidates ms. revert candidates.
  induction ms as [| x ms IH]; intros candidates Hc Hms; [exact Hc |].
  simpl. apply IH.
  - intros m Hm. unfold push_new in Hm.
    destruct (existsb _ candidates); [apply Hc; exact Hm |].
    apply in_app_or in Hm. destruct Hm as [Hm | [<- | []]]; [apply Hc; exact Hm |].
    apply Hms. left. reflexivity.
  - intros m Hm. apply Hms. right. exact Hm.
Qed.

Lemma findRelated_rows : forall db (memory m : Memory),
  In m (findRelated db memory) -> In (row m) (tbl_memories db).
Proof.
  intros db memory m. unfold findRelated.
  set (byEntity := fold_left _ (entities memory) []).
  assert (Hby : forall x, In x byEntity -> In (row x) (tbl_memories db)).
  { unfold byEntity.
    apply (fold_left_keeps _ _
             (fun cs : list Memory => forall x, In x cs -> In (row x) (tbl_memories db))).
    - intros cs entityId Hcs.
      apply (push_new_In (fun x : Memory => In (row x) (tbl_memories db))); [exact Hcs |].
      intros x Hx. unfold getEntityMemories in Hx. apply (query_rows _ _ _ _ _ Hx).
    - intros x []. }
  destruct (truthy _); [| apply Hby].
  apply (push_new_In (fun x : Memory => In (row x) (tbl_memories db))); [exact Hby |].
  intros x Hx. unfold searchByText in Hx. apply (query_rows_newest_first _ _ _ _ _ Hx).
Qed.

Lemma row_in_range : forall db (r : Row),
  scores_in_range db -> In r (tbl_memories db) -> in_range r.
Proof.
  intros db r H Hin. unfold scores_in_range in H. rewrite Forall_forall in H.
  apply H. exact Hin.
Qed.

Lemma checkCorroboration_in_range : forall db now (newMemory : Memory),
  scores_in_range db -> scores_in_range (snd (checkCorroboration db now newMemory)).
Proof.
  intros db now newMemory H. unfold checkCorroboration.
  apply (fold_left_In_keeps _ _
           (fun st : list CorroborationResult * Db => scores_in_range (snd st)));
    [| exact H].
  intros [results db1] existing Hin Hst. unfold corroborate_step. cbn [snd] in *.
  destruct (String.eqb (id existing) (id newMemory)); [exact Hst |].
  destruct (isIndependentSource newMemory existing); [| exact Hst].
  destruct (Rltb 0.5 _); [| exact Hst].
  cbn [snd]. apply updateConfidence_in_range; [| exact Hst].
  cbn [score]. apply rounded_range.
  destruct (row_in_range db (row existing) H (findRelated_rows _ _ _ Hin)) as [Hold _].
  pose proof (contentSimilarity_range (content newMemory) (content existing)) as Hsim.
  destruct (calculateBoost_hundredths _ newMemory existing Hsim) as [n [Hn Hb]].
  rewrite Hb.
  assert (H0 : IZR 0 <= IZR n) by (apply IZR_le; lia).
  split; [apply Rmin_glb; lra | apply Rmin_l].
Qed.

Lemma contradictions_from_in_range : forall db now limit memories st,
  scores_in_range db ->
  (forall m : Memory, In m memories -> In (row m) (tbl_memories db)) ->
  scores_in_range (snd st) ->
  scores_in_range (snd (contradictions_from now limit memories st)).
Proof.
  intros db now limit memories.
  induction memories as [| a rest IH]; intros st H Hin Hst; [exact Hst |].
  rewrite contradictions_from_cons.
  destruct (Z.of_nat (List.length (fst st)) <? limit)%Z; [| exact Hst].
  apply IH; [exact H | intros m Hm; apply Hin; right; exact Hm |].
  apply (fold_left_In_keeps _ _
           (fun s : list ContradictionResult * Db => scores_in_range (snd s)));
    [| exact Hst].
  intros [found db1] b Hb Hs. unfold contradiction_step. cbn [snd] in *.
  destruct (Nat.eqb _ 0); [exact Hs |].
  destruct (negb _); [exact Hs |].
  destruct (detectContradiction a b); [| exact Hs].
  cbn [snd].
  destruct (row_in_range db (row a) H (Hin a (or_introl eq_refl))) as [Ha _].
  destruct (row_in_range db (row b) H (Hin b (or_intror Hb))) as [Hb' _].
  apply updateConfidence_in_range; [exact Hb' |].
  apply updateConfidence_in_range; [exact Ha | exact Hs].
Qed.

Lemma verifyMemory_in_range : forall db now ident,
  scores_in_range db -> scores_in_range (snd (verifyMemory db now ident)).
Proof.
  intros db now ident H. unfold verifyMemory.
  pose proof (getMemory_in_range db now ident H) as H1.
  destruct (getMemory db now ident) as [[memory |] db1] eqn:Hg; [| exact H1].
  destruct (fold_left _ _ _) as [count ev]. cbn [snd] in *.
  destruct (0 <? count)%nat; [| exact H1].
  apply updateConfidence_in_range; [| exact H1].
  cbn [score]. apply rounded_range.
  assert (Hold : 0 <= score (confidence memory) <= 1).
  { unfold getMemory in Hg. destruct (getRow db ident) as [r |] eqn:Hr; [| discriminate].
    injection Hg as Hm _. rewrite <- Hm. cbn [row rowToMemory].
    apply (row_in_range db r H). apply (getRow_In _ _ Hr). }
  pose proof (pos_INR count) as Hc.
  split; [apply Rmin_glb; lra | apply Rmin_l].
Qed.

Lemma recall_in_range : forall db embedder now query,
  scores_in_range db -> scores_in_range (snd (recall db embedder now query)).
Proof.
  intros db embedder now query H. rewrite recall_db. unfold gather_semantic.
  destruct embedder as [embed |]; [| exact H].
  apply (fold_left_keeps _ _ (fun st : CandidateMap * Db => scores_in_range (snd st)));
    [| exact H].
  intros [m db1] e Hst. unfold semantic_step. cbn [snd] in *.
  destruct (Rltb 0.5 _); [| exact Hst].
  destruct (map_has (fst e) m); [exact Hst |].
  pose proof (getMemory_in_range db1 now (fst e) Hst) as Hg.
  destruct (getMemory db1 now (fst e)) as [[mem |] db2]; exact Hg.
Qed.

Lemma initial_score_range : forall input, 0 <= score (computeInitialConfidence input) <= 1.
Proof.
  intro input. rewrite initial_score_value.
  destruct (in_type input), (truthy (in_context input)); unfold spec_base; lra.
Qed.

Lemma applyDecay_in_range : forall db now,
  scores_in_range db -> scores_in_range (d_db (applyDecay db now)).
Proof.
  intros db now H. unfold applyDecay.
  apply (fold_left_keeps _ _ (fun st : DecayState => scores_in_range (d_db st))); [| exact H].
  intros st mem Hst. unfold decay_step.
  destruct (Reqb _ _); [exact Hst |].
  unfold scores_in_range. cbn [d_db tbl_memories with_memories].
  apply update_rows_Forall; [| exact Hst].
  intros r Hr. apply in_range_relevance; [apply clamped_range | exact Hr].
Qed.

Lemma api_step_in_range : forall db db',
  api_step db db' -> scores_in_range db -> scores_in_range db'.
Proof.
  intros db db' Hstep H.
  destruct Hstep as
    [db now ident input m db' Hc | db now ident nm ty descr als | db now ident
    | db now ident u | db ident | db now | db now m
    | db now limit | db now ident | db embedder now query].
  - destruct (createMemory_rows _ _ _ _ Hc) as [_ [Hrows [_ [Hrel _]]]].
    unfold scores_in_range. rewrite Hrows. apply Forall_app. split; [exact H |].
    constructor; [| constructor]. split.
    + unfold createMemory in Hc. destruct (getRow db ident); [discriminate |].
      assert (Hconf : confidence m = computeInitialConfidence input).
      { destruct (nonempty (in_entities input)).
        - destruct (linkEntities _ _ _ _); [| discriminate].
          injection Hc as Hm _. rewrite <- Hm. reflexivity.
        - injection Hc as Hm _. rewrite <- Hm. reflexivity. }
      change (confidence (row m)) with (confidence m).
      rewrite Hconf. apply initial_score_range.
    + change (relevance_score (row m)) with (relevance_score m). rewrite Hrel. lra.
  - exact H.
  - apply getMemory_in_range. exact H.
  - unfold scores_in_range. rewrite updateMemory_rows.
    apply update_rows_Forall; [apply in_range_access |].
    apply update_rows_Forall; [apply in_range_updates |].
    apply update_rows_Forall; [apply in_range_access | exact H].
  - unfold scores_in_range. rewrite deleteMemory_rows.
    apply Forall_forall. intros r Hr. apply filter_In in Hr.
    apply (row_in_range db r H). apply Hr.
  - apply applyDecay_in_range. exact H.
  - apply checkCorroboration_in_range. exact H.
  - unfold findContradictions.
    apply (contradictions_from_in_range db now limit (getAllMemories db 200) ([], db));
      [exact H | | exact H].
    intros a Ha. apply (getAllMemories_rows db 200). exact Ha.
  - apply verifyMemory_in_range. exact H.
  - apply recall_in_range. exact H.
Qed.

(** X21.  In every state that the public methods of the store, the recall
    engine and the corroboration engine reach from the empty database, the
    trust score and the relevance of every fact lie between 0 and 1. *)
Theorem api_scores_in_range : forall db,
  api_reachable db -> scores_in_range db.
Proof.
  intros db H. induction H as [| db db' _ IH Hstep].
  - constructor.
  - exact (api_step_in_range db db' Hstep IH).
Qed.

Lemma db_touched_api : api_reachable db_touched.
Proof.
  destruct db_created_run as [m Hm].
  eapply api_next; [eapply api_next; [eapply api_next; [apply api_init |] |] |].
  - eapply api_createMemory. exact Hm.
  - apply (api_applyDecay db_created (100 * day)).
  - apply (api_getMemory db_swept (100 * day) "m1").
Qed.

Lemma api_scores_in_range_witness :
  api_reachable db_touched /\ scores_in_range db_touched.
Proof.
  split; [exact db_touched_api |].
  exact (api_scores_in_range db_touched db_touched_api).
Defined.

(** ** One check raises a fact at most once; a verification touches one fact *)

Lemma push_new_ids : forall candidates (m : Memory),
  NoDup (map (fun c : Memory => id c) candidates) ->
  NoDup (map (fun c : Memory => id c) (push_new candidates m)).
Proof.
  intros candidates m H. unfold push_new.
  destruct (existsb _ candidates) eqn:Hex; [exact H |].
  rewrite map_app. simpl. apply NoDup_app; [exact H | repeat constructor; simpl; tauto |].
  intros x Hx [<- | []].
  apply in_map_iff in Hx. destruct Hx as [c [Hc Hin]].
  assert (Ht : existsb (fun c : Memory => String.eqb (id c) (id m)) candidates = true).
  { apply existsb_exists. exists c. split; [exact Hin | apply String.eqb_eq; exact Hc]. }
  congruence.
Qed.

Lemma findRelated_ids : forall db (memory : Memory),
  NoDup (map (fun c : Memory => id c) (findRelated db memory)).
Proof.
  intros db memory. unfold findRelated.
  set (byEntity := fold_left _ (entities memory) []).
  assert (Hby : NoDup (map (fun c : Memory => id c) byEntity)).
  { unfold byEntity.
    apply (fold_left_keeps _ _
             (fun cs : list Memory => NoDup (map (fun c : Memory => id c) cs))).
    - intros cs entityId Hcs.
      apply (fold_left_keeps _ _
               (fun cs : list Memory => NoDup (map (fun c : Memory => id c) cs)));
        [| exact Hcs].
      intros cs' m Hcs'. apply push_new_ids. exact Hcs'.
    - constructor. }
  destruct (truthy _); [| exact Hby].
  apply (fold_left_keeps _ _
           (fun cs : list Memory => NoDup (map (fun c : Memory => id c) cs)));
    [| exact Hby].
  intros cs' m Hcs'. apply push_new_ids. exact Hcs'.
Qed.

Lemma corroborate_step_result : forall now (newMemory : Memory) st existing,
  fst (corroborate_step now newMemory st existing) = fst st \/
  exists res, fst (corroborate_step now newMemory st existing) = fst st ++ [res] /\
              memoryId res = id existing.
Proof.
  intros now newMemory [results db] existing. unfold corroborate_step.
  destruct (String.eqb (id existing) (id newMemory)); [left; reflexivity |].
  destruct (isIndependentSource newMemory existing); [| left; reflexivity].
  destruct (Rltb 0.5 _); [| left; reflexivity].
  right. eexists. split; reflexivity.
Qed.

Lemma corroborate_fold_ids : forall now (newMemory : Memory) related st,
  NoDup (map (fun c : Memory => id c) related) ->
  NoDup (map memoryId (fst st)) ->
  (forall x, In x (map memoryId (fst st)) ->
             ~ In x (map (fun c : Memory => id c) related)) ->
  NoDup (map memoryId (fst (fold_left (corroborate_step now newMemory) related st))).
Proof.
  intros now newMemory related.
  induction related as [| a rest IH]; intros st Hnd Hst Hdis; [exact Hst |].
  simpl fold_left. inversion Hnd as [| ? ? Ha Hrest]; subst.
  destruct (corroborate_step_result now newMemory st a) as [Heq | [res [Heq Hid]]].
  - apply IH; [exact Hrest | rewrite Heq; exact Hst |].
    rewrite Heq. intros x Hx Hin. apply (Hdis x Hx). right. exact Hin.
  - apply IH; [exact Hrest | |].
    + rewrite Heq, map_app. simpl.
      apply NoDup_app; [exact Hst | repeat constructor; simpl; tauto |].
      intros x Hx [<- | []]. apply (Hdis _ Hx). left. symmetry. exact Hid.
    + rewrite Heq, map_app. intros x Hx Hin.
      apply in_app_or in Hx. destruct Hx as [Hx | [<- | []]].
      * apply (Hdis x Hx). right. exact Hin.
      * rewrite Hid in Hin. exact (Ha Hin).
Qed.

(** X22.  One corroboration check reports every fact at most once: the
    related facts are gathered without repetition, so that no fact is raised
    twice by one new fact. *)
Theorem checkCorroboration_once : forall db now (newMemory : Memory),
  NoDup (map (fun c : Memory => id c) (findRelated db newMemory)) /\
  NoDup (map memoryId (fst (checkCorroboration db now newMemory))).
Proof.
  intros db now newMemory. split; [apply findRelated_ids |].
  unfold checkCorroboration. apply corroborate_fold_ids.
  - apply findRelated_ids.
  - constructor.
  - intros x [].
Qed.

Lemma updateConfidence_other : forall db now ident c other,
  other <> ident -> getRow (updateConfidence db now ident c) other = getRow db other.
Proof.
  intros db now ident c other Hne. unfold updateConfidence.
  apply getRow_other; [reflexivity | exact Hne].
Qed.

Lemma getMemory_other : forall db now ident other,
  other <> ident -> getRow (snd (getMemory db now ident)) other = getRow db other.
Proof.
  intros db now ident other Hne. unfold getMemory.
  destruct (getRow db ident); [| reflexivity].
  cbn [snd]. apply getRow_other; [reflexivity | exact Hne].
Qed.

(** X23.  A verification touches one fact only: every fact with another
    identifier is stored as before, and so are the entities and the links;
    of the verified fact nothing changes but the access tracking, the trust
    record and the time of modification. *)
Theorem verifyMemory_frame : forall db now ident,
  (forall other, other <> ident ->
     getRow (snd (verifyMemory db now ident)) other = getRow db other) /\
  same_tables db (snd (verifyMemory db now ident)) /\
  same_view (fun r => forget_access (forget_confidence r)) db
            (snd (verifyMemory db now ident)).
Proof.
  intros db now ident. split; [| split].
  - intros other Hne. unfold verifyMemory.
    pose proof (getMemory_other db now ident other Hne) as H.
    destruct (getMemory db now ident) as [[memory |] db1]; [| exact H].
    destruct (fold_left _ _ _) as [count ev]. cbn [snd] in *.
    destruct (0 <? count)%nat; [| exact H].
    rewrite updateConfidence_other by exact Hne. exact H.
  - apply verifyMemory_tables.
  - apply verifyMemory_view; reflexivity.
Qed.

(** ** The entity manager *)

Lemma seed_step_entity : forall now st def ident,
  getEntity (snd (seed_step now st def)) ident =
  match getEntity (snd st) ident with
  | Some e => Some e
  | None =>
      if String.eqb (d_id def) ident
      then Some (mkEntity (d_id def) (d_name def) (d_type def) (d_description def)
                   (orElse (d_aliases def) []) [] (now (d_id def)) (now (d_id def)) 0)
      else None
  end.
Proof.
  intros now st def ident. unfold seed_step.
  destruct (getEntity (snd st) (d_id def)) as [e0 |] eqn:He0.
  - destruct (getEntity (snd st) ident) as [e |] eqn:He; [reflexivity |].
    destruct (String.eqb_spec (d_id def) ident) as [Heq | _]; [| reflexivity].
    rewrite Heq in He0. congruence.
  - cbn [snd]. unfold createEntity, getEntity. cbn [snd tbl_entities].
    rewrite getEntity_insert. reflexivity.
Qed.

Lemma seed_step_tables : forall now st def,
  tbl_memories (snd (seed_step now st def)) = tbl_memories (snd st) /\
  tbl_memory_entities (snd (seed_step now st def)) = tbl_memory_entities (snd st).
Proof.
  intros now st def. unfold seed_step.
  destruct (getEntity (snd st) (d_id def)); split; reflexivity.
Qed.

Lemma seed_fold_keeps : forall now defs st ident e,
  getEntity (snd st) ident = Some e ->
  getEntity (snd (fold_left (seed_step now) defs st)) ident = Some e.
Proof.
  intros now defs. induction defs as [| def defs IH]; intros st ident e H; [exact H |].
  simpl. apply IH. rewrite seed_step_entity, H. reflexivity.
Qed.

Lemma seed_fold_has : forall now defs st def,
  In def defs ->
  exists e, getEntity (snd (fold_left (seed_step now) defs st)) (d_id def) = Some e.
Proof.
  intros now defs. induction defs as [| d defs IH]; intros st def Hin; [destruct Hin |].
  simpl. destruct Hin as [-> | Hin]; [| apply IH; exact Hin].
  pose proof (seed_step_entity now st def (d_id def)) as H.
  rewrite String.eqb_refl in H.
  destruct (getEntity (snd st) (d_id def)) as [e |];
    eexists; apply seed_fold_keeps; exact H.
Qed.

Lemma seed_fold_count : forall now defs st,
  NoDup (map d_id defs) ->
  fst (fold_left (seed_step now) defs st) =
  (fst st + List.length (filter (unknown_in (snd st)) defs))%nat.
Proof.
  intros now defs. induction defs as [| def defs IH]; intros st Hnd; [simpl; lia |].
  inversion Hnd as [| ? ? Hdef Hrest]; subst.
  simpl fold_left. rewrite (IH _ Hrest).
  assert (Hsame : filter (unknown_in (snd (seed_step now st def))) defs =
                  filter (unknown_in (snd st)) defs).
  { apply filter_ext_in. intros x Hx. unfold unknown_in.
    rewrite seed_step_entity.
    destruct (getEntity (snd st) (d_id x)); [reflexivity |].
    destruct (String.eqb_spec (d_id def) (d_id x)) as [He | _]; [| reflexivity].
    exfalso. apply Hdef. rewrite He. apply in_map. exact Hx. }
  rewrite Hsame. cbn [filter]. unfold unknown_in at 2. unfold seed_step.
  destruct (getEntity (snd st) (d_id def)); cbn [fst List.length]; lia.
Qed.

Lemma seed_fold_tables : forall now defs st,
  tbl_memories (snd (fold_left (seed_step now) defs st)) = tbl_memories (snd st) /\
  tbl_memory_entities (snd (fold_left (seed_step now) defs st)) =
  tbl_memory_entities (snd st).
Proof.
  intros now defs. induction defs as [| def defs IH]; intro st; [split; reflexivity |].
  simpl. destruct (IH (seed_step now st def)) as [H1 H2].
  destruct (seed_step_tables now st def) as [H3 H4]. split; congruence.
Qed.

Lemma KNOWN_ENTITIES_ids : NoDup (map d_id KNOWN_ENTITIES).
Proof.
  assert (H : nodup string_dec (map d_id KNOWN_ENTITIES) = map d_id KNOWN_ENTITIES)
    by (vm_compute; reflexivity).
  rewrite <- H. apply NoDup_nodup.
Qed.

Lemma seed_fold_entity : forall now defs st def,
  NoDup (map d_id defs) -> In def defs ->
  getEntity (snd (fold_left (seed_step now) defs st)) (d_id def) =
  Some (match getEntity (snd st) (d_id def) with
        | Some e => e
        | None => entity_of now def
        end).
Proof.
  intros now defs. induction defs as [| d defs IH]; intros st def Hnd Hin; [destruct Hin |].
  inversion Hnd as [| ? ? Hd Hrest]; subst. simpl fold_left.
  pose proof (seed_step_entity now st d (d_id def)) as Hstep.
  destruct Hin as [-> | Hin].
  - rewrite String.eqb_refl in Hstep.
    apply seed_fold_keeps. rewrite Hstep. unfold entity_of.
    destruct (getEntity (snd st) (d_id def)); reflexivity.
  - rewrite (IH _ def Hrest Hin), Hstep.
    destruct (getEntity (snd st) (d_id def)); [reflexivity |].
    destruct (String.eqb_spec (d_id d) (d_id def)) as [He | _]; [| reflexivity].
    exfalso. apply Hd. rewrite He. apply in_map. exact Hin.
Qed.

Lemma seed_fold_other : forall now defs st ident,
  ~ In ident (map d_id defs) ->
  getEntity (snd (fold_left (seed_step now) defs st)) ident = getEntity (snd st) ident.
Proof.
  intros now defs. induction defs as [| d defs IH]; intros st ident Hno; [reflexivity |].
  simpl fold_left. rewrite IH by (intro H; apply Hno; right; exact H).
  rewrite seed_step_entity.
  destruct (getEntity (snd st) ident); [reflexivity |].
  destruct (String.eqb_spec (d_id d) ident) as [He | _]; [| reflexivity].
  exfalso. apply Hno. left. exact He.
Qed.

Lemma seed_all_effects : forall defs db now,
  NoDup (map d_id defs) ->
  (forall def, In def defs ->
     getEntity (snd (seed_all defs db now)) (d_id def) =
     Some (match getEntity db (d_id def) with
           | Some stored => stored
           | None => entity_of now def
           end)) /\
  (forall ident, ~ In ident (map d_id defs) ->
     getEntity (snd (seed_all defs db now)) ident = getEntity db ident) /\
  fst (seed_all defs db now) = List.length (filter (unknown_in db) defs) /\
  tbl_memories (snd (seed_all defs db now)) = tbl_memories db /\
  tbl_memory_entities (snd (seed_all defs db now)) = tbl_memory_entities db /\
  (forall now', seed_all defs (snd (seed_all defs db now)) now' =
                (0%nat, snd (seed_all defs db now))).
Proof.
  intros defs db now Hnd.
  split; [| split; [| split; [| split; [| split]]]].
  - intros def Hin. apply (seed_fold_entity now defs (0%nat, db) def Hnd Hin).
  - intros ident Hno. apply (seed_fold_other now defs (0%nat, db) ident Hno).
  - unfold seed_all. rewrite seed_fold_count by exact Hnd. reflexivity.
  - apply (seed_fold_tables now defs (0%nat, db)).
  - apply (seed_fold_tables now defs (0%nat, db)).
  - intro now'. unfold seed_all at 1. apply fold_left_fixed.
    intros def Hin. unfold seed_step. cbn [snd].
    destruct (seed_fold_has now defs (0%nat, db) def Hin) as [e He].
    unfold seed_all. rewrite He. reflexivity.
Qed.

(** X24.  Seeding creates exactly the known entities that the store does
    not hold yet, each with the name, type, description and aliases of its
    definition, no metadata and the counter 0, and returns their number.  An
    entity that was stored under a known identifier stays as it was, with
    its name, type, aliases and counter; every entity under another
    identifier, the facts and the links are untouched; and a second seeding
    creates nothing. *)
Theorem seedEntities_effects : forall db now,
  (forall def, In def KNOWN_ENTITIES ->
     getEntity (snd (seedEntities db now)) (d_id def) =
     Some (match getEntity db (d_id def) with
           | Some stored => stored
           | None => entity_of now def
           end)) /\
  (forall ident, ~ In ident (map d_id KNOWN_ENTITIES) ->
     getEntity (snd (seedEntities db now)) ident = getEntity db ident) /\
  fst (seedEntities db now) = List.length (filter (unknown_in db) KNOWN_ENTITIES) /\
  tbl_memories (snd (seedEntities db now)) = tbl_memories db /\
  tbl_memory_entities (snd (seedEntities db now)) = tbl_memory_entities db /\
  (forall now', seedEntities (snd (seedEntities db now)) now' =
                (0%nat, snd (seedEntities db now))).
Proof.
  intros db now. unfold seedEntities.
  exact (seed_all_effects KNOWN_ENTITIES db now KNOWN_ENTITIES_ids).
Qed.

Lemma alias_values_known :
  forall k v, In (k, v) buildAliasMap -> In v (map d_id KNOWN_ENTITIES).
Proof.
  assert (H : forallb (fun e : string * string =>
                         existsb (String.eqb (snd e)) (map d_id KNOWN_ENTITIES))
                      buildAliasMap = true) by (vm_compute; reflexivity).
  intros k v Hin. rewrite forallb_forall in H. specialize (H (k, v) Hin).
  apply has_word_spec. exact H.
Qed.

Lemma alias_me : In ("me", "clawdia") buildAliasMap.
Proof.
  apply (proj1 (has_link_spec ("me", "clawdia") buildAliasMap)). vm_compute. reflexivity.
Qed.

Lemma extracted_spec : forall (am : list (string * string)) lower v,
  In v (mkSet (map snd (filter (fun e => includes lower (fst e)) am))) <->
  exists k, In (k, v) am /\ includes lower k = true.
Proof.
  intros am lower v. rewrite mkSet_In, in_map_iff. split.
  - intros [[k v'] [Hv Hin]]. simpl in Hv. subst v'.
    apply filter_In in Hin. exists k. exact Hin.
  - intros [k [Hin Hinc]]. exists (k, v). split; [reflexivity |].
    apply filter_In. split; [exact Hin | exact Hinc].
Qed.

(** X25.  [extractEntities] names an entity exactly when one of the keys
    of the alias map for it occurs in the lower-cased text as a substring,
    names every entity once, and names known entities only.  Matching is by
    substring, not by word: every text that contains the letters "me", as
    in "memory" or "some", names the entity "clawdia". *)
Theorem extractEntities_by_substring : forall text,
  NoDup (extractEntities text) /\
  (forall v, In v (extractEntities text) <->
             exists k, In (k, v) buildAliasMap /\ includes (toLowerCase text) k = true) /\
  (forall v, In v (extractEntities text) -> In v (map d_id KNOWN_ENTITIES)) /\
  (includes (toLowerCase text) "me" = true -> In "clawdia" (extractEntities text)).
Proof.
  intro text.
  assert (Hchar : forall v, In v (extractEntities text) <->
             exists k, In (k, v) buildAliasMap /\ includes (toLowerCase text) k = true).
  { intro v. unfold extractEntities. cbv zeta.
    exact (extracted_spec buildAliasMap (toLowerCase text) v). }
  split; [unfold extractEntities; apply mkSet_NoDup |]. split; [exact Hchar |]. split.
  - intros v Hv. destruct (proj1 (Hchar v) Hv) as [k [Hin _]].
    exact (alias_values_known k v Hin).
  - intro Hme. apply (proj2 (Hchar "clawdia")). exists "me".
    split; [exact alias_me | exact Hme].
Qed.

Lemma unambiguous_spec : forall (am : list (string * string)) defs,
  forallb
    (fun def =>
       forallb
         (fun key =>
            match find (fun e : string * string => String.eqb (fst e) key) am with
            | Some e => String.eqb (snd e) (d_id def)
            | None => false
            end)
         (alias_keys def))
    defs = true ->
  forall def key, In def defs -> In key (alias_keys def) ->
  option_map snd (find (fun e : string * string => String.eqb (fst e) key) am) =
  Some (d_id def).
Proof.
  intros am defs H def key Hdef Hkey.
  rewrite forallb_forall in H. specialize (H def Hdef).
  rewrite forallb_forall in H. specialize (H key Hkey).
  destruct (find _ am) as [e |]; [| discriminate].
  apply String.eqb_eq in H. simpl. rewrite H. reflexivity.
Qed.

Lemma alias_table_unambiguous : forall def key,
  In def KNOWN_ENTITIES -> In key (alias_keys def) ->
  option_map snd (find (fun e : string * string => String.eqb (fst e) key) buildAliasMap) =
  Some (d_id def).
Proof.
  apply (unambiguous_spec buildAliasMap KNOWN_ENTITIES). vm_compute. reflexivity.
Qed.

(** X26.  The alias table is unambiguous: a reference that is, up to case,
    the identifier, the name or an alias of a known entity resolves to that
    entity, unless the store holds an entity whose identifier is the
    lower-cased reference itself, which then wins. *)
Theorem resolve_known : forall db def ref,
  In def KNOWN_ENTITIES ->
  In (toLowerCase ref) (alias_keys def) ->
  resolve db ref =
  Some (match getEntity db (toLowerCase ref) with
        | Some _ => toLowerCase ref
        | None => d_id def
        end).
Proof.
  intros db def ref Hdef Hkey. unfold resolve. cbv zeta.
  destruct (getEntity db (toLowerCase ref)) as [direct |] eqn:Hd.
  - unfold getEntity in Hd. rewrite (find_entity_id _ _ Hd). reflexivity.
  - exact (alias_table_unambiguous def (toLowerCase ref) Hdef Hkey).
Qed.

Lemma resolve_known_witness :
  In (mkEntityDefinition "openclaw" "OpenClaw" project
        (Some "The platform I run on. Agent runtime.") (Some ["gateway"]))
     KNOWN_ENTITIES /\
  In (toLowerCase "Gateway")
     (alias_keys (mkEntityDefinition "openclaw" "OpenClaw" project
                    (Some "The platform I run on. Agent runtime.") (Some ["gateway"]))) /\
  resolve empty_db "Gateway" = Some "openclaw".
Proof.
  assert (H1 : In (mkEntityDefinition "openclaw" "OpenClaw" project
                     (Some "The platform I run on. Agent runtime.") (Some ["gateway"]))
                  KNOWN_ENTITIES).
  { do 6 right. left. reflexivity. }
  assert (H2 : In (toLowerCase "Gateway")
                  (alias_keys (mkEntityDefinition "openclaw" "OpenClaw" project
                                 (Some "The platform I run on. Agent runtime.")
                                 (Some ["gateway"])))).
  { right. right. left. reflexivity. }
  split; [exact H1 |]. split; [exact H2 |].
  exact (resolve_known empty_db _ "Gateway" H1 H2).
Defined.

(** ** The similarity of the search for duplicates *)

Lemma split_go_nonempty : forall s in_ws cur, split_go in_ws cur s <> [].
Proof.
  induction s as [| c s IH]; intros in_ws cur; simpl; [discriminate |].
  destruct (is_space c); [destruct in_ws; [apply IH | discriminate] | apply IH].
Qed.

Lemma text_words_nonempty : forall s, text_words s <> [].
Proof.
  intros s H. unfold text_words in H.
  destruct (split_ws (toLowerCase s)) as [| w ws] eqn:Hs.
  - exact (split_go_nonempty _ _ _ Hs).
  - assert (Hin : In w (mkSet (w :: ws))) by (apply mkSet_In; left; reflexivity).
    rewrite H in Hin. destruct Hin.
Qed.

Lemma textSimilarity_unfold : forall a b,
  textSimilarity a b =
  let common :=
    List.length (filter (fun w => existsb (String.eqb w) (text_words b)) (text_words a)) in
  let union := (List.length (text_words a) + List.length (text_words b) - common)%nat in
  if Nat.eqb union 0 then 0 else INR common / INR union.
Proof. reflexivity. Qed.

(** X27.  The similarity that the search for duplicates uses is symmetric
    and lies between 0 and 1; the sets it compares are never empty, so that
    it is always the quotient of intersection and union; and it is 1 for two
    texts with the same lower-cased words, so for every text and itself, the
    empty text included. *)
Theorem textSimilarity_properties :
  (forall a b, textSimilarity a b = textSimilarity b a) /\
  (forall a b, 0 <= textSimilarity a b <= 1) /\
  (forall a b,
     textSimilarity a b =
     INR (List.length (filter (fun w => existsb (String.eqb w) (text_words b))
                         (text_words a))) /
     INR (List.length (text_words a) + List.length (text_words b) -
          List.length (filter (fun w => existsb (String.eqb w) (text_words b))
                         (text_words a)))) /\
  (forall a b,
     (forall w, In w (text_words a) <-> In w (text_words b)) -> textSimilarity a b = 1) /\
  (forall a, textSimilarity a a = 1).
Proof.
  assert (Hpos : forall a b,
            (0 < List.length (text_words a) + List.length (text_words b) -
                 List.length (filter (fun w => existsb (String.eqb w) (text_words b))
                                (text_words a)))%nat).
  { intros a b.
    pose proof (filter_length_le (fun w => existsb (String.eqb w) (text_words b))
                  (text_words a)) as HA.
    pose proof (text_words_nonempty b) as Hb.
    destruct (text_words b); [congruence | simpl in *; lia]. }
  assert (Hsame : forall a b,
            (forall w, In w (text_words a) <-> In w (text_words b)) ->
            textSimilarity a b = 1).
  { intros a b Hw. rewrite textSimilarity_unfold. cbv zeta.
    rewrite (common_words_all (text_words a) (text_words b))
      by (intros w Hin; apply Hw; exact Hin).
    assert (Hlen : List.length (text_words b) = List.length (text_words a)).
    { apply Permutation_length.
      apply NoDup_Permutation; [apply mkSet_NoDup | apply mkSet_NoDup |].
      intro w. symmetry. apply Hw. }
    rewrite Hlen.
    assert (Hne : (0 < List.length (text_words a))%nat).
    { pose proof (text_words_nonempty a). destruct (text_words a); [congruence | simpl; lia]. }
    replace (List.length (text_words a) + List.length (text_words a) -
             List.length (text_words a))%nat
      with (List.length (text_words a)) by lia.
    destruct (Nat.eqb_spec (List.length (text_words a)) 0) as [H0 | _]; [lia |].
    unfold Rdiv. apply Rinv_r. apply not_0_INR. lia. }
  split; [| split; [| split; [| split]]].
  - intros a b. rewrite !textSimilarity_unfold. cbv zeta.
    rewrite (common_words_sym (text_words b) (text_words a)) by apply mkSet_NoDup.
    rewrite (Nat.add_comm (List.length (text_words b))). reflexivity.
  - intros a b. rewrite textSimilarity_unfold. cbv zeta.
    pose proof (filter_length_le (fun w => existsb (String.eqb w) (text_words b))
                  (text_words a)) as HA.
    pose proof (filter_length_le (fun w => existsb (String.eqb w) (text_words a))
                  (text_words b)) as HB.
    rewrite <- (common_words_sym (text_words a) (text_words b)) in HB
      by apply mkSet_NoDup.
    set (common := List.length (filter _ (text_words a))) in *.
    set (union := (List.length (text_words a) + List.length (text_words b) - common)%nat).
    destruct (Nat.eqb_spec union 0) as [| Hu]; [lra |].
    assert (Hle : (common <= union)%nat) by (unfold union; lia).
    assert (Hp : 0 < INR union) by (apply lt_0_INR; lia).
    apply le_INR in Hle. pose proof (pos_INR common) as H0.
    split.
    + apply Rmult_le_pos; [exact H0 | left; apply Rinv_0_lt_compat; exact Hp].
    + apply (Rmult_le_reg_r (INR union)); [exact Hp |].
      unfold Rdiv. rewrite Rmult_assoc, Rinv_l by lra. lra.
  - intros a b. rewrite textSimilarity_unfold. cbv zeta.
    specialize (Hpos a b).
    destruct (Nat.eqb_spec (List.length (text_words a) + List.length (text_words b) -
                            List.length (filter (fun w => existsb (String.eqb w) (text_words b))
                                           (text_words a))) 0) as [H0 | _]; [lia | reflexivity].
  - exact Hsame.
  - intro a. apply Hsame. intro w. tauto.
Qed.
